(** * An explicit-free-list allocator (mm.c): model and verification

    The allocator manages one growable region obtained from [mem_sbrk].
    Every block carries a header and a footer word holding its size and an
    allocated bit; free blocks are threaded on a doubly linked list whose
    head pointer lives in the first word of the region.

    The model keeps the code's view of memory: a flat store of 64-bit words
    addressed by byte address, read and written only through [GET] and
    [PUT].  Size arithmetic wraps modulo [2^64] as [size_t] does. *)

From Stdlib Require Import ZArith List Lia Bool.
Import ListNotations.
Open Scope Z_scope.

(** ** Machine state *)

Record state : Type := mkState {
  mem : Z -> Z;          (* contents of the word stored at a byte address *)
  mem_heap : Z;          (* first byte of the region (memlib) *)
  mem_brk : Z;           (* one past the last byte handed out (memlib) *)
  mem_max_addr : Z;      (* one past the last byte the region may reach *)
  sbrk_calls : Z;        (* number of calls of mem_sbrk so far *)
  heap_start : Z         (* the global [heap_start] of mm.c *)
}.

Definition set_mem (st : state) (m : Z -> Z) : state :=
  mkState m (mem_heap st) (mem_brk st) (mem_max_addr st) (sbrk_calls st)
          (heap_start st).

Definition set_heap_start (st : state) (p : Z) : state :=
  mkState (mem st) (mem_heap st) (mem_brk st) (mem_max_addr st)
          (sbrk_calls st) p.

Definition upd (m : Z -> Z) (a v : Z) : Z -> Z :=
  fun x => if x =? a then v else m x.

(** ** A state-and-failure monad

    [None] stands for an execution without a defined result: an access
    outside the region, a misaligned access, or a loop that did not finish
    within its fuel. *)

Definition M (A : Type) : Type := state -> option (A * state).

Definition ret {A} (a : A) : M A := fun st => Some (a, st).

Definition bind {A B} (m : M A) (f : A -> M B) : M B :=
  fun st => match m st with
            | Some (a, st') => f a st'
            | None => None
            end.

Definition fail {A} : M A := fun _ => None.

Notation "x <- m ;; k" := (bind m (fun x => k))
  (at level 61, m at next level, right associativity).
Notation "m ;; k" := (bind m (fun _ => k))
  (at level 61, right associativity).

(** ** Constants and macros of mm.c *)

Definition WSIZE : Z := 8.
Definition DSIZE : Z := 16.
Definition CHUNKSIZE : Z := Z.shiftl 1 12.
Definition OVERHEAD : Z := 16.
Definition NULL : Z := 0.

(** [size_t] and pointers are 64-bit. *)
Definition wrap (x : Z) : Z := x mod 2 ^ 64.

Definition PACK (size alloc : Z) : Z := Z.lor size alloc.

(** An access is defined when the word lies inside the region handed out so
    far and sits on a word boundary of the region. *)
Definition valid_addr (st : state) (p : Z) : bool :=
  (mem_heap st <=? p) && (p + WSIZE <=? mem_brk st)
  && ((p - mem_heap st) mod WSIZE =? 0).

Definition GET (p : Z) : M Z :=
  fun st => if valid_addr st p then Some (mem st p, st) else None.

Definition PUT (p val : Z) : M unit :=
  fun st => if valid_addr st p
            then Some (tt, set_mem st (upd (mem st) p val))
            else None.

Definition PADD (p val : Z) : Z := wrap (p + val).
Definition PSUB (p val : Z) : Z := wrap (p - val).

(** [~0xf] is the 64-bit mask with the low four bits cleared. *)
Definition GET_SIZE (p : Z) : M Z :=
  w <- GET p ;; ret (Z.land w (wrap (Z.lnot 15))).
Definition GET_ALLOC (p : Z) : M Z :=
  w <- GET p ;; ret (Z.land w 1).

Definition HDRP (bp : Z) : Z := PSUB bp WSIZE.
Definition FTRP (bp : Z) : M Z :=
  s <- GET_SIZE (HDRP bp) ;; ret (PADD bp (wrap (s - DSIZE))).

Definition NEXT_BLKP (bp : Z) : M Z :=
  s <- GET_SIZE (HDRP bp) ;; ret (PADD bp s).
Definition PREV_BLKP (bp : Z) : M Z :=
  s <- GET_SIZE (PSUB bp DSIZE) ;; ret (PSUB bp s).

Definition HEAD_PTR : M Z := fun st => Some (PSUB (heap_start st) DSIZE, st).
Definition HEAD : M Z := p <- HEAD_PTR ;; GET p.

Definition NEXT_FREE_BLKP (bp : Z) : M Z := GET bp.
Definition PREV_FREE_BLKP (bp : Z) : M Z := GET (PADD bp WSIZE).
Definition NEXT_FREE_BLKP_POS (bp : Z) : Z := bp.
Definition PREV_FREE_BLKP_POS (bp : Z) : Z := PADD bp WSIZE.

(** ** The region manager

    Modelled from the spec: [mem_sbrk] belongs to memlib, which is not part
    of mm.c.  It extends the region by exactly the requested number of bytes
    and returns the old break, or reports failure (the pointer [-1]) and
    leaves the region alone when the region cannot grow that far. *)
Definition mem_sbrk (incr : Z) : M Z :=
  fun st =>
    if mem_brk st + incr <=? mem_max_addr st
    then Some (mem_brk st,
               mkState (mem st) (mem_heap st) (mem_brk st + incr)
                       (mem_max_addr st) (sbrk_calls st + 1) (heap_start st))
    else Some (wrap (-1),
               mkState (mem st) (mem_heap st) (mem_brk st)
                       (mem_max_addr st) (sbrk_calls st + 1) (heap_start st)).

(** ** Free list *)

Definition add_to_list (bp : Z) : M unit :=
  h <- HEAD ;;
  (if negb (h =? NULL)
   then h' <- HEAD ;; PUT (PREV_FREE_BLKP_POS h') bp
   else ret tt) ;;
  h2 <- HEAD ;;
  PUT (NEXT_FREE_BLKP_POS bp) h2 ;;
  PUT (PREV_FREE_BLKP_POS bp) NULL ;;
  hp <- HEAD_PTR ;;
  PUT hp bp.

(** In the source both head tests compare [NEXT_FREE_BLKP_POS(bp)], the
    address of the link field (that is [bp] itself), with [NULL]. *)
Definition remove_from_list (bp : Z) : M unit :=
  h <- HEAD ;;
  if (bp =? h) && negb (NEXT_FREE_BLKP_POS bp =? NULL) then
    nx <- NEXT_FREE_BLKP bp ;;
    hp <- HEAD_PTR ;;
    PUT hp nx
  else
    h' <- HEAD ;;
    if (bp =? h') && (NEXT_FREE_BLKP_POS bp =? NULL) then
      PUT bp 0
    else
      nx <- NEXT_FREE_BLKP bp ;;
      (if negb (nx =? NULL)
       then nx' <- NEXT_FREE_BLKP bp ;;
            pv <- PREV_FREE_BLKP bp ;;
            PUT (PREV_FREE_BLKP_POS nx') pv
       else ret tt) ;;
      pv' <- PREV_FREE_BLKP bp ;;
      nx2 <- NEXT_FREE_BLKP bp ;;
      PUT (NEXT_FREE_BLKP_POS pv') nx2.

(** ** Placement, coalescing, search and growth *)

Definition place (bp asize : Z) : M unit :=
  s <- GET_SIZE (HDRP bp) ;;
  let nextsize := wrap (s - asize) in
  remove_from_list bp ;;
  if nextsize <? DSIZE + OVERHEAD then
    s1 <- GET_SIZE (HDRP bp) ;;
    PUT (HDRP bp) (PACK s1 1) ;;
    f <- FTRP bp ;;
    s2 <- GET_SIZE (HDRP bp) ;;
    PUT f (PACK s2 1)
  else
    f <- FTRP bp ;;
    PUT f nextsize ;;
    PUT (PADD bp (wrap (asize - WSIZE))) nextsize ;;
    add_to_list (PADD bp asize) ;;
    PUT (HDRP bp) (PACK asize 1) ;;
    f' <- FTRP bp ;;
    PUT f' (PACK asize 1).

Definition coalesce (bp : Z) : M Z :=
  pb <- PREV_BLKP bp ;;
  pa <- GET_ALLOC (HDRP pb) ;;
  r <- (if pa =? 0 then
          pb1 <- PREV_BLKP bp ;;
          ps <- GET_SIZE (HDRP pb1) ;;
          s <- GET_SIZE (HDRP bp) ;;
          pb2 <- PREV_BLKP bp ;;
          PUT (HDRP pb2) (wrap (ps + s)) ;;
          pb3 <- PREV_BLKP bp ;;
          ret (pb3, true)
        else ret (bp, false)) ;;
  let coalesced_block := fst r in
  let was_on_list := snd r in
  nb <- NEXT_BLKP coalesced_block ;;
  na <- GET_ALLOC (HDRP nb) ;;
  (if na =? 0 then
     nb1 <- NEXT_BLKP coalesced_block ;;
     remove_from_list nb1 ;;
     nb2 <- NEXT_BLKP coalesced_block ;;
     ns <- GET_SIZE (HDRP nb2) ;;
     s <- GET_SIZE (HDRP coalesced_block) ;;
     PUT (HDRP coalesced_block) (wrap (ns + s))
   else ret tt) ;;
  f <- FTRP coalesced_block ;;
  h <- GET (HDRP coalesced_block) ;;
  PUT f h ;;
  (if negb was_on_list then add_to_list coalesced_block else ret tt) ;;
  ret coalesced_block.

(** The search loop of [find_fit]; each iteration costs one unit of fuel. *)
Fixpoint find_fit_from (fuel : nat) (asize bp : Z) : M Z :=
  match fuel with
  | O => fail
  | S fuel' =>
      if negb (bp =? NULL) then
        s <- GET_SIZE (HDRP bp) ;;
        if asize <=? s then ret bp
        else nx <- NEXT_FREE_BLKP bp ;; find_fit_from fuel' asize nx
      else ret NULL
  end.

Definition find_fit (fuel : nat) (asize : Z) : M Z :=
  h <- HEAD ;; find_fit_from fuel asize h.

Definition extend_heap (words : Z) : M Z :=
  let size := wrap (words * WSIZE) in
  let size := if words mod 2 =? 1 then wrap (size + WSIZE) else size in
  bp <- mem_sbrk size ;;
  if 2 ^ 63 <=? bp then ret NULL        (* (long)bp < 0 *)
  else
    PUT (HDRP bp) (PACK size 0) ;;
    f <- FTRP bp ;;
    PUT f (PACK size 0) ;;
    nb <- NEXT_BLKP bp ;;
    PUT (HDRP nb) (PACK 0 1) ;;
    coalesce bp.

Definition max (x y : Z) : Z := if y <? x then x else y.

(** ** Public operations *)

Definition mm_init : M Z :=
  p <- mem_sbrk (4 * WSIZE) ;;
  (fun st => Some (tt, set_heap_start st p)) ;;
  if p =? NULL then ret (-1)
  else
    PUT p 0 ;;
    PUT (PADD p WSIZE) (PACK OVERHEAD 1) ;;
    PUT (PADD p DSIZE) (PACK OVERHEAD 1) ;;
    PUT (PADD p (WSIZE + DSIZE)) (PACK 0 1) ;;
    (fun st => Some (tt, set_heap_start st (PADD (heap_start st) DSIZE))) ;;
    r <- extend_heap (CHUNKSIZE / WSIZE) ;;
    if r =? NULL then ret (-1) else ret 0.

(** The adjusted block size computed at the top of [mm_malloc]. *)
Definition adjusted_size (size : Z) : Z :=
  if size <=? DSIZE then DSIZE + OVERHEAD
  else wrap (DSIZE * (wrap (size + OVERHEAD + (DSIZE - 1)) / DSIZE)).

Definition mm_malloc (fuel : nat) (size : Z) : M Z :=
  if size <=? 0 then ret NULL
  else
    let asize := adjusted_size size in
    bp <- find_fit fuel asize ;;
    if negb (bp =? NULL) then
      place bp asize ;; ret bp
    else
      let extendsize := max asize CHUNKSIZE in
      bp' <- extend_heap (extendsize / WSIZE) ;;
      if bp' =? NULL then ret NULL
      else place bp' asize ;; ret bp'.

Definition mm_free (bp : Z) : M unit :=
  f <- FTRP bp ;;
  s <- GET_SIZE (HDRP bp) ;;
  PUT f (PACK s 0) ;;
  s' <- GET_SIZE (HDRP bp) ;;
  PUT (HDRP bp) (PACK s' 0) ;;
  coalesce bp ;;
  ret tt.

(** ** Traversals

    [heap_walk] is the loop of [check_heap] and [print_heap]: from a block
    pointer, follow [NEXT_BLKP] as long as the header size is positive.  It
    returns the block pointers visited, the last one being the pointer at
    which the loop stops (the epilogue), which both functions inspect after
    the loop.  [list_walk] is the loop of [find_fit] without the size test:
    follow [NEXT_FREE_BLKP] until [NULL]. *)

Fixpoint heap_walk (fuel : nat) (bp : Z) : M (list Z) :=
  match fuel with
  | O => fail
  | S fuel' =>
      s <- GET_SIZE (HDRP bp) ;;
      if 0 <? s then
        nb <- NEXT_BLKP bp ;;
        rest <- heap_walk fuel' nb ;;
        ret (bp :: rest)
      else ret [bp]
  end.

Definition heap_blocks (fuel : nat) : M (list Z) :=
  fun st => heap_walk fuel (heap_start st) st.

Fixpoint list_walk (fuel : nat) (bp : Z) : M (list Z) :=
  match fuel with
  | O => fail
  | S fuel' =>
      if negb (bp =? NULL) then
        nx <- NEXT_FREE_BLKP bp ;;
        rest <- list_walk fuel' nx ;;
        ret (bp :: rest)
      else ret []
  end.

Definition free_list (fuel : nat) : M (list Z) :=
  h <- HEAD ;; list_walk fuel h.

(** ** The consistency checker

    [check_heap] and [check_block] print a diagnostic before they return
    [false]; the model returns the diagnostics printed beside the result.
    [check_blocks] is the loop of [check_heap]: it yields the pointer at
    which the loop ends, or the diagnostics of the block that failed. *)

Inductive diag : Type :=
| BadPrologue (line : Z)
| NotAligned (line bp : Z)
| TagMismatch (line : Z)
| BadEpilogue (line : Z).

Definition check_block (line bp : Z) : M (bool * list diag) :=
  if negb (bp mod DSIZE =? 0) then ret (false, [NotAligned line bp])
  else
    h <- GET (HDRP bp) ;;
    f <- FTRP bp ;;
    w <- GET f ;;
    if negb (h =? w) then ret (false, [TagMismatch line])
    else ret (true, []).

Fixpoint check_blocks (fuel : nat) (line bp : Z) : M (Z + list diag) :=
  match fuel with
  | O => fail
  | S fuel' =>
      s <- GET_SIZE (HDRP bp) ;;
      if 0 <? s then
        r <- check_block line bp ;;
        if negb (fst r) then ret (inr (snd r))
        else nb <- NEXT_BLKP bp ;; check_blocks fuel' line nb
      else ret (inl bp)
  end.

(** The test [GET_SIZE(HDRP(bp)) != size || !GET_ALLOC(HDRP(bp))]; the
    second operand is read only when the first is false. *)
Definition bad_sentinel (bp size : Z) : M bool :=
  s <- GET_SIZE (HDRP bp) ;;
  if negb (s =? size) then ret true
  else a <- GET_ALLOC (HDRP bp) ;; ret (a =? 0).

Definition check_heap (fuel : nat) (line : Z) : M (bool * list diag) :=
  fun st =>
    (bad <- bad_sentinel (heap_start st) DSIZE ;;
     if (bad : bool) then ret (false, [BadPrologue line])
     else
       r <- check_blocks fuel line (heap_start st) ;;
       match r with
       | inr d => ret (false, d)
       | inl bp =>
           bad' <- bad_sentinel bp 0 ;;
           if (bad' : bool) then ret (false, [BadEpilogue line])
           else ret (true, [])
       end) st.

(** A region fresh from [mem_init]: nothing handed out yet, arbitrary
    contents. *)
Definition fresh (st : state) : Prop :=
  0 < mem_heap st /\ mem_brk st = mem_heap st /\
  mem_heap st <= mem_max_addr st /\ mem_max_addr st <= 2 ^ 63 /\
  heap_start st = NULL.

(** * Specification

    The definitions the lemmas and theorems below are stated with: the
    abstract view of the heap, the invariant, the stages of [coalesce], the
    runs of the public interface and a few concrete heaps. *)

(** ** The abstract heap *)

(** The word stored in a header or footer for size [s] and flag [a]. *)
Definition tag (s : Z) (a : bool) : Z := if a then s + 1 else s.

(** A word address inside the region, as a proposition. *)
Definition valid (st : state) (p : Z) : Prop :=
  mem_heap st <= p /\ p + 8 <= mem_brk st /\ (p - mem_heap st) mod 8 = 0.

(** A block of the heap: payload address, size in bytes, allocated flag. *)
Definition block : Type := (Z * Z * bool)%type.

(** The blocks [bs] tile the addresses from [p] to [q]: each starts where
    the one before ends, and each size is a multiple of 16, at least 32. *)
Fixpoint contig (p : Z) (bs : list block) (q : Z) : Prop :=
  match bs with
  | [] => p = q
  | (b, s, _) :: r => b = p /\ 32 <= s /\ s mod 16 = 0 /\ contig (p + s) r q
  end.

Definition flag (b : block) : bool := snd b.

(** In a list of allocated flags, a free entry is never followed by a free
    entry. *)
Fixpoint naf (l : list bool) : Prop :=
  match l with
  | a :: r => (a = false -> hd true r = true) /\ naf r
  | [] => True
  end.

Definition no_adj_free (bs : list block) : Prop := naf (map flag bs).

(** The next-links of memory [m] lead from [h] through the blocks [l], in
    this order, to [t]. *)
Fixpoint lseg (m : Z -> Z) (h : Z) (l : list Z) (t : Z) : Prop :=
  match l with
  | [] => h = t
  | x :: r => h = x /\ lseg m (m x) r t
  end.

(** The previous-link of every block of [l] but the first names the block
    before it. *)
Fixpoint prevs (m : Z -> Z) (l : list Z) : Prop :=
  match l with
  | x :: r => match r with y :: _ => m (y + 8) = x | [] => True end /\ prevs m r
  | [] => True
  end.

(** Header and footer of every block of [bs] hold the block's tag. *)
Definition tags (m : Z -> Z) (bs : list block) : Prop :=
  forall b s a, In (b, s, a) bs ->
    m (b - 8) = tag s a /\ m (b + s - 16) = tag s a.

(** The address [a] lies in the payload of an allocated block of [bs]:
    past the header and before the footer. *)
Definition in_payload (bs : list block) (a : Z) : Prop :=
  exists x s, In (x, s, true) bs /\ x <= a < x + s - 16.

(** ** The heap invariant *)

(** What the invariant says about the contents of memory: the prologue and
    epilogue words, the boundary tags of every block, and the links of the
    free list rooted at the head slot (the first word of the region). *)
Record Stored (m : Z -> Z) (base brk : Z) (bs : list block) (fl : list Z)
  : Prop := {
  st_pro_h : m (base + 8) = 17;
  st_pro_f : m (base + 16) = 17;
  st_tags : tags m bs;
  st_epi : m (brk - 8) = 1;
  st_lseg : lseg m (m base) fl 0;
  st_prevs : prevs m fl
}.

(** What it says about the layout: the blocks tile the region between the
    prologue and the epilogue, no two neighbours are free, and the free list
    holds exactly the free blocks, each once. *)
Record Shape (st : state) (bs : list block) (fl : list Z) : Prop := {
  sh_base : 0 < mem_heap st;
  sh_brk : mem_brk st <= mem_max_addr st;
  sh_max : mem_max_addr st <= 2 ^ 63;
  sh_hs : heap_start st = mem_heap st + 16;
  sh_contig : contig (mem_heap st + 32) bs (mem_brk st);
  sh_naf : no_adj_free bs;
  sh_nodup : NoDup fl;
  sh_mem : forall x, In x fl <-> exists s, In (x, s, false) bs
}.

Definition Inv (st : state) (bs : list block) (fl : list Z) : Prop :=
  Shape st bs fl /\ Stored (mem st) (mem_heap st) (mem_brk st) bs fl.

(** The part of the layout the macros rely on: the region holds at least
    the four words [mm_init] wrote, and [heap_start] points at the prologue. *)
Definition region_ok (st : state) : Prop :=
  0 < mem_heap st /\ mem_heap st + 32 <= mem_brk st /\ mem_brk st <= 2 ^ 63 /\
  heap_start st = mem_heap st + 16.

(** A payload address whose two link words lie inside the region. *)
Definition cell (st : state) (x : Z) : Prop :=
  mem_heap st + 32 <= x /\ x + 16 <= mem_brk st /\
  (x - mem_heap st) mod 16 = 0.

(** The state after a call of [mem_sbrk] that extended the region by [incr]
    bytes, and after a call that was refused. *)
Definition grown (st : state) (incr : Z) : state :=
  mkState (mem st) (mem_heap st) (mem_brk st + incr) (mem_max_addr st)
          (sbrk_calls st + 1) (heap_start st).

Definition refused (st : state) : state :=
  mkState (mem st) (mem_heap st) (mem_brk st) (mem_max_addr st)
          (sbrk_calls st + 1) (heap_start st).

(** ** The stages of [coalesce]

    The body of [coalesce] cut in three: the test and merge with the block
    before, the test and merge with the block after, and the footer update
    with the insertion into the free list.  [coalesce_eq] below shows that
    their composition is [coalesce]. *)

Definition merge_prev (bp : Z) : M (Z * bool) :=
  pb <- PREV_BLKP bp ;;
  pa <- GET_ALLOC (HDRP pb) ;;
  if pa =? 0 then
    pb1 <- PREV_BLKP bp ;;
    ps <- GET_SIZE (HDRP pb1) ;;
    s <- GET_SIZE (HDRP bp) ;;
    pb2 <- PREV_BLKP bp ;;
    PUT (HDRP pb2) (wrap (ps + s)) ;;
    pb3 <- PREV_BLKP bp ;;
    ret (pb3, true)
  else ret (bp, false).

Definition merge_next (cb : Z) : M unit :=
  nb <- NEXT_BLKP cb ;;
  na <- GET_ALLOC (HDRP nb) ;;
  if na =? 0 then
    nb1 <- NEXT_BLKP cb ;;
    remove_from_list nb1 ;;
    nb2 <- NEXT_BLKP cb ;;
    ns <- GET_SIZE (HDRP nb2) ;;
    s <- GET_SIZE (HDRP cb) ;;
    PUT (HDRP cb) (wrap (ns + s))
  else ret tt.

Definition finish (cb : Z) (was_on_list : bool) : M Z :=
  f <- FTRP cb ;;
  h <- GET (HDRP cb) ;;
  PUT f h ;;
  (if negb was_on_list then add_to_list cb else ret tt) ;;
  ret cb.

(** The state between the stages: the block [cb] of size [cs] is free, its
    header is up to date but its footer may not be, and it is on the free
    list exactly when [onlist] says so.  The block before it is allocated. *)
Record Mid (st : state) (pre : list block) (cb cs : Z) (post : list block)
           (fl : list Z) (onlist : bool) : Prop := {
  md_base : 0 < mem_heap st;
  md_brk : mem_brk st <= mem_max_addr st;
  md_max : mem_max_addr st <= 2 ^ 63;
  md_hs : heap_start st = mem_heap st + 16;
  md_contig : contig (mem_heap st + 32) (pre ++ (cb, cs, false) :: post)
                     (mem_brk st);
  md_naf : no_adj_free (pre ++ (cb, cs, true) :: post);
  md_last : last (map flag pre) true = true;
  md_nodup : NoDup fl;
  md_mem : forall x, In x fl <->
             (onlist = true /\ x = cb) \/
             exists s, In (x, s, false) (pre ++ post);
  md_pro_h : mem st (mem_heap st + 8) = 17;
  md_pro_f : mem st (mem_heap st + 16) = 17;
  md_epi : mem st (mem_brk st - 8) = 1;
  md_tags : tags (mem st) (pre ++ post);
  md_hdr : mem st (cb - 8) = tag cs false;
  md_lseg : lseg (mem st) (mem st (mem_heap st)) fl 0;
  md_prevs : prevs (mem st) fl
}.

(** ** Requests and runs *)

(** The size field of the header of block [x], as [GET_SIZE(HDRP(x))]
    reads it. *)
Definition hsize (st : state) (x : Z) : Z :=
  Z.land (mem st (x - 8)) (wrap (Z.lnot 15)).

(** Request sizes whose adjustment does not wrap around. *)
Definition request_ok (n : Z) : Prop := 0 <= n <= 2 ^ 64 - 32.

(** How the allocated blocks change across an allocation that returned
    [p] for a request of [n] bytes. *)
Definition tracks (bs bs' : list block) (p n : Z) : Prop :=
  (p = NULL /\ forall x sx, In (x, sx, true) bs' <-> In (x, sx, true) bs) \/
  (p <> NULL /\ exists S', n + 16 <= S' /\
     forall x sx, In (x, sx, true) bs' <->
                  (x = p /\ sx = S') \/ In (x, sx, true) bs).

(** A request is a [size_t] value. *)
Definition size_t (n : Z) : Prop := 0 <= n < 2 ^ 64.

(** States produced by [mm_init] on a fresh region followed by calls of
    [mm_malloc], with requests admitted by [ok], and of [mm_free] on payload
    pointers that [mm_malloc] returned and that were not freed since.  The
    second index lists those live pointers. *)
Inductive reachable_with (ok : Z -> Prop) : state -> list Z -> Prop :=
| reach_init st0 st :
    fresh st0 -> mm_init st0 = Some (0, st) -> reachable_with ok st []
| reach_malloc st live fuel n p st' :
    reachable_with ok st live -> ok n ->
    mm_malloc fuel n st = Some (p, st') ->
    reachable_with ok st' (if p =? NULL then live else p :: live)
| reach_free st live p st' :
    reachable_with ok st live -> In p live ->
    mm_free p st = Some (tt, st') ->
    reachable_with ok st' (remove Z.eq_dec p live).

(** Runs whose requests never make the size adjustment wrap around, and
    runs with arbitrary requests. *)
Definition reachable : state -> list Z -> Prop := reachable_with request_ok.
Definition reachable_any : state -> list Z -> Prop := reachable_with size_t.

(** What a client does with the blocks it holds: between two calls it stores
    into their payloads.  [client_stores st live m'] says that memory [m']
    differs from the memory of [st] at most inside the payloads of the live
    blocks, the bytes between the header and the footer of a block. *)
Definition client_stores (st : state) (live : list Z) (m' : Z -> Z) : Prop :=
  forall a, (forall q, In q live -> a < q \/ q + hsize st q - 16 <= a) ->
    m' a = mem st a.

(** The states of [reachable], with stores of the client between the
    calls. *)
Inductive in_use : state -> list Z -> Prop :=
| use_init st0 st : fresh st0 -> mm_init st0 = Some (0, st) -> in_use st []
| use_malloc st live fuel n p st' :
    in_use st live -> request_ok n -> mm_malloc fuel n st = Some (p, st') ->
    in_use st' (if p =? NULL then live else p :: live)
| use_free st live p st' :
    in_use st live -> In p live -> mm_free p st = Some (tt, st') ->
    in_use st' (remove Z.eq_dec p live)
| use_store st live m' :
    in_use st live -> client_stores st live m' -> in_use (set_mem st m') live.

(** The value a monadic computation returns in a state, if any. *)
Definition run {A} (m : M A) (st : state) : option A :=
  match m st with Some (a, _) => Some a | None => None end.

(** ** Scripts

    A script is a list of public calls.  [run_ops] performs them in order,
    keeping the list of live pointers as [reachable_with] does, and stops
    with [None] when a call fails or a pointer that is not live is freed;
    [run_from] starts with [mm_init]. *)

Inductive op : Type :=
| Malloc (n : Z)
| Free (p : Z).

Fixpoint run_ops (fuel : nat) (ops : list op) (st : state) (live : list Z)
  : option (state * list Z) :=
  match ops with
  | [] => Some (st, live)
  | Malloc n :: r =>
      match mm_malloc fuel n st with
      | Some (p, st') =>
          run_ops fuel r st' (if p =? NULL then live else p :: live)
      | None => None
      end
  | Free p :: r =>
      if in_dec Z.eq_dec p live then
        match mm_free p st with
        | Some (_, st') => run_ops fuel r st' (remove Z.eq_dec p live)
        | None => None
        end
      else None
  end.

Definition run_from (fuel : nat) (st0 : state) (ops : list op)
  : option (state * list Z) :=
  match mm_init st0 with
  | Some (r, st) => if r =? 0 then run_ops fuel ops st [] else None
  | None => None
  end.

Definition state_after (fuel : nat) (st0 : state) (ops : list op) : state :=
  match run_from fuel st0 ops with
  | Some (st, _) => st
  | None => st0
  end.

Definition live_after (fuel : nat) (st0 : state) (ops : list op) : list Z :=
  match run_from fuel st0 ops with
  | Some (_, live) => live
  | None => []
  end.

Definition runs (fuel : nat) (st0 : state) (ops : list op) : bool :=
  match run_from fuel st0 ops with
  | Some _ => true
  | None => false
  end.

(** Boolean forms of the side conditions of a run. *)
Definition requests_ok (okb : Z -> bool) (ops : list op) : bool :=
  forallb (fun o => match o with Malloc n => okb n | Free _ => true end) ops.

Definition request_okb (n : Z) : bool := (0 <=? n) && (n <=? 2 ^ 64 - 32).
Definition size_tb (n : Z) : bool := (0 <=? n) && (n <? 2 ^ 64).

Definition freshb (st : state) : bool :=
  (0 <? mem_heap st) && (mem_brk st =? mem_heap st) &&
  (mem_heap st <=? mem_max_addr st) && (mem_max_addr st <=? 2 ^ 63) &&
  (heap_start st =? NULL).

(** ** What an operation leaves alone *)

(** The two states describe the same region: same bounds, same break, same
    number of [mem_sbrk] calls, same [heap_start]. *)
Definition same_region (st st' : state) : Prop :=
  mem_heap st' = mem_heap st /\ mem_brk st' = mem_brk st /\
  mem_max_addr st' = mem_max_addr st /\ sbrk_calls st' = sbrk_calls st /\
  heap_start st' = heap_start st.

(** A computation that, whenever it has a result, has changed nothing but
    the contents of memory. *)
Definition keeps {A} (m : M A) : Prop :=
  forall st a st', m st = Some (a, st') -> same_region st st'.

(** A computation that, whenever it has a result, has left the state as it
    was. *)
Definition reads_only {A} (m : M A) : Prop :=
  forall st a st', m st = Some (a, st') -> st' = st.

(** ** Concrete heaps *)

(** A fresh 20 MB region at address 4096 whose memory is all zero. *)
Definition heap0 : state :=
  mkState (fun _ => 0) 4096 4096 (4096 + 20 * 2 ^ 20) 0 NULL.

(** The heap right after [mm_init]. *)
Definition heap_init : state := state_after 8 heap0 [].

(** Two small blocks are allocated and the first one is freed. *)
Definition script_hole : list op := [Malloc 8; Malloc 8; Free 4128].
Definition heap_hole : state := state_after 8 heap0 script_hole.

(** Two 16-byte requests, both still live. *)
Definition script_pair : list op := [Malloc 16; Malloc 16].
Definition heap_pair : state := state_after 8 heap0 script_pair.

(** The first of two blocks is freed: the block before the second is free. *)
Definition script_gap : list op := [Malloc 16; Malloc 16; Free 4128].
Definition heap_gap : state := state_after 8 heap0 script_gap.

(** A request of [2^64 - 1] bytes, whose adjusted size wraps around to 16,
    then an ordinary request; the first block is freed again. *)
Definition script_wrap16 : list op :=
  [Malloc (2 ^ 64 - 1); Malloc 16; Free 4128].
Definition heap_wrap16 : state := state_after 8 heap0 script_wrap16.

(** A request of [2^64 - 31] bytes, whose adjusted size wraps around to 0. *)
Definition script_wrap0 : list op := [Malloc (2 ^ 64 - 31)].
Definition heap_wrap0 : state := state_after 8 heap0 script_wrap0.

(** A fresh region whose memory is not zero: three words hold values that
    the allocator later reads as a block header and as list links. *)
Definition heap_dirty : state :=
  mkState (fun a => if a =? 9184 then 10104
                    else if a =? 9192 then 4096
                    else if a =? 10096 then 64 else 0)
          4096 4096 (4096 + 20 * 2 ^ 20) 0 NULL.

Definition script_dirty : list op :=
  [Malloc 16; Malloc (2 ^ 64 - 31); Free 4128; Free 4160; Malloc 5000].
Definition heap_skewed : state := state_after 8 heap_dirty script_dirty.

(** One 16-byte block is live. *)
Definition script_one : list op := [Malloc 16].
Definition heap_one : state := state_after 8 heap0 script_one.

(** A fresh region with room for the sentinels and little else. *)
Definition heap_small : state :=
  mkState (fun _ => 0) 4096 4096 (4096 + 100) 0 NULL.

(** A region whose base is a multiple of 8 but not of 16, fresh and right
    after [mm_init]. *)
Definition heap_odd0 : state :=
  mkState (fun _ => 0) 4104 4104 (4104 + 20 * 2 ^ 20) 0 NULL.
Definition heap_odd : state := state_after 8 heap_odd0 [].


(** One live block whose first payload word holds a value of the client;
    the states after a further request of 16 bytes, and after that second
    block is freed again. *)
Definition heap_one_data : state :=
  set_mem heap_one (upd (mem heap_one) 4128 42).
Definition heap_pair_data : state :=
  match mm_malloc 8 16 heap_one_data with
  | Some (_, st) => st
  | None => heap_one_data
  end.
Definition heap_back_data : state :=
  match mm_free 4160 heap_pair_data with
  | Some (_, st) => st
  | None => heap_pair_data
  end.

(** * Verification *)

(** Division and remainder by constants are everywhere in the alignment
    arguments; let [lia] see through them. *)
Ltac Zify.zify_post_hook ::= Z.to_euclidean_division_equations.

(** ** Words, tags and masks *)

Lemma two64 : 2 ^ 64 = 18446744073709551616.
Proof. reflexivity. Qed.

Lemma wrap_small x : 0 <= x < 2 ^ 64 -> wrap x = x.
Proof. intros H. unfold wrap. apply Z.mod_small. exact H. Qed.

Lemma mask_val : wrap (Z.lnot 15) = 2 ^ 64 - 16.
Proof. reflexivity. Qed.

Lemma mask_bits n : 0 <= n ->
  Z.testbit (2 ^ 64 - 16) n = (4 <=? n) && (n <? 64).
Proof.
  intros Hn.
  change (2 ^ 64 - 16) with (Z.shiftl (Z.ones 60) 4).
  rewrite Z.shiftl_spec by assumption.
  destruct (Z.leb_spec 4 n) as [H4|H4]; cbn [andb].
  - destruct (Z.ltb_spec n 64) as [H6|H6].
    + apply Z.ones_spec_low. lia.
    + apply Z.ones_spec_high. lia.
  - apply Z.testbit_neg_r. lia.
Qed.

Lemma land_mask x : 0 <= x < 2 ^ 64 -> Z.land x (2 ^ 64 - 16) = 16 * (x / 16).
Proof.
  intros Hx.
  assert (E : Z.land x (2 ^ 64 - 16) = Z.ldiff x (Z.ones 4)).
  { apply Z.bits_inj'. intros n Hn.
    rewrite Z.land_spec, Z.ldiff_spec, mask_bits by assumption.
    destruct (Z.leb_spec 4 n) as [H4|H4]; cbn [andb].
    - rewrite Z.ones_spec_high by lia. cbn [negb].
      destruct (Z.ltb_spec n 64) as [H6|H6].
      + reflexivity.
      + rewrite andb_false_r, andb_true_r.
        destruct (Z.eq_dec x 0) as [->|Hx0]; [symmetry; apply Z.bits_0|].
        assert (Z.log2 x < 64) by (apply Z.log2_lt_pow2; lia).
        symmetry. apply Z.bits_above_log2; lia.
    - rewrite Z.ones_spec_low by lia. now rewrite !andb_false_r. }
  rewrite E, Z.ldiff_ones_r, Z.shiftr_div_pow2, Z.shiftl_mul_pow2 by lia.
  change (2 ^ 4) with 16. lia.
Qed.

Lemma GET_SIZE_tag s a :
  0 <= s < 2 ^ 64 -> s mod 16 = 0 ->
  Z.land (tag s a) (wrap (Z.lnot 15)) = s.
Proof.
  intros Hs Hm. rewrite mask_val, land_mask.
  - unfold tag. rewrite two64 in *. destruct a; lia.
  - unfold tag. rewrite two64 in *. destruct a; lia.
Qed.

Lemma GET_ALLOC_tag s a : s mod 16 = 0 -> Z.land (tag s a) 1 = Z.b2z a.
Proof.
  intros Hm. change (Z.land (tag s a) 1) with (Z.land (tag s a) (Z.ones 1)).
  rewrite Z.land_ones by lia.
  change (2 ^ 1) with 2. unfold tag. destruct a; cbn [Z.b2z]; lia.
Qed.

Lemma PACK_tag s a : 0 <= s -> s mod 16 = 0 -> PACK s (Z.b2z a) = tag s a.
Proof.
  intros Hs Hm. unfold PACK, tag. destruct a; cbn [Z.b2z].
  - assert (E : Z.land s 1 = 0).
    { change (Z.land s 1) with (Z.land s (Z.ones 1)). rewrite Z.land_ones by lia.
      change (2 ^ 1) with 2. lia. }
    rewrite <- Z.lxor_lor by exact E.
    symmetry. apply Z.add_nocarry_lxor. exact E.
  - apply Z.lor_0_r.
Qed.

(** ** Stepping through monadic code *)

Lemma bind_eq {A B} (m : M A) (k : A -> M B) st a st1 :
  m st = Some (a, st1) -> bind m k st = k a st1.
Proof. intros H. unfold bind. now rewrite H. Qed.

Lemma bind_None {A B} (m : M A) (k : A -> M B) st :
  m st = None -> bind m k st = None.
Proof. intros H. unfold bind. now rewrite H. Qed.

Lemma bind_assoc {A B C} (m : M A) (f : A -> M B) (g : B -> M C) st :
  bind (bind m f) g st = bind m (fun x => bind (f x) g) st.
Proof. unfold bind. destruct (m st) as [[a st1]|]; reflexivity. Qed.

Lemma valid_addr_iff st p : valid_addr st p = true <-> valid st p.
Proof.
  unfold valid_addr, valid, WSIZE.
  rewrite !andb_true_iff, !Z.leb_le, Z.eqb_eq. tauto.
Qed.

Lemma GET_exec st p : valid st p -> GET p st = Some (mem st p, st).
Proof.
  intros H. unfold GET. apply valid_addr_iff in H. now rewrite H.
Qed.

Lemma PUT_exec st p v :
  valid st p -> PUT p v st = Some (tt, set_mem st (upd (mem st) p v)).
Proof.
  intros H. unfold PUT. apply valid_addr_iff in H. now rewrite H.
Qed.

Lemma GET_SIZE_exec st p s a :
  valid st p -> mem st p = tag s a -> 0 <= s < 2 ^ 64 -> s mod 16 = 0 ->
  GET_SIZE p st = Some (s, st).
Proof.
  intros Hv Hm Hs H16. unfold GET_SIZE.
  rewrite (bind_eq _ _ _ _ _ (GET_exec _ _ Hv)). unfold ret.
  now rewrite Hm, GET_SIZE_tag.
Qed.

Lemma GET_ALLOC_exec st p s a :
  valid st p -> mem st p = tag s a -> s mod 16 = 0 ->
  GET_ALLOC p st = Some (Z.b2z a, st).
Proof.
  intros Hv Hm H16. unfold GET_ALLOC.
  rewrite (bind_eq _ _ _ _ _ (GET_exec _ _ Hv)). unfold ret.
  now rewrite Hm, GET_ALLOC_tag.
Qed.

Lemma HDRP_eq bp : 8 <= bp < 2 ^ 64 -> HDRP bp = bp - 8.
Proof. intros H. unfold HDRP, PSUB, WSIZE. apply wrap_small. lia. Qed.

Lemma PADD_eq p v : 0 <= p + v < 2 ^ 64 -> PADD p v = p + v.
Proof. intros H. unfold PADD. now apply wrap_small. Qed.

Lemma PSUB_eq p v : 0 <= p - v < 2 ^ 64 -> PSUB p v = p - v.
Proof. intros H. unfold PSUB. now apply wrap_small. Qed.

Lemma upd_same m a v : upd m a v a = v.
Proof. unfold upd. now rewrite Z.eqb_refl. Qed.

Lemma upd_other m a v x : x <> a -> upd m a v x = m x.
Proof. intros H. unfold upd. apply Z.eqb_neq in H. now rewrite H. Qed.

(** ** Heap geometry

    The abstract view of the region between the prologue and the epilogue:
    the blocks in address order, each with its payload address, its size and
    its allocated flag. *)

Lemma contig_app p l1 l2 q :
  contig p (l1 ++ l2) q <-> exists r, contig p l1 r /\ contig r l2 q.
Proof.
  revert p. induction l1 as [|[[b s] a] l1 IH]; intros p; cbn [app contig].
  - split.
    + intros H. exists p. now split.
    + intros (r & -> & H). exact H.
  - rewrite IH. split.
    + intros (Hb & Hs & Hm & r & H1 & H2). exists r. tauto.
    + intros (r & (Hb & Hs & Hm & H1) & H2). repeat split; trivial.
      exists r. tauto.
Qed.

Lemma contig_le p bs q : contig p bs q -> p <= q /\ (q - p) mod 16 = 0.
Proof.
  revert p. induction bs as [|[[b s] a] bs IH]; intros p; cbn [contig].
  - intros ->. split; [lia|]. now rewrite Z.sub_diag.
  - intros (_ & Hs & Hm & H). apply IH in H. lia.
Qed.

Lemma contig_split p bs q x s a :
  contig p bs q -> In (x, s, a) bs ->
  exists pre post, bs = pre ++ (x, s, a) :: post /\
                   contig p pre x /\ contig (x + s) post q /\
                   32 <= s /\ s mod 16 = 0.
Proof.
  intros Hc Hin. apply in_split in Hin as (pre & post & ->).
  exists pre, post. split; [reflexivity|].
  apply contig_app in Hc as (r & H1 & H2). cbn [contig] in H2.
  destruct H2 as (-> & Hs & Hm & H2). tauto.
Qed.

Lemma contig_in p bs q x s a :
  contig p bs q -> In (x, s, a) bs ->
  p <= x /\ x + s <= q /\ 32 <= s /\ s mod 16 = 0 /\ (x - p) mod 16 = 0.
Proof.
  intros Hc Hin.
  destruct (contig_split _ _ _ _ _ _ Hc Hin) as (pre & post & _ & H1 & H2 & Hs & Hm).
  apply contig_le in H1, H2. lia.
Qed.

Lemma contig_inj p bs q x s a s' a' :
  contig p bs q -> In (x, s, a) bs -> In (x, s', a') bs -> s = s' /\ a = a'.
Proof.
  intros Hc Hin Hin'.
  destruct (contig_split _ _ _ _ _ _ Hc Hin) as (pre & post & -> & H1 & H2 & Hs & Hm).
  apply in_app_or in Hin'. destruct Hin' as [Hi|[Hi|Hi]].
  - pose proof (contig_in _ _ _ _ _ _ H1 Hi). lia.
  - injection Hi as <- <-. now split.
  - pose proof (contig_in _ _ _ _ _ _ H2 Hi). lia.
Qed.

(** *** No two neighbouring blocks are free *)

Lemma naf_app l1 l2 :
  naf (l1 ++ l2) <->
  naf l1 /\ naf l2 /\ (last l1 true = false -> hd true l2 = true).
Proof.
  induction l1 as [|a l1 IH]; cbn [app naf].
  - cbn. split; [intros H; repeat split; trivial; discriminate | tauto].
  - rewrite IH. destruct l1 as [|a' l1].
    + cbn. tauto.
    + cbn [app hd]. change (last (a :: a' :: l1) true) with (last (a' :: l1) true).
      tauto.
Qed.

(** *** The free list in memory *)

Lemma lseg_frame m m' h l t :
  (forall x, In x l -> m' x = m x) -> lseg m h l t -> lseg m' h l t.
Proof.
  revert h. induction l as [|x l IH]; intros h Hf; cbn [lseg]; [trivial|].
  intros (-> & H). split; [reflexivity|].
  rewrite Hf by (left; reflexivity). apply IH; [|exact H].
  intros y Hy. apply Hf. now right.
Qed.

Lemma prevs_frame m m' l :
  (forall y, In y (tl l) -> m' (y + 8) = m (y + 8)) -> prevs m l -> prevs m' l.
Proof.
  induction l as [|x l IH]; cbn [prevs tl]; [trivial|].
  intros Hf (H1 & H2). split.
  - destruct l as [|y l]; [trivial|]. rewrite Hf by (left; reflexivity). exact H1.
  - apply IH; [|exact H2]. intros y Hy. apply Hf.
    destruct l; [contradiction|]. now right.
Qed.

Lemma lseg_app m h l1 l2 t :
  lseg m h (l1 ++ l2) t <-> exists u, lseg m h l1 u /\ lseg m u l2 t.
Proof.
  revert h. induction l1 as [|x l1 IH]; intros h; cbn [app lseg].
  - split.
    + intros H. exists h. now split.
    + intros (u & -> & H). exact H.
  - rewrite IH. split.
    + intros (-> & u & H1 & H2). exists u. tauto.
    + intros (u & (-> & H1) & H2). split; [reflexivity|]. exists u. tauto.
Qed.

Lemma prevs_app m l1 x l2 :
  prevs m (l1 ++ x :: l2) <-> prevs m (l1 ++ [x]) /\ prevs m (x :: l2).
Proof.
  induction l1 as [|y l1 IH]; cbn [app].
  - cbn [prevs]. tauto.
  - cbn [prevs]. rewrite IH.
    destruct l1 as [|z l1]; cbn [app]; cbn [prevs]; tauto.
Qed.

(** The head value of a list segment. *)
Lemma lseg_hd m h l t : lseg m h l t -> h = hd t l.
Proof. destruct l; cbn; [trivial|tauto]. Qed.

(** ** The heap invariant *)

Lemma tags_app m l1 l2 : tags m (l1 ++ l2) <-> tags m l1 /\ tags m l2.
Proof.
  unfold tags. split.
  - intros H. split; intros b s a Hi; apply H; apply in_or_app; tauto.
  - intros (H1 & H2) b s a Hi. apply in_app_or in Hi. destruct Hi; auto.
Qed.

Lemma tags_one m b s a :
  tags m [(b, s, a)] <-> m (b - 8) = tag s a /\ m (b + s - 16) = tag s a.
Proof.
  unfold tags. split.
  - intros H. apply H. now left.
  - intros H b' s' a' [Hi|[]]. injection Hi as <- <- <-. exact H.
Qed.

Lemma tags_cons m x l : tags m (x :: l) <-> tags m [x] /\ tags m l.
Proof. apply (tags_app m [x] l). Qed.

Lemma tags_frame m m' bs :
  (forall b s a, In (b, s, a) bs ->
     m' (b - 8) = m (b - 8) /\ m' (b + s - 16) = m (b + s - 16)) ->
  tags m bs -> tags m' bs.
Proof.
  intros Hf Ht b s a Hi. destruct (Hf _ _ _ Hi) as (-> & ->). now apply Ht.
Qed.

(** ** Executing the macros *)

Ltac norm :=
  cbn [mem mem_heap mem_brk mem_max_addr sbrk_calls heap_start
       set_mem set_heap_start grown refused fst snd] in *.

Ltac vsolve :=
  unfold valid, cell, region_ok, WSIZE, DSIZE, OVERHEAD, NULL in *; norm; lia.

Lemma HEAD_PTR_exec st : region_ok st -> HEAD_PTR st = Some (mem_heap st, st).
Proof.
  intros (H1 & H2 & H3 & H4). unfold HEAD_PTR, DSIZE.
  rewrite H4, PSUB_eq by lia. do 2 f_equal. lia.
Qed.

Lemma HEAD_exec st : region_ok st -> HEAD st = Some (mem st (mem_heap st), st).
Proof.
  intros H. unfold HEAD. rewrite (bind_eq _ _ _ _ _ (HEAD_PTR_exec st H)).
  apply GET_exec. vsolve.
Qed.

Lemma PACK_1 s : 0 <= s -> s mod 16 = 0 -> PACK s 1 = tag s true.
Proof. apply (PACK_tag s true). Qed.

Lemma PACK_0 s : 0 <= s -> s mod 16 = 0 -> PACK s 0 = tag s false.
Proof. apply (PACK_tag s false). Qed.

Ltac step_GET :=
  match goal with
  | |- bind (GET ?p) ?k ?st = _ =>
      rewrite (bind_eq (GET p) k st _ _ (GET_exec st p ltac:(vsolve))); norm
  end.

Ltac step_PUT :=
  match goal with
  | |- bind (PUT ?p ?v) ?k ?st = _ =>
      rewrite (bind_eq (PUT p v) k st _ _ (PUT_exec st p v ltac:(vsolve))); norm
  | |- PUT ?p ?v ?st = _ =>
      rewrite (PUT_exec st p v ltac:(vsolve)); norm
  end.

Ltac step_HEAD :=
  match goal with
  | |- bind HEAD ?k ?st = _ =>
      rewrite (bind_eq HEAD k st _ _ (HEAD_exec st ltac:(vsolve))); norm
  | |- bind HEAD_PTR ?k ?st = _ =>
      rewrite (bind_eq HEAD_PTR k st _ _ (HEAD_PTR_exec st ltac:(vsolve))); norm
  end.

Ltac step_ret :=
  match goal with
  | |- bind (ret ?x) ?k ?st = _ => change (bind (ret x) k st) with (k x st); cbv beta
  end.

(** Deciding a read of an updated memory by comparing addresses. *)
Ltac upd_simpl :=
  repeat first
    [ rewrite upd_same
    | rewrite upd_other by lia ].

(** ** Free-list insertion and removal *)

Lemma add_spec st b fl :
  region_ok st -> cell st b ->
  lseg (mem st) (mem st (mem_heap st)) fl 0 -> prevs (mem st) fl ->
  NoDup fl -> ~ In b fl -> (forall x, In x fl -> cell st x) ->
  exists m', add_to_list b st = Some (tt, set_mem st m') /\
    lseg m' (m' (mem_heap st)) (b :: fl) 0 /\ prevs m' (b :: fl) /\
    (forall a, a <> mem_heap st -> a <> b -> a <> b + 8 ->
               (forall y, In y fl -> a <> y + 8) -> m' a = mem st a).
Proof.
  intros Hr Hb Hl Hp Hnd Hnin Hcell.
  unfold add_to_list, PREV_FREE_BLKP_POS, NEXT_FREE_BLKP_POS, NULL, WSIZE.
  destruct fl as [|y r].
  - cbn [lseg] in Hl. eexists. split.
    { step_HEAD. rewrite Hl. cbn [Z.eqb negb]. step_ret.
      step_HEAD. rewrite Hl. step_PUT.
      rewrite PADD_eq by vsolve. step_PUT. step_HEAD. step_PUT.
      reflexivity. }
    assert (b <> mem_heap st /\ b + 8 <> mem_heap st /\ b <> b + 8)
      as (? & ? & ?) by vsolve.
    refine (conj _ (conj _ _)).
    + cbn [lseg]. upd_simpl. split; [reflexivity|]. now upd_simpl.
    + cbn [prevs]. tauto.
    + intros a Ha1 Ha2 Ha3 _. now upd_simpl.
  - cbn [lseg] in Hl. destruct Hl as (Hy & Hl).
    assert (Hcy : cell st y) by (apply Hcell; now left).
    assert (Hyb : y <> b) by (intros ->; apply Hnin; now left).
    eexists. split.
    { step_HEAD. rewrite Hy.
      replace (y =? 0) with false by (symmetry; apply Z.eqb_neq; vsolve).
      cbn [negb]. rewrite bind_assoc. step_HEAD. rewrite Hy.
      rewrite PADD_eq by vsolve. step_PUT.
      step_HEAD. step_PUT. rewrite PADD_eq by vsolve. step_PUT.
      step_HEAD. step_PUT. reflexivity. }
    assert (b <> mem_heap st /\ b + 8 <> mem_heap st /\
            y + 8 <> mem_heap st /\ y <> mem_heap st) as (? & ? & ? & ?)
      by vsolve.
    assert (y + 8 <> b /\ y <> b + 8) as (? & ?) by vsolve.
    apply NoDup_cons_iff in Hnd as (Hny & Hnd).
    refine (conj _ (conj _ _)).
    + upd_simpl. cbn [lseg]. split; [reflexivity|]. upd_simpl. rewrite Hy.
      split; [reflexivity|]. upd_simpl.
      eapply lseg_frame; [|exact Hl].
      intros x Hx.
      assert (cell st x) by (apply Hcell; now right).
      assert (x <> b) by (intros ->; apply Hnin; now right).
      rewrite !upd_other by vsolve. reflexivity.
    + cbn [prevs] in Hp |- *. destruct Hp as (Hp1 & Hp2).
      split; [now upd_simpl|]. split.
      * destruct r as [|z r]; [trivial|].
        assert (cell st z) by (apply Hcell; right; now left).
        assert (z <> b) by (intros ->; apply Hnin; right; now left).
        assert (z <> y) by (intros ->; apply Hny; now left).
        rewrite !upd_other by vsolve. exact Hp1.
      * eapply prevs_frame; [|exact Hp2].
        intros z Hz.
        assert (In z r) by (destruct r; [contradiction|now right]).
        assert (cell st z) by (apply Hcell; now right).
        assert (z <> b) by (intros ->; apply Hnin; now right).
        assert (z <> y) by (intros ->; contradiction).
        rewrite !upd_other by vsolve. reflexivity.
    + intros a Ha1 Ha2 Ha3 Ha4.
      assert (a <> y + 8) by (apply Ha4; now left).
      now upd_simpl.
Qed.

Lemma NoDup_app_iff (l1 l2 : list Z) :
  NoDup (l1 ++ l2) <->
  NoDup l1 /\ NoDup l2 /\ (forall x, In x l1 -> ~ In x l2).
Proof.
  induction l1 as [|a l1 IH]; cbn [app].
  - split; [intros H; repeat split; [constructor|exact H|intros x []]|tauto].
  - rewrite !NoDup_cons_iff, IH, in_app_iff. split.
    + intros (Ha & H1 & H2 & H3). repeat split; try tauto.
      intros x [<-|Hx]; [tauto|now apply H3].
    + intros ((Ha & H1) & H2 & H3). repeat split; trivial.
      * intros [H|H]; [tauto|]. apply (H3 a); [now left|exact H].
      * intros x Hx. apply H3. now right.
Qed.

Lemma exists_last_or_nil {A} (l : list A) :
  l = [] \/ exists l' x, l = l' ++ [x].
Proof.
  destruct l as [|a l] using rev_ind; [now left|].
  right. now exists l, a.
Qed.

Lemma remove_spec st b l1 l2 :
  region_ok st ->
  lseg (mem st) (mem st (mem_heap st)) (l1 ++ b :: l2) 0 ->
  prevs (mem st) (l1 ++ b :: l2) ->
  NoDup (l1 ++ b :: l2) -> (forall x, In x (l1 ++ b :: l2) -> cell st x) ->
  exists m', remove_from_list b st = Some (tt, set_mem st m') /\
    lseg m' (m' (mem_heap st)) (l1 ++ l2) 0 /\ prevs m' (l1 ++ l2) /\
    (forall a, a <> mem_heap st ->
               (forall x, In x (l1 ++ b :: l2) -> a <> x /\ a <> x + 8) ->
               m' a = mem st a).
Proof.
  intros Hr Hl Hp Hnd Hcell.
  assert (Hcb : cell st b) by (apply Hcell, in_or_app; right; now left).
  unfold remove_from_list, PREV_FREE_BLKP_POS, NEXT_FREE_BLKP_POS,
    NEXT_FREE_BLKP, PREV_FREE_BLKP, NULL, WSIZE.
  destruct (exists_last_or_nil l1) as [->|(l1' & pv & ->)].
  - (* the block is the head of the list *)
    cbn [app] in *. cbn [lseg] in Hl. destruct Hl as (Hh & Hl).
    eexists. split.
    { step_HEAD. rewrite Hh, Z.eqb_refl.
      replace (b =? 0) with false by (symmetry; apply Z.eqb_neq; vsolve).
      cbn [negb andb]. step_GET. step_HEAD. step_PUT. reflexivity. }
    refine (conj _ (conj _ _)).
    + upd_simpl. eapply lseg_frame; [|exact Hl].
      intros x Hx. assert (cell st x) by (apply Hcell; now right).
      rewrite upd_other by vsolve. reflexivity.
    + cbn [prevs] in Hp. destruct Hp as (_ & Hp).
      eapply prevs_frame; [|exact Hp].
      intros y Hy. assert (In y l2) by (destruct l2; [contradiction|now right]).
      assert (cell st y) by (apply Hcell; now right).
      rewrite upd_other by vsolve. reflexivity.
    + intros a Ha _. now upd_simpl.
  - (* the block has a predecessor [pv] on the list *)
    rewrite <- app_assoc in *. cbn [app] in *.
    assert (Hcpv : cell st pv) by (apply Hcell, in_or_app; right; now left).
    apply NoDup_app_iff in Hnd as (Hnd1 & Hnd2 & Hnd3).
    apply NoDup_cons_iff in Hnd2 as (Hpv & Hnd2).
    apply NoDup_cons_iff in Hnd2 as (Hbl2 & Hnd2).
    assert (Hpvb : pv <> b) by (intros ->; apply Hpv; now left).
    assert (Hh : mem st (mem_heap st) <> b).
    { apply lseg_hd in Hl. rewrite Hl. destruct l1' as [|z l1']; cbn [app hd].
      - exact Hpvb.
      - intros ->. apply (Hnd3 b); [now left|right; now left]. }
    apply lseg_app in Hl as (u & Hl1 & Hl2). cbn [lseg] in Hl2.
    destruct Hl2 as (-> & Hpvn & Hl2).
    apply prevs_app in Hp as (Hp1 & Hp2). cbn [prevs] in Hp2.
    destruct Hp2 as (Hbp & Hp2).
    assert (Hnx : mem st b = hd 0 l2) by (now apply lseg_hd in Hl2).
    destruct l2 as [|nx l2].
    + (* no successor *)
      cbn [hd] in Hnx. eexists. split.
      { step_HEAD.
        replace (b =? mem st (mem_heap st)) with false
          by (symmetry; apply Z.eqb_neq; congruence).
        cbn [andb]. step_HEAD.
        replace (b =? mem st (mem_heap st)) with false
          by (symmetry; apply Z.eqb_neq; congruence).
        cbn [andb]. step_GET. rewrite Hnx. cbn [Z.eqb negb]. step_ret.
        rewrite PADD_eq by vsolve. step_GET. step_GET.
        rewrite Hbp, Hnx. step_PUT. reflexivity. }
      refine (conj _ (conj _ _)).
      * rewrite upd_other by vsolve. apply lseg_app. exists pv. split.
        -- eapply lseg_frame; [|exact Hl1]. intros x Hx.
           assert (x <> pv) by (intros ->; apply (Hnd3 pv); [exact Hx|now left]).
           now upd_simpl.
        -- cbn [lseg]. split; [reflexivity|]. now upd_simpl.
      * eapply prevs_frame; [|exact Hp1]. intros y Hy.
        assert (In y (l1' ++ [pv])) by (destruct (l1' ++ [pv]); [contradiction|now right]).
        assert (cell st y).
        { apply Hcell. apply in_app_or in H as [H|[<-|[]]]; apply in_or_app;
            [now left|right; now left]. }
        rewrite upd_other by vsolve. reflexivity.
      * intros a Ha Hx. destruct (Hx pv) as (? & ?).
        { rewrite !in_app_iff. cbn [In]. tauto. }
        now upd_simpl.
    + (* a successor [nx] *)
      cbn [hd] in Hnx.
      assert (Hcnx : cell st nx).
      { apply Hcell, in_or_app. right. right. right. now left. }
      assert (Hnxb : nx <> b) by (intros ->; apply Hbl2; now left).
      assert (Hnxpv : nx <> pv).
      { intros ->. apply Hpv. right. now left. }
      cbn [lseg] in Hl2. destruct Hl2 as (_ & Hl2).
      eexists. split.
      { step_HEAD.
        replace (b =? mem st (mem_heap st)) with false
          by (symmetry; apply Z.eqb_neq; congruence).
        cbn [andb]. step_HEAD.
        replace (b =? mem st (mem_heap st)) with false
          by (symmetry; apply Z.eqb_neq; congruence).
        cbn [andb]. step_GET. rewrite Hnx.
        replace (nx =? 0) with false by (symmetry; apply Z.eqb_neq; vsolve).
        cbn [negb]. rewrite bind_assoc. step_GET. rewrite Hnx.
        rewrite (PADD_eq b) by vsolve. rewrite bind_assoc. step_GET.
        rewrite Hbp. rewrite PADD_eq by vsolve. step_PUT.
        step_GET. step_GET. rewrite !upd_other by vsolve.
        rewrite Hbp, Hnx. step_PUT. reflexivity. }
      refine (conj _ (conj _ _)).
      * rewrite !upd_other by vsolve. apply lseg_app. exists pv. split.
        -- eapply lseg_frame; [|exact Hl1]. intros x Hx.
           assert (x <> pv) by (intros ->; apply (Hnd3 pv); [exact Hx|now left]).
           assert (cell st x) by (apply Hcell, in_or_app; now left).
           rewrite !upd_other by vsolve. reflexivity.
        -- cbn [lseg]. split; [reflexivity|]. upd_simpl.
           split; [reflexivity|].
           eapply lseg_frame; [|exact Hl2]. intros x Hx.
           assert (x <> pv).
           { intros ->. apply Hpv. right. right. exact Hx. }
           assert (cell st x).
           { apply Hcell, in_or_app. right. right. right. now right. }
           rewrite !upd_other by vsolve. reflexivity.
      * apply prevs_app. split.
        -- eapply prevs_frame; [|exact Hp1]. intros y Hy.
           assert (Hin : In y (l1' ++ [pv]))
             by (destruct (l1' ++ [pv]); [contradiction|now right]).
           assert (cell st y).
           { apply Hcell. apply in_app_or in Hin as [H|[<-|[]]]; apply in_or_app;
               [now left|right; now left]. }
           assert (y <> nx).
           { intros ->. apply in_app_or in Hin as [H'|[->|[]]].
             - apply (Hnd3 nx H'). right. right. now left.
             - now apply Hnxpv. }
           rewrite !upd_other by vsolve. reflexivity.
        -- change (prevs ?m (pv :: nx :: l2))
             with ((m (nx + 8) = pv) /\ prevs m (nx :: l2)).
           split.
           ++ rewrite upd_other by vsolve. now upd_simpl.
           ++ eapply prevs_frame; [|exact (proj2 Hp2)]. cbn [tl]. intros y Hy.
              assert (cell st y).
              { apply Hcell, in_or_app. right. right. right. now right. }
              assert (y <> nx).
              { intros ->. apply NoDup_cons_iff in Hnd2 as (Hn & _).
                now apply Hn. }
              rewrite !upd_other by vsolve. reflexivity.
      * intros a Ha Hx.
        destruct (Hx pv) as (? & ?).
        { rewrite !in_app_iff. cbn [In]. tauto. }
        destruct (Hx nx) as (? & ?).
        { rewrite !in_app_iff. cbn [In]. tauto. }
        now upd_simpl.
Qed.

(** ** Consequences of the invariant *)

Lemma Shape_region st bs fl : Shape st bs fl -> region_ok st.
Proof.
  intros H. pose proof (contig_le _ _ _ (sh_contig _ _ _ H)).
  destruct H. unfold region_ok. lia.
Qed.

Lemma Shape_block st bs fl x s a :
  Shape st bs fl -> In (x, s, a) bs ->
  mem_heap st + 32 <= x /\ x + s <= mem_brk st /\ 32 <= s /\ s mod 16 = 0 /\
  (x - mem_heap st) mod 16 = 0.
Proof.
  intros H Hi. pose proof (contig_in _ _ _ _ _ _ (sh_contig _ _ _ H) Hi). lia.
Qed.

Lemma Shape_cell st bs fl x : Shape st bs fl -> In x fl -> cell st x.
Proof.
  intros H Hi. apply (sh_mem _ _ _ H) in Hi as (s & Hi).
  pose proof (Shape_block _ _ _ _ _ _ H Hi). unfold cell. lia.
Qed.

(** A boundary tag never shares its word with a link field: the links of a
    block lie strictly between its header and its footer. *)
Lemma tag_link_sep p bs q y sy ay x sx ax :
  contig p bs q -> In (y, sy, ay) bs -> In (x, sx, ax) bs ->
  y - 8 <> x /\ y - 8 <> x + 8 /\ y + sy - 16 <> x /\ y + sy - 16 <> x + 8.
Proof.
  intros Hc Hy Hx.
  destruct (contig_split _ _ _ _ _ _ Hc Hy) as (pre & post & -> & H1 & H2 & Hs & Hm).
  apply in_app_or in Hx. destruct Hx as [Hi|[Hi|Hi]].
  - pose proof (contig_in _ _ _ _ _ _ H1 Hi). lia.
  - injection Hi as <- <- <-. lia.
  - pose proof (contig_in _ _ _ _ _ _ H2 Hi). lia.
Qed.

(** Flipping the flag of one block. *)
Lemma naf_alloc l1 a l2 : naf (l1 ++ a :: l2) -> naf (l1 ++ true :: l2).
Proof.
  rewrite !naf_app. cbn [naf hd]. intros (H1 & (H2 & H3) & H4).
  repeat split; trivial; discriminate.
Qed.

Lemma no_adj_free_alloc pre b s a post s' :
  no_adj_free (pre ++ (b, s, a) :: post) ->
  no_adj_free (pre ++ (b, s', true) :: post).
Proof.
  unfold no_adj_free. rewrite !map_app. cbn [map flag snd]. apply naf_alloc.
Qed.

Lemma contig_flag p pre b s a a' post q :
  contig p (pre ++ (b, s, a) :: post) q ->
  contig p (pre ++ (b, s, a') :: post) q.
Proof. rewrite !contig_app. cbn [contig]. trivial. Qed.

Lemma blocks_sep p bs q y sy ay x sx ax :
  contig p bs q -> In (y, sy, ay) bs -> In (x, sx, ax) bs ->
  (y = x /\ sy = sx /\ ay = ax) \/ y + sy <= x \/ x + sx <= y.
Proof.
  intros Hc Hy Hx.
  destruct (contig_split _ _ _ _ _ _ Hc Hy) as (pre & post & -> & H1 & H2 & Hs & Hm).
  apply in_app_or in Hx. destruct Hx as [Hi|[Hi|Hi]].
  - pose proof (contig_in _ _ _ _ _ _ H1 Hi). lia.
  - injection Hi as <- <- <-. now left.
  - pose proof (contig_in _ _ _ _ _ _ H2 Hi). lia.
Qed.

Lemma PADD_wrap p v : PADD p (wrap v) = wrap (p + v).
Proof. unfold PADD, wrap. now rewrite Z.add_mod_idemp_r. Qed.

Lemma FTRP_exec st b s a :
  valid st (b - 8) -> mem st (b - 8) = tag s a ->
  0 <= s < 2 ^ 64 -> s mod 16 = 0 -> 8 <= b -> 0 <= b + s - 16 < 2 ^ 64 ->
  b < 2 ^ 64 ->
  FTRP b st = Some (b + s - 16, st).
Proof.
  intros Hv Hm Hs H16 Hb Hr Hb'. unfold FTRP.
  rewrite HDRP_eq by lia.
  rewrite (bind_eq _ _ _ _ _ (GET_SIZE_exec _ _ _ _ Hv Hm Hs H16)).
  unfold ret, DSIZE. rewrite PADD_wrap, wrap_small by lia.
  do 2 f_equal. lia.
Qed.

Lemma NEXT_BLKP_exec st b s a :
  valid st (b - 8) -> mem st (b - 8) = tag s a ->
  0 <= s < 2 ^ 64 -> s mod 16 = 0 -> 8 <= b -> b + s < 2 ^ 64 ->
  NEXT_BLKP b st = Some (b + s, st).
Proof.
  intros Hv Hm Hs H16 Hb Hr. unfold NEXT_BLKP.
  rewrite HDRP_eq by lia.
  rewrite (bind_eq _ _ _ _ _ (GET_SIZE_exec _ _ _ _ Hv Hm Hs H16)).
  unfold ret. now rewrite PADD_eq by lia.
Qed.

Lemma PREV_BLKP_exec st b s a :
  valid st (b - 16) -> mem st (b - 16) = tag s a ->
  0 <= s < 2 ^ 64 -> s mod 16 = 0 -> s <= b -> 16 <= b < 2 ^ 64 ->
  PREV_BLKP b st = Some (b - s, st).
Proof.
  intros Hv Hm Hs H16 Hb Hr. unfold PREV_BLKP, DSIZE.
  rewrite (PSUB_eq b 16) by lia.
  rewrite (bind_eq _ _ _ _ _ (GET_SIZE_exec _ _ _ _ Hv Hm Hs H16)).
  unfold ret. now rewrite PSUB_eq by lia.
Qed.

(** Stepping over a macro whose result is known. *)
Ltac step_by L := rewrite (bind_eq _ _ _ _ _ L); norm.

Ltac memval :=
  norm; upd_simpl;
  first [ eassumption | reflexivity | symmetry; eassumption ].

Ltac step_GET_SIZE s a :=
  match goal with
  | |- bind (GET_SIZE ?p) ?k ?st = _ =>
      let H := fresh in
      assert (H : GET_SIZE p st = Some (s, st))
        by (apply (GET_SIZE_exec st p s a); [vsolve | memval | vsolve | vsolve]);
      rewrite (bind_eq _ _ _ _ _ H); clear H; norm
  end.

Ltac step_GET_ALLOC s a :=
  match goal with
  | |- bind (GET_ALLOC ?p) ?k ?st = _ =>
      let H := fresh in
      assert (H : GET_ALLOC p st = Some (Z.b2z a, st))
        by (apply (GET_ALLOC_exec st p s a); [vsolve | memval | vsolve]);
      rewrite (bind_eq _ _ _ _ _ H); clear H; norm
  end.

Ltac step_FTRP s a :=
  match goal with
  | |- bind (FTRP ?b) ?k ?st = _ =>
      let H := fresh in
      assert (H : FTRP b st = Some (b + s - 16, st))
        by (apply (FTRP_exec st b s a);
            [vsolve | memval | vsolve | vsolve | vsolve | vsolve | vsolve]);
      rewrite (bind_eq _ _ _ _ _ H); clear H; norm
  end.

Ltac step_NEXT_BLKP s a :=
  match goal with
  | |- bind (NEXT_BLKP ?b) ?k ?st = _ =>
      let H := fresh in
      assert (H : NEXT_BLKP b st = Some (b + s, st))
        by (apply (NEXT_BLKP_exec st b s a);
            [vsolve | memval | vsolve | vsolve | vsolve | vsolve]);
      rewrite (bind_eq _ _ _ _ _ H); clear H; norm
  end.

Ltac step_PREV_BLKP s a :=
  match goal with
  | |- bind (PREV_BLKP ?b) ?k ?st = _ =>
      let H := fresh in
      assert (H : PREV_BLKP b st = Some (b - s, st))
        by (apply (PREV_BLKP_exec st b s a);
            [vsolve | memval | vsolve | vsolve | vsolve | vsolve]);
      rewrite (bind_eq _ _ _ _ _ H); clear H; norm
  end.

(** Removing a block from the free list leaves every boundary tag alone. *)
Lemma remove_Stored st bs l1 b l2 :
  Shape st bs (l1 ++ b :: l2) ->
  Stored (mem st) (mem_heap st) (mem_brk st) bs (l1 ++ b :: l2) ->
  exists m1, remove_from_list b st = Some (tt, set_mem st m1) /\
    Stored m1 (mem_heap st) (mem_brk st) bs (l1 ++ l2) /\
    (forall a, a <> mem_heap st ->
       (forall x s, In (x, s, false) bs -> a <> x /\ a <> x + 8) ->
       m1 a = mem st a).
Proof.
  intros Hsh Hst.
  pose proof (Shape_region _ _ _ Hsh) as Hr.
  destruct (remove_spec st b l1 l2 Hr (st_lseg _ _ _ _ _ Hst)
              (st_prevs _ _ _ _ _ Hst) (sh_nodup _ _ _ Hsh)
              (fun x => Shape_cell _ _ _ x Hsh)) as (m1 & Hrm & Hl & Hp & Hf).
  exists m1. split; [exact Hrm|].
  assert (Hf' : forall a, a <> mem_heap st ->
       (forall x s, In (x, s, false) bs -> a <> x /\ a <> x + 8) ->
       m1 a = mem st a).
  { intros a Ha Hx. apply Hf; [exact Ha|].
    intros x Hi. apply (sh_mem _ _ _ Hsh) in Hi as (s & Hi). eauto. }
  split; [|exact Hf'].
  pose proof (contig_le _ _ _ (sh_contig _ _ _ Hsh)) as Hle.
  destruct Hst as [Hph Hpf Ht He _ _].
  split; trivial.
  - rewrite Hf'; [exact Hph|vsolve|].
    intros x s Hi. pose proof (Shape_block _ _ _ _ _ _ Hsh Hi). lia.
  - rewrite Hf'; [exact Hpf|vsolve|].
    intros x s Hi. pose proof (Shape_block _ _ _ _ _ _ Hsh Hi). lia.
  - eapply tags_frame; [|exact Ht].
    intros y sy ay Hy. pose proof (Shape_block _ _ _ _ _ _ Hsh Hy).
    split; (apply Hf'; [lia|]); intros x s Hi;
      pose proof (tag_link_sep _ _ _ _ _ _ _ _ _ (sh_contig _ _ _ Hsh) Hy Hi);
      tauto.
  - rewrite Hf'; [exact He|vsolve|].
    intros x s Hi. pose proof (Shape_block _ _ _ _ _ _ Hsh Hi). lia.
Qed.

(** ** Placement *)

(** Facts about a free block [b] of size [S] sitting between [pre] and
    [post], and about the other members of the free list. *)
Lemma around_block st pre post l1 l2 b S a :
  Shape st (pre ++ (b, S, a) :: post) (l1 ++ b :: l2) ->
  (mem_heap st + 32 <= b /\ b + S <= mem_brk st /\ 32 <= S /\ S mod 16 = 0 /\
   (b - mem_heap st) mod 16 = 0) /\
  contig (mem_heap st + 32) pre b /\ contig (b + S) post (mem_brk st) /\
  (forall y sy ay, In (y, sy, ay) pre ->
     mem_heap st + 32 <= y /\ y + sy <= b /\ 32 <= sy /\ sy mod 16 = 0 /\
     (y - mem_heap st) mod 16 = 0) /\
  (forall y sy ay, In (y, sy, ay) post ->
     b + S <= y /\ y + sy <= mem_brk st /\ 32 <= sy /\ sy mod 16 = 0 /\
     (y - mem_heap st) mod 16 = 0) /\
  (forall x, In x (l1 ++ l2) ->
     mem_heap st + 32 <= x /\ (x - mem_heap st) mod 16 = 0 /\
     x + 32 <= mem_brk st /\ (x + 32 <= b \/ b + S <= x)) /\
  (forall y sy ay x, In (y, sy, ay) (pre ++ post) -> In x (l1 ++ l2) ->
     y - 8 <> x /\ y - 8 <> x + 8 /\ y + sy - 16 <> x /\ y + sy - 16 <> x + 8).
Proof.
  intros Hsh.
  assert (Hin : In (b, S, a) (pre ++ (b, S, a) :: post))
    by (apply in_or_app; right; now left).
  pose proof (Shape_block _ _ _ _ _ _ Hsh Hin) as Hb.
  pose proof (sh_contig _ _ _ Hsh) as Hc.
  apply contig_app in Hc as (r & Hc1 & Hc2). cbn [contig] in Hc2.
  destruct Hc2 as (<- & _ & _ & Hc2).
  assert (Hblk : forall x, In x (l1 ++ l2) ->
            x <> b /\ exists s, In (x, s, false) (pre ++ (b, S, a) :: post)).
  { intros x Hx. split.
    - intros ->. apply (NoDup_remove_2 _ _ _ (sh_nodup _ _ _ Hsh)). exact Hx.
    - apply (sh_mem _ _ _ Hsh). apply in_app_or in Hx. apply in_or_app.
      cbn [In]. tauto. }
  repeat apply conj; try tauto.
  - intros y sy ay Hy. pose proof (contig_in _ _ _ _ _ _ Hc1 Hy). lia.
  - intros y sy ay Hy. pose proof (contig_in _ _ _ _ _ _ Hc2 Hy). lia.
  - intros x Hx. destruct (Hblk _ Hx) as (Hxb & s & Hx').
    pose proof (Shape_block _ _ _ _ _ _ Hsh Hx').
    pose proof (blocks_sep _ _ _ _ _ _ _ _ _ (sh_contig _ _ _ Hsh) Hx' Hin).
    lia.
  - intros y sy ay x Hy Hx. destruct (Hblk _ Hx) as (Hxb & s & Hx').
    refine (tag_link_sep _ _ _ y sy ay x s false (sh_contig _ _ _ Hsh) _ Hx').
    apply in_app_or in Hy. apply in_or_app. cbn [In]. tauto.
Qed.

(** Membership in the free list after the block [b] changed: the free
    blocks of [pre] and [post] are exactly the other members. *)
Lemma others_mem st pre post l1 l2 b S :
  Shape st (pre ++ (b, S, false) :: post) (l1 ++ b :: l2) ->
  forall x, In x (l1 ++ l2) <-> exists s, In (x, s, false) (pre ++ post).
Proof.
  intros Hsh x.
  destruct (around_block _ _ _ _ _ _ _ _ Hsh) as (Hb & Hc1 & Hc2 & Hpre & Hpost & Hout & Hsep).
  split.
  - intros Hx. destruct (Hout _ Hx) as (_ & _ & _ & Ho).
    assert (Hx' : In x (l1 ++ b :: l2)).
    { apply in_app_or in Hx. apply in_or_app. cbn [In]. tauto. }
    apply (sh_mem _ _ _ Hsh) in Hx' as (s & Hx'). exists s.
    apply in_app_or in Hx'. apply in_or_app.
    destruct Hx' as [H|[H|H]]; [now left| |now right].
    injection H as <- <-. lia.
  - intros (s & Hx).
    assert (Hx' : In x (l1 ++ b :: l2)).
    { apply (sh_mem _ _ _ Hsh). exists s.
      apply in_app_or in Hx. apply in_or_app. cbn [In]. tauto. }
    assert (x <> b).
    { intros ->. apply in_app_or in Hx as [H|H].
      - apply Hpre in H. lia.
      - apply Hpost in H. lia. }
    apply in_app_or in Hx'. apply in_or_app. cbn [In] in Hx'.
    intuition congruence.
Qed.

(** Where the payload of an allocated block lies relative to another
    block [b] of the heap and relative to the free blocks. *)
Lemma payload_other p pre b S f post q a :
  contig p (pre ++ (b, S, f) :: post) q -> in_payload (pre ++ post) a ->
  (a < b - 16 \/ b + S <= a) /\ p <= a < q - 16 /\
  (forall y sy, In (y, sy, false) (pre ++ post) -> a < y - 16 \/ y + sy <= a).
Proof.
  intros Hc (x & s & Hx & Ha).
  assert (Hx' : In (x, s, true) (pre ++ (b, S, f) :: post)).
  { apply in_app_or in Hx. apply in_or_app. cbn [In]. tauto. }
  pose proof (contig_in _ _ _ _ _ _ Hc Hx') as Hxb.
  assert (Hb : x + s <= b \/ b + S <= x).
  { apply contig_app in Hc as (r & Hc1 & Hc2). cbn [contig] in Hc2.
    destruct Hc2 as (<- & _ & _ & Hc2).
    apply in_app_or in Hx as [Hx|Hx].
    - pose proof (contig_in _ _ _ _ _ _ Hc1 Hx). lia.
    - pose proof (contig_in _ _ _ _ _ _ Hc2 Hx). lia. }
  split; [lia|]. split; [lia|]. intros y sy Hy.
  assert (Hy' : In (y, sy, false) (pre ++ (b, S, f) :: post)).
  { apply in_app_or in Hy. apply in_or_app. cbn [In]. tauto. }
  destruct (blocks_sep _ _ _ _ _ _ _ _ _ Hc Hx' Hy') as [(_ & _ & H)|H];
    [discriminate|lia].
Qed.

(** [place] in a state that satisfies the invariant: the outcome of both
    branches, and the payloads of the allocated blocks left as they were. *)
Lemma place_frame st pre post l1 l2 b S A :
  Inv st (pre ++ (b, S, false) :: post) (l1 ++ b :: l2) ->
  0 <= A <= S -> A mod 16 = 0 ->
  exists m', place b A st = Some (tt, set_mem st m') /\
    (S - A < 32 ->
       Inv (set_mem st m') (pre ++ (b, S, true) :: post) (l1 ++ l2)) /\
    (32 <= S - A -> 16 <= A ->
       Stored m' (mem_heap st) (mem_brk st)
         (pre ++ (b, A, true) :: (b + A, S - A, false) :: post)
         ((b + A) :: l1 ++ l2)) /\
    (forall a, in_payload (pre ++ post) a -> m' a = mem st a).
Proof.
  intros (Hsh & Hst) HA HA16.
  pose proof (Shape_region _ _ _ Hsh) as Hr.
  destruct (around_block _ _ _ _ _ _ _ _ Hsh) as (Hb & Hc1 & Hc2 & Hpre & Hpost & Hout & Hsep).
  assert (Hin : In (b, S, false) (pre ++ (b, S, false) :: post))
    by (apply in_or_app; right; now left).
  destruct (st_tags _ _ _ _ _ Hst _ _ _ Hin) as (Hh0 & Hfo0).
  destruct (remove_Stored _ _ _ _ _ Hsh Hst) as (m1 & Hrm & Hst1 & Hf1).
  assert (Hpay : forall a, in_payload (pre ++ post) a ->
            (a < b - 16 \/ b + S <= a) /\
            mem_heap st + 32 <= a < mem_brk st - 16 /\
            (forall y, In y (l1 ++ l2) -> a < y - 16 \/ y + 32 <= a) /\
            m1 a = mem st a).
  { intros a Ha.
    destruct (payload_other _ _ _ _ _ _ _ _ (sh_contig _ _ _ Hsh) Ha)
      as (P1 & P2 & P3).
    assert (P4 : forall y, In y (l1 ++ l2) -> a < y - 16 \/ y + 32 <= a).
    { intros y Hy. apply (others_mem _ _ _ _ _ _ _ Hsh) in Hy as (sy & Hy).
      pose proof (P3 _ _ Hy) as Q1.
      assert (Q2 : 32 <= sy).
      { apply in_app_or in Hy as [Q|Q]; [apply Hpre in Q|apply Hpost in Q]; lia. }
      lia. }
    repeat split; trivial; try lia.
    apply Hf1; [lia|]. intros x s Hx.
    apply in_app_or in Hx. cbn [In] in Hx.
    destruct Hx as [Hx|[Hx|Hx]].
    - pose proof (P3 x s ltac:(apply in_or_app; now left)) as Q.
      apply Hpre in Hx. lia.
    - injection Hx as <- <-. lia.
    - pose proof (P3 x s ltac:(apply in_or_app; now right)) as Q.
      apply Hpost in Hx. lia. }
  destruct (st_tags _ _ _ _ _ Hst1 _ _ _ Hin) as (Hh1 & Hfo1).
  destruct Hst1 as [Hph1 Hpf1 Ht1 He1 Hl1 Hp1].
  apply tags_app in Ht1 as (Htpre & Htpost).
  apply tags_cons in Htpost as (_ & Htpost).
  unfold place, DSIZE, OVERHEAD, WSIZE.
  change (16 + 16) with 32.
  destruct (Z.ltb_spec (S - A) 32) as [Hlt|Hge].
  - (* the remainder would be too small: no split *)
    eexists. split.
    { rewrite HDRP_eq by vsolve. step_GET_SIZE S false.
      rewrite (wrap_small (S - A)) by vsolve. step_by Hrm.
      replace (S - A <? 32) with true by (symmetry; apply Z.ltb_lt; lia).
      step_GET_SIZE S false. rewrite PACK_1 by lia. step_PUT.
      step_FTRP S true. step_GET_SIZE S true. rewrite PACK_1 by lia.
      step_PUT. reflexivity. }
    split; [intros _; split|split; [intros; lia|]].
    + destruct Hsh as [H1 H2 H3 H4 H5 H6 H7 H8]. split; norm; trivial.
      * eapply contig_flag. exact H5.
      * eapply no_adj_free_alloc. exact H6.
      * eapply NoDup_remove_1. exact H7.
      * intros x.
        rewrite (others_mem _ _ _ _ _ _ _
                   (Build_Shape _ _ _ H1 H2 H3 H4 H5 H6 H7 H8) x).
        split; intros (s & Hx); exists s; apply in_app_or in Hx;
          apply in_or_app; cbn [In]; [tauto|].
        destruct Hx as [Hx|[Hx|Hx]]; [tauto|discriminate|tauto].
    + norm. split.
      * now upd_simpl.
      * now upd_simpl.
      * apply tags_app. split; [|apply tags_cons; split].
        -- eapply tags_frame; [|exact Htpre]. intros y sy ay Hy.
           apply Hpre in Hy. now upd_simpl.
        -- apply tags_one. now upd_simpl.
        -- eapply tags_frame; [|exact Htpost]. intros y sy ay Hy.
           apply Hpost in Hy. now upd_simpl.
      * now upd_simpl.
      * upd_simpl. eapply lseg_frame; [|exact Hl1]. intros x Hx.
        apply Hout in Hx. now upd_simpl.
      * eapply prevs_frame; [|exact Hp1]. intros y Hy.
        assert (Hy' : In y (l1 ++ l2)) by (destruct (l1 ++ l2); [contradiction|now right]).
        apply Hout in Hy'. now upd_simpl.
    + intros a Ha. destruct (Hpay a Ha) as (P1 & P2 & P3 & P4).
      upd_simpl. exact P4.
  - (* split *)
    assert (Hnd : NoDup (l1 ++ l2)) by (eapply NoDup_remove_1; apply (sh_nodup _ _ _ Hsh)).
    set (m3 := upd (upd m1 (b + S - 16) (S - A)) (b + A - 8) (S - A)).
    assert (Hr3 : region_ok (set_mem st m3)) by exact Hr.
    assert (Hcell3 : cell (set_mem st m3) (b + A)) by vsolve.
    assert (Hl3 : lseg m3 (m3 (mem_heap st)) (l1 ++ l2) 0).
    { unfold m3. upd_simpl. eapply lseg_frame; [|exact Hl1]. intros x Hx.
      apply Hout in Hx. now upd_simpl. }
    assert (Hp3 : prevs m3 (l1 ++ l2)).
    { eapply prevs_frame; [|exact Hp1]. intros y Hy.
      assert (Hy' : In y (l1 ++ l2)) by (destruct (l1 ++ l2); [contradiction|now right]).
      apply Hout in Hy'. unfold m3. now upd_simpl. }
    assert (Hnin : ~ In (b + A) (l1 ++ l2)).
    { intros Hx. apply Hout in Hx. lia. }
    assert (Hcells : forall x, In x (l1 ++ l2) -> cell (set_mem st m3) x).
    { intros x Hx. apply Hout in Hx. vsolve. }
    destruct (add_spec (set_mem st m3) (b + A) (l1 ++ l2) Hr3 Hcell3 Hl3 Hp3
                Hnd Hnin Hcells) as (m4 & Hadd & Hl4 & Hp4 & Hf4).
    norm.
    assert (Hf4a : forall a, a <> mem_heap st -> a <> b + A -> a <> b + A + 8 ->
              (a - mem_heap st) mod 16 = 0 \/ (b - 16 <= a /\ a <= b + S) \/
              a < mem_heap st + 40 \/ mem_brk st - 8 <= a ->
              m4 a = m3 a).
    { intros a H1 H2 H3 H4. apply Hf4; trivial.
      intros y Hy. apply Hout in Hy. lia. }
    assert (Hf4b : forall y sy ay, In (y, sy, ay) (pre ++ post) ->
              m4 (y - 8) = m3 (y - 8) /\ m4 (y + sy - 16) = m3 (y + sy - 16)).
    { intros y sy ay Hy.
      assert (Hy' : mem_heap st + 32 <= y /\ 32 <= sy /\ sy mod 16 = 0 /\
                    (y - mem_heap st) mod 16 = 0 /\ (y + sy <= b \/ b + S <= y)).
      { apply in_app_or in Hy as [H|H]; [apply Hpre in H|apply Hpost in H]; lia. }
      split; (apply Hf4; [lia|lia|lia|]); intros x Hx;
        apply (Hsep _ _ _ _ Hy Hx). }
    eexists. split.
    { rewrite HDRP_eq by vsolve. step_GET_SIZE S false.
      rewrite (wrap_small (S - A)) by vsolve. step_by Hrm.
      replace (S - A <? 32) with false by (symmetry; apply Z.ltb_ge; lia).
      step_FTRP S false. step_PUT.
      rewrite PADD_wrap, wrap_small by vsolve.
      replace (b + (A - 8)) with (b + A - 8) by lia. step_PUT.
      rewrite PADD_eq by vsolve. fold m3. step_by Hadd.
      rewrite PACK_1 by lia. step_PUT.
      unfold FTRP. rewrite bind_assoc, HDRP_eq by vsolve.
      step_GET_SIZE A true. step_ret. unfold DSIZE.
      rewrite PADD_wrap, wrap_small by vsolve.
      replace (b + (A - 16)) with (b + A - 16) by lia. step_PUT.
      reflexivity. }
    split; [intros; lia|]. split; [intros _ HA'; split|].
    + upd_simpl. rewrite Hf4a by lia. unfold m3. now upd_simpl.
    + upd_simpl. rewrite Hf4a by lia. unfold m3. now upd_simpl.
    + apply tags_app. split; [|apply tags_cons; split; [|apply tags_cons; split]].
      * intros y sy ay Hy.
        destruct (Hf4b y sy ay) as (E1 & E2); [apply in_or_app; now left|].
        destruct (Htpre _ _ _ Hy) as (T1 & T2).
        apply Hpre in Hy.
        upd_simpl. rewrite E1, E2. unfold m3. upd_simpl. now split.
      * apply tags_one. unfold tag. split; now upd_simpl.
      * apply tags_one. unfold tag.
        replace (b + A + (S - A) - 16) with (b + S - 16) by lia.
        upd_simpl. rewrite !Hf4a by lia. unfold m3. split; now upd_simpl.
      * intros y sy ay Hy.
        destruct (Hf4b y sy ay) as (E1 & E2); [apply in_or_app; now right|].
        destruct (Htpost _ _ _ Hy) as (T1 & T2).
        apply Hpost in Hy.
        upd_simpl. rewrite E1, E2. unfold m3. upd_simpl. now split.
    + upd_simpl. rewrite Hf4a by lia. unfold m3. now upd_simpl.
    + upd_simpl. eapply lseg_frame; [|exact Hl4]. intros x [<-|Hx].
      * now upd_simpl.
      * apply Hout in Hx. now upd_simpl.
    + eapply prevs_frame; [|exact Hp4]. cbn [tl]. intros y Hy.
      apply Hout in Hy. now upd_simpl.
    + intros a Ha. destruct (Hpay a Ha) as (P1 & P2 & P3 & P4).
      upd_simpl. rewrite Hf4.
      * unfold m3. upd_simpl. exact P4.
      * lia.
      * lia.
      * lia.
      * intros y Hy. apply P3 in Hy. lia.
Qed.

Lemma place_spec st pre post l1 l2 b S A :
  Inv st (pre ++ (b, S, false) :: post) (l1 ++ b :: l2) ->
  0 <= A <= S -> A mod 16 = 0 ->
  exists m', place b A st = Some (tt, set_mem st m') /\
    (S - A < 32 ->
       Inv (set_mem st m') (pre ++ (b, S, true) :: post) (l1 ++ l2)) /\
    (32 <= S - A -> 16 <= A ->
       Stored m' (mem_heap st) (mem_brk st)
         (pre ++ (b, A, true) :: (b + A, S - A, false) :: post)
         ((b + A) :: l1 ++ l2)).
Proof.
  intros HI HA HA16.
  destruct (place_frame st pre post l1 l2 b S A HI HA HA16)
    as (m' & E & Hno & Hsp & _).
  exists m'. tauto.
Qed.

(** ** Coalescing

    [coalesce] is analysed in three stages, which compose to the function of
    the source: the merge with the previous block, the merge with the next
    block, and the footer update with the insertion into the free list. *)

Lemma coalesce_eq bp st :
  coalesce bp st =
  (r <- merge_prev bp ;; merge_next (fst r) ;; finish (fst r) (snd r)) st.
Proof.
  unfold coalesce, merge_prev, merge_next, finish, bind.
  destruct (PREV_BLKP bp st) as [[pb st1]|]; [|reflexivity].
  destruct (GET_ALLOC (HDRP pb) st1) as [[pa st2]|]; [|reflexivity].
  destruct (pa =? 0).
  - destruct (PREV_BLKP bp st2) as [[pb1 st3]|]; [|reflexivity].
    destruct (GET_SIZE (HDRP pb1) st3) as [[ps st4]|]; [|reflexivity].
    destruct (GET_SIZE (HDRP bp) st4) as [[s st5]|]; [|reflexivity].
    destruct (PREV_BLKP bp st5) as [[pb2 st6]|]; [|reflexivity].
    destruct (PUT (HDRP pb2) (wrap (ps + s)) st6) as [[[] st7]|]; [|reflexivity].
    destruct (PREV_BLKP bp st7) as [[pb3 st8]|]; [|reflexivity].
    cbn [ret fst snd].
    destruct (NEXT_BLKP pb3 st8) as [[nb st9]|]; [|reflexivity].
    destruct (GET_ALLOC (HDRP nb) st9) as [[na st10]|]; [|reflexivity].
    destruct (na =? 0); reflexivity.
  - cbn [ret fst snd].
    destruct (NEXT_BLKP bp st2) as [[nb st9]|]; [|reflexivity].
    destruct (GET_ALLOC (HDRP nb) st9) as [[na st10]|]; [|reflexivity].
    destruct (na =? 0); reflexivity.
Qed.

Lemma Mid_facts st pre cb cs post fl onlist :
  Mid st pre cb cs post fl onlist ->
  region_ok st /\
  (mem_heap st + 32 <= cb /\ cb + cs <= mem_brk st /\ 32 <= cs /\
   cs mod 16 = 0 /\ (cb - mem_heap st) mod 16 = 0) /\
  contig (mem_heap st + 32) pre cb /\ contig (cb + cs) post (mem_brk st) /\
  (forall y sy ay, In (y, sy, ay) pre ->
     mem_heap st + 32 <= y /\ y + sy <= cb /\ 32 <= sy /\ sy mod 16 = 0 /\
     (y - mem_heap st) mod 16 = 0) /\
  (forall y sy ay, In (y, sy, ay) post ->
     cb + cs <= y /\ y + sy <= mem_brk st /\ 32 <= sy /\ sy mod 16 = 0 /\
     (y - mem_heap st) mod 16 = 0) /\
  (forall x, In x fl ->
     mem_heap st + 32 <= x /\ (x - mem_heap st) mod 16 = 0 /\
     x + 32 <= mem_brk st /\
     (x + 32 <= cb \/ cb + cs <= x \/ (onlist = true /\ x = cb))) /\
  (forall y sy ay x, In (y, sy, ay) (pre ++ post) -> In x fl ->
     y - 8 <> x /\ y - 8 <> x + 8 /\ y + sy - 16 <> x /\ y + sy - 16 <> x + 8).
Proof.
  intros H. pose proof (md_contig _ _ _ _ _ _ _ H) as Hc.
  assert (Hin : In (cb, cs, false) (pre ++ (cb, cs, false) :: post))
    by (apply in_or_app; right; now left).
  pose proof (contig_in _ _ _ _ _ _ Hc Hin) as Hb.
  pose proof (contig_le _ _ _ Hc) as Hle.
  pose proof Hc as Hc'.
  apply contig_app in Hc' as (r & Hc1 & Hc2). cbn [contig] in Hc2.
  destruct Hc2 as (<- & _ & _ & Hc2).
  assert (Hblk : forall x, In x fl ->
            exists s, In (x, s, false) (pre ++ (cb, cs, false) :: post) /\
                      ((onlist = true /\ x = cb) \/ In (x, s, false) (pre ++ post))).
  { intros x Hx. apply (md_mem _ _ _ _ _ _ _ H) in Hx as [(Ho & ->)|(s & Hx)].
    - exists cs. split; [exact Hin|now left].
    - exists s. split; [|now right].
      apply in_app_or in Hx. apply in_or_app. cbn [In]. tauto. }
  assert (Hpre : forall y sy ay, In (y, sy, ay) pre ->
     mem_heap st + 32 <= y /\ y + sy <= cb /\ 32 <= sy /\ sy mod 16 = 0 /\
     (y - mem_heap st) mod 16 = 0).
  { intros y sy ay Hy. pose proof (contig_in _ _ _ _ _ _ Hc1 Hy). lia. }
  assert (Hpost : forall y sy ay, In (y, sy, ay) post ->
     cb + cs <= y /\ y + sy <= mem_brk st /\ 32 <= sy /\ sy mod 16 = 0 /\
     (y - mem_heap st) mod 16 = 0).
  { intros y sy ay Hy. pose proof (contig_in _ _ _ _ _ _ Hc2 Hy). lia. }
  assert (Hreg : region_ok st) by (destruct H; unfold region_ok; lia).
  assert (Hout : forall x, In x fl ->
     mem_heap st + 32 <= x /\ (x - mem_heap st) mod 16 = 0 /\
     x + 32 <= mem_brk st /\
     (x + 32 <= cb \/ cb + cs <= x \/ (onlist = true /\ x = cb))).
  { intros x Hx. destruct (Hblk _ Hx) as (s & Hx' & Hcase).
    pose proof (contig_in _ _ _ _ _ _ Hc Hx').
    destruct Hcase as [Ho|Hpp]; [repeat split; try lia; tauto|].
    apply in_app_or in Hpp as [Hp|Hp]; [apply Hpre in Hp|apply Hpost in Hp]; lia. }
  assert (Hsep : forall y sy ay x, In (y, sy, ay) (pre ++ post) -> In x fl ->
     y - 8 <> x /\ y - 8 <> x + 8 /\ y + sy - 16 <> x /\ y + sy - 16 <> x + 8).
  { intros y sy ay x Hy Hx. destruct (Hblk _ Hx) as (s & Hx' & _).
    refine (tag_link_sep _ _ _ y sy ay x s false Hc _ Hx').
    apply in_app_or in Hy. apply in_or_app. cbn [In]. tauto. }
  split; [exact Hreg|]. repeat apply conj; first [assumption | lia].
Qed.

Lemma Mid_payload st pre cb cs post fl onlist a :
  Mid st pre cb cs post fl onlist -> in_payload (pre ++ post) a ->
  (a < cb - 16 \/ cb + cs <= a) /\
  mem_heap st + 32 <= a < mem_brk st - 16 /\
  (forall y, In y fl -> a < y - 16 \/ y + 32 <= a).
Proof.
  intros HM Ha.
  destruct (Mid_facts _ _ _ _ _ _ _ HM)
    as (Hr & Hb & Hc1 & Hc2 & Hpre & Hpost & Hout & Hsep).
  destruct (payload_other _ _ _ _ _ _ _ _ (md_contig _ _ _ _ _ _ _ HM) Ha)
    as (P1 & P2 & P3).
  split; [exact P1|]. split; [exact P2|]. intros y Hy.
  apply (md_mem _ _ _ _ _ _ _ HM) in Hy as [(_ & ->)|(sy & Hy)]; [lia|].
  pose proof (P3 _ _ Hy) as Q.
  apply in_app_or in Hy as [Hy|Hy]; [apply Hpre in Hy|apply Hpost in Hy]; lia.
Qed.

Lemma naf_free_between l1 l2 :
  naf (l1 ++ true :: l2) -> last l1 true = true -> hd true l2 = true ->
  naf (l1 ++ false :: l2).
Proof.
  rewrite !naf_app. cbn [naf hd]. intros (H1 & (H2 & H3) & H4) Hl Hh.
  repeat split; trivial. intros E. congruence.
Qed.

Lemma finish_frame st pre cb cs post fl onlist :
  Mid st pre cb cs post fl onlist -> hd true (map flag post) = true ->
  exists m', finish cb onlist st = Some (cb, set_mem st m') /\
    Inv (set_mem st m') (pre ++ (cb, cs, false) :: post)
        (if onlist then fl else cb :: fl) /\
    (forall a, in_payload (pre ++ post) a -> m' a = mem st a).
Proof.
  intros HM Hnext.
  pose proof (fun a => Mid_payload _ _ _ _ _ _ _ a HM) as Hpay.
  destruct (Mid_facts _ _ _ _ _ _ _ HM) as (Hr & Hb & Hc1 & Hc2 & Hpre & Hpost & Hout & Hsep).
  pose proof (md_hdr _ _ _ _ _ _ _ HM) as Hh.
  pose proof (md_tags _ _ _ _ _ _ _ HM) as Ht.
  apply tags_app in Ht as (Htpre & Htpost).
  assert (Hshape : forall fl', NoDup fl' ->
            (forall x, In x fl' <-> x = cb \/ exists s, In (x, s, false) (pre ++ post)) ->
            forall m', Shape (set_mem st m') (pre ++ (cb, cs, false) :: post) fl').
  { intros fl' Hnd Hmem m'. destruct HM. split; norm; trivial.
    - unfold no_adj_free in *. rewrite map_app in *. cbn [map flag snd] in *.
      apply naf_free_between; assumption.
    - intros x. rewrite Hmem. split.
      + intros [->|(s & Hx)]; [exists cs|exists s]; apply in_or_app.
        * right. now left.
        * apply in_app_or in Hx. cbn [In]. tauto.
      + intros (s & Hx). apply in_app_or in Hx. cbn [In] in Hx.
        destruct Hx as [Hx|[Hx|Hx]].
        * right. exists s. apply in_or_app. now left.
        * left. congruence.
        * right. exists s. apply in_or_app. now right. }
  set (m1 := upd (mem st) (cb + cs - 16) (mem st (cb - 8))).
  assert (Hl1 : lseg m1 (m1 (mem_heap st)) fl 0).
  { unfold m1. upd_simpl. eapply lseg_frame; [|apply (md_lseg _ _ _ _ _ _ _ HM)].
    intros x Hx. apply Hout in Hx. now upd_simpl. }
  assert (Hp1 : prevs m1 fl).
  { eapply prevs_frame; [|apply (md_prevs _ _ _ _ _ _ _ HM)]. intros y Hy.
    assert (Hy' : In y fl) by (destruct fl; [contradiction|now right]).
    apply Hout in Hy'. unfold m1. now upd_simpl. }
  assert (Hexec : forall k : M Z,
            (f <- FTRP cb ;; h <- GET (HDRP cb) ;; PUT f h ;; k) st =
            k (set_mem st m1)).
  { intros k. step_FTRP cs false. rewrite HDRP_eq by vsolve. step_GET.
    step_PUT. reflexivity. }
  unfold finish.
  destruct onlist; cbn [negb].
  - exists m1. split.
    { rewrite Hexec. reflexivity. }
    split; [split|]; [| |intros a Ha; destruct (Hpay a Ha) as (P1 & P2 & P3);
                          unfold m1; now upd_simpl].
    + apply Hshape; [apply (md_nodup _ _ _ _ _ _ _ HM)|].
      intros x. rewrite (md_mem _ _ _ _ _ _ _ HM). intuition.
    + destruct HM. norm. unfold m1. split.
      * now upd_simpl.
      * now upd_simpl.
      * apply tags_app. split; [|apply tags_cons; split].
        -- eapply tags_frame; [|exact Htpre]. intros y sy ay Hy.
           apply Hpre in Hy. now upd_simpl.
        -- apply tags_one. now upd_simpl.
        -- eapply tags_frame; [|exact Htpost]. intros y sy ay Hy.
           apply Hpost in Hy. now upd_simpl.
      * now upd_simpl.
      * exact Hl1.
      * exact Hp1.
  - assert (Hnin : ~ In cb fl).
    { intros Hx. apply Hout in Hx. intuition (try lia; discriminate). }
    assert (Hcells : forall x, In x fl -> cell (set_mem st m1) x).
    { intros x Hx. apply Hout in Hx. vsolve. }
    destruct (add_spec (set_mem st m1) cb fl Hr ltac:(vsolve) Hl1 Hp1
                (md_nodup _ _ _ _ _ _ _ HM) Hnin Hcells)
      as (m2 & Hadd & Hl2 & Hp2 & Hf2).
    norm.
    exists m2. split.
    { rewrite Hexec. step_by Hadd. reflexivity. }
    assert (Hf2a : forall a, a <> mem_heap st -> a <> cb -> a <> cb + 8 ->
              (a - mem_heap st) mod 16 = 0 \/ (cb - 16 <= a /\ a <= cb + cs) \/
              a < mem_heap st + 40 \/ mem_brk st - 8 <= a ->
              m2 a = m1 a).
    { intros a H1 H2 H3 H4. apply Hf2; trivial.
      intros y Hy. apply Hout in Hy. intuition (try lia; discriminate). }
    assert (Hf2b : forall y sy ay, In (y, sy, ay) (pre ++ post) ->
              m2 (y - 8) = m1 (y - 8) /\ m2 (y + sy - 16) = m1 (y + sy - 16)).
    { intros y sy ay Hy.
      assert (Hy' : mem_heap st + 32 <= y /\ 32 <= sy /\ sy mod 16 = 0 /\
                    (y - mem_heap st) mod 16 = 0 /\ (y + sy <= cb \/ cb + cs <= y)).
      { apply in_app_or in Hy as [H|H]; [apply Hpre in H|apply Hpost in H]; lia. }
      split; (apply Hf2; [lia|lia|lia|]); intros x Hx;
        apply (Hsep _ _ _ _ Hy Hx). }
    split; [split|]; [| |intros a Ha; destruct (Hpay a Ha) as (P1 & P2 & P3);
                          rewrite Hf2;
                          [unfold m1; now upd_simpl|lia|lia|lia|
                           intros y Hy; apply P3 in Hy; lia]].
    + apply Hshape.
      * apply NoDup_cons; [exact Hnin|apply (md_nodup _ _ _ _ _ _ _ HM)].
      * intros x. cbn [In]. rewrite (md_mem _ _ _ _ _ _ _ HM).
        intuition (try discriminate; auto).
    + destruct HM. norm. split.
      * rewrite Hf2a by lia. unfold m1. now upd_simpl.
      * rewrite Hf2a by lia. unfold m1. now upd_simpl.
      * apply tags_app. split; [|apply tags_cons; split].
        -- intros y sy ay Hy.
           destruct (Hf2b y sy ay) as (E1 & E2); [apply in_or_app; now left|].
           destruct (Htpre _ _ _ Hy) as (T1 & T2). apply Hpre in Hy.
           rewrite E1, E2. unfold m1. upd_simpl. now split.
        -- apply tags_one. rewrite !Hf2a by lia. unfold m1. now upd_simpl.
        -- intros y sy ay Hy.
           destruct (Hf2b y sy ay) as (E1 & E2); [apply in_or_app; now right|].
           destruct (Htpost _ _ _ Hy) as (T1 & T2). apply Hpost in Hy.
           rewrite E1, E2. unfold m1. upd_simpl. now split.
      * rewrite Hf2a by lia. unfold m1. now upd_simpl.
      * exact Hl2.
      * exact Hp2.
Qed.

Lemma finish_spec st pre cb cs post fl onlist :
  Mid st pre cb cs post fl onlist -> hd true (map flag post) = true ->
  exists m', finish cb onlist st = Some (cb, set_mem st m') /\
    Inv (set_mem st m') (pre ++ (cb, cs, false) :: post)
        (if onlist then fl else cb :: fl).
Proof.
  intros HM Hnext.
  destruct (finish_frame _ _ _ _ _ _ _ HM Hnext) as (m' & E & HI & _).
  now exists m'.
Qed.

Lemma set_mem_same st : set_mem st (mem st) = st.
Proof. destruct st; reflexivity. Qed.

Lemma merge_next_frame st pre cb cs post fl onlist :
  Mid st pre cb cs post fl onlist ->
  exists m' cs' post' fl',
    merge_next cb st = Some (tt, set_mem st m') /\
    Mid (set_mem st m') pre cb cs' post' fl' onlist /\
    hd true (map flag post') = true /\ cs <= cs' /\
    (forall x sx, In (x, sx, true) post' <-> In (x, sx, true) post) /\
    (forall a, in_payload (pre ++ post) a -> m' a = mem st a) /\
    ((hd true (map flag post) = true /\ cs' = cs /\ post' = post /\
      fl' = fl) \/
     (exists ns, post = (cb + cs, ns, false) :: post' /\ cs' = cs + ns /\
        forall x, In x fl' <-> In x fl /\ x <> cb + cs)).
Proof.
  intros HM.
  pose proof (fun a => Mid_payload _ _ _ _ _ _ _ a HM) as Hpay.
  destruct (Mid_facts _ _ _ _ _ _ _ HM) as (Hr & Hb & Hc1 & Hc2 & Hpre & Hpost & Hout & Hsep).
  pose proof (md_hdr _ _ _ _ _ _ _ HM) as Hh.
  pose proof (md_tags _ _ _ _ _ _ _ HM) as Ht.
  apply tags_app in Ht as (Htpre & Htpost).
  unfold merge_next.
  destruct post as [|[[nb ns] na] post'].
  - (* the epilogue follows *)
    cbn [contig] in Hc2.
    exists (mem st), cs, [], fl. split.
    { step_NEXT_BLKP cs false. rewrite HDRP_eq by vsolve.
      assert (He : mem st (cb + cs - 8) = tag 0 true).
      { rewrite Hc2. replace (mem_brk st - 8) with (mem_brk st - 8) by lia.
        replace (cb + cs - 8) with (mem_brk st - 8) by lia.
        apply (md_epi _ _ _ _ _ _ _ HM). }
      step_GET_ALLOC 0 true. cbn [Z.b2z Z.eqb]. unfold ret.
      now rewrite set_mem_same. }
    rewrite set_mem_same. split; [exact HM|].
    split; [reflexivity|split; [lia|split; [tauto|split]]];
      [intros; reflexivity|left; repeat split].
  - cbn [contig] in Hc2. destruct Hc2 as (-> & Hns & Hns16 & Hc2).
    assert (Hinb : In (cb + cs, ns, na) ((cb + cs, ns, na) :: post')) by now left.
    destruct (Htpost _ _ _ Hinb) as (Hnh & Hnf).
    pose proof (Hpost _ _ _ Hinb) as Hnb.
    replace (cb + cs - 8) with (cb + cs - 8) in Hnh by lia.
    destruct na.
    + (* the next block is allocated *)
      exists (mem st), cs, ((cb + cs, ns, true) :: post'), fl. split.
      { step_NEXT_BLKP cs false. rewrite HDRP_eq by vsolve.
        step_GET_ALLOC ns true. cbn [Z.b2z Z.eqb]. unfold ret.
        now rewrite set_mem_same. }
      rewrite set_mem_same. split; [exact HM|].
      split; [reflexivity|split; [lia|split; [tauto|split]]];
        [intros; reflexivity|left; repeat split].
    + (* the next block is free: absorb it *)
      assert (Hnbfl : In (cb + cs) fl).
      { apply (md_mem _ _ _ _ _ _ _ HM). right. exists ns.
        apply in_or_app. right. now left. }
      apply in_split in Hnbfl as (l1 & l2 & ->).
      destruct (remove_spec st (cb + cs) l1 l2 Hr (md_lseg _ _ _ _ _ _ _ HM)
                  (md_prevs _ _ _ _ _ _ _ HM) (md_nodup _ _ _ _ _ _ _ HM))
        as (m1 & Hrm & Hl1 & Hp1 & Hf1).
      { intros x Hx. apply Hout in Hx. vsolve. }
      assert (Hpost' : forall y sy ay, In (y, sy, ay) post' ->
         cb + cs + ns <= y /\ y + sy <= mem_brk st /\ 32 <= sy /\ sy mod 16 = 0 /\
         (y - mem_heap st) mod 16 = 0).
      { intros y sy ay Hy. pose proof (contig_in _ _ _ _ _ _ Hc2 Hy). lia. }
      assert (Hf1a : forall a, a <> mem_heap st ->
                a = cb - 8 \/ a < mem_heap st + 32 \/ mem_brk st - 8 <= a ->
                m1 a = mem st a).
      { intros a H1 H2. apply Hf1; trivial.
        intros y Hy. apply Hout in Hy. intuition lia. }
      assert (Hf1b : forall y sy ay, In (y, sy, ay) (pre ++ (cb + cs, ns, false) :: post') ->
                m1 (y - 8) = mem st (y - 8) /\
                m1 (y + sy - 16) = mem st (y + sy - 16)).
      { intros y sy ay Hy.
        assert (Hy' : mem_heap st + 32 <= y /\ 32 <= sy).
        { apply in_app_or in Hy as [H|H]; [apply Hpre in H|apply Hpost in H]; lia. }
        split; (apply Hf1; [lia|]); intros x Hx;
          pose proof (Hsep _ _ _ _ Hy Hx); tauto. }
      set (m2 := upd m1 (cb - 8) (cs + ns)).
      exists m2, (cs + ns), post', (l1 ++ l2). split.
      { step_NEXT_BLKP cs false. rewrite HDRP_eq by vsolve.
        step_GET_ALLOC ns false. cbn [Z.b2z Z.eqb].
        step_NEXT_BLKP cs false. step_by Hrm.
        assert (Hh1 : m1 (cb - 8) = tag cs false) by (rewrite Hf1a by lia; exact Hh).
        assert (Hnh1 : m1 (cb + cs - 8) = tag ns false).
        { destruct (Hf1b (cb + cs) ns false) as (E & _).
          { apply in_or_app. right. now left. }
          rewrite E. exact Hnh. }
        step_NEXT_BLKP cs false. rewrite !HDRP_eq by vsolve.
        step_GET_SIZE ns false. step_GET_SIZE cs false.
        rewrite wrap_small by vsolve. replace (ns + cs) with (cs + ns) by lia.
        step_PUT. reflexivity. }
      assert (Hnd : NoDup (l1 ++ l2))
        by (eapply NoDup_remove_1; apply (md_nodup _ _ _ _ _ _ _ HM)).
      assert (Hnin : ~ In (cb + cs) (l1 ++ l2))
        by (apply NoDup_remove_2; apply (md_nodup _ _ _ _ _ _ _ HM)).
      assert (Hsub : forall x, In x (l1 ++ l2) -> In x (l1 ++ (cb + cs) :: l2)).
      { intros x Hx. apply in_app_or in Hx. apply in_or_app. cbn [In]. tauto. }
      split; [|split; [|split; [|split; [|split]]]].
      * destruct HM as [M1 M2 M3 M4 M5 M6 M7 M8 M9 M10 M11 M12 M13 M14 M15 M16].
        split; norm; trivial.
        -- apply contig_app. exists cb. split; [exact Hc1|].
           cbn [contig]. repeat split; try lia.
           replace (cb + (cs + ns)) with (cb + cs + ns) by lia. exact Hc2.
        -- unfold no_adj_free in *. rewrite map_app in *. cbn [map flag snd] in *.
           apply naf_app in M6 as (N1 & N2 & N3). apply naf_app.
           cbn [naf hd] in *. repeat split; tauto.
        -- intros x. split.
           ++ intros Hx. pose proof (Hsub _ Hx) as Hx'.
              apply M9 in Hx' as [Ho|(s & Hx')]; [now left|right].
              exists s. apply in_app_or in Hx'. apply in_or_app.
              destruct Hx' as [H|[H|H]]; [now left| |now right].
              injection H as <- <-. contradiction.
           ++ intros Hx.
              assert (Hx' : In x (l1 ++ (cb + cs) :: l2)).
              { apply M9. destruct Hx as [Ho|(s & Hx)]; [now left|right].
                exists s. apply in_app_or in Hx. apply in_or_app. cbn [In]. tauto. }
              assert (x <> cb + cs).
              { destruct Hx as [(_ & ->)|(s & Hx)]; [lia|].
                apply in_app_or in Hx as [H|H];
                  [apply Hpre in H|apply Hpost' in H]; lia. }
              apply in_app_or in Hx'. apply in_or_app. cbn [In] in Hx'.
              intuition congruence.
        -- unfold m2. rewrite upd_other by lia. rewrite Hf1a by lia. exact M10.
        -- unfold m2. rewrite upd_other by lia. rewrite Hf1a by lia. exact M11.
        -- unfold m2. rewrite upd_other by lia. rewrite Hf1a by lia. exact M12.
        -- apply tags_app. split.
           ++ intros y sy ay Hy.
              destruct (Hf1b y sy ay) as (E1 & E2); [apply in_or_app; now left|].
              destruct (Htpre _ _ _ Hy) as (T1 & T2). apply Hpre in Hy.
              unfold m2. rewrite !upd_other by lia. rewrite E1, E2. now split.
           ++ intros y sy ay Hy.
              destruct (Hf1b y sy ay) as (E1 & E2).
              { apply in_or_app. right. now right. }
              destruct (Htpost y sy ay) as (T1 & T2); [now right|].
              apply Hpost' in Hy.
              unfold m2. rewrite !upd_other by lia. rewrite E1, E2. now split.
        -- unfold m2. now upd_simpl.
        -- unfold m2. rewrite upd_other by lia.
           eapply lseg_frame; [|exact Hl1]. intros x Hx.
           apply Hsub, Hout in Hx. rewrite upd_other by lia. reflexivity.
        -- eapply prevs_frame; [|exact Hp1]. intros y Hy.
           assert (Hy' : In y (l1 ++ l2)) by (destruct (l1 ++ l2); [contradiction|now right]).
           apply Hsub, Hout in Hy'. unfold m2.
           rewrite upd_other by (intuition lia). reflexivity.
      * pose proof (md_naf _ _ _ _ _ _ _ HM) as N.
        unfold no_adj_free in N. rewrite map_app in N. cbn [map flag snd] in N.
        apply naf_app in N as (_ & N & _). cbn [naf hd] in N.
        destruct N as (_ & N & _). now apply N.
      * lia.
      * intros x sx. cbn [In]. split; [tauto|].
        intros [Hx|Hx]; [discriminate|exact Hx].
      * intros a Ha. destruct (Hpay a Ha) as (P1 & P2 & P3).
        unfold m2. rewrite upd_other by lia. apply Hf1; [lia|].
        intros x Hx. apply P3 in Hx. lia.
      * right. exists ns. split; [reflexivity|]. split; [reflexivity|].
        intros x. split.
        -- intros Hx. split; [now apply Hsub|]. intros ->. contradiction.
        -- intros (Hx & Hne). apply in_app_or in Hx. apply in_or_app.
           cbn [In] in Hx. intuition congruence.
Qed.

Lemma merge_next_spec st pre cb cs post fl onlist :
  Mid st pre cb cs post fl onlist ->
  exists m' cs' post' fl',
    merge_next cb st = Some (tt, set_mem st m') /\
    Mid (set_mem st m') pre cb cs' post' fl' onlist /\
    hd true (map flag post') = true /\ cs <= cs' /\
    (forall x sx, In (x, sx, true) post' <-> In (x, sx, true) post).
Proof.
  intros HM.
  destruct (merge_next_frame _ _ _ _ _ _ _ HM)
    as (m' & cs' & post' & fl' & E & HM' & Hhd & Hle & Hal & _).
  exists m', cs', post', fl'. tauto.
Qed.

Lemma Mid_start st pre b s post fl :
  Shape st (pre ++ (b, s, true) :: post) fl ->
  Stored (mem st) (mem_heap st) (mem_brk st) (pre ++ (b, s, false) :: post) fl ->
  last (map flag pre) true = true ->
  Mid st pre b s post fl false.
Proof.
  intros [H1 H2 H3 H4 H5 H6 H7 H8] [S1 S2 S3 S4 S5 S6] Hlast.
  pose proof S3 as S3'. apply tags_app in S3' as (Tpre & Tpost).
  apply tags_cons in Tpost as (Tb & Tpost). apply tags_one in Tb.
  split; trivial.
  - eapply contig_flag. exact H5.
  - intros x. rewrite H8. split.
    + intros (s' & Hx). right. exists s'. apply in_app_or in Hx. apply in_or_app.
      destruct Hx as [Hx|[Hx|Hx]]; [now left|discriminate|now right].
    + intros [(E & _)|(s' & Hx)]; [discriminate|].
      exists s'. apply in_app_or in Hx. apply in_or_app. cbn [In]. tauto.
  - apply tags_app. now split.
  - tauto.
Qed.

Lemma merge_prev_frame st pre b s post fl :
  Shape st (pre ++ (b, s, true) :: post) fl ->
  Stored (mem st) (mem_heap st) (mem_brk st) (pre ++ (b, s, false) :: post) fl ->
  exists m' cb cs pre' onlist,
    merge_prev b st = Some ((cb, onlist), set_mem st m') /\
    Mid (set_mem st m') pre' cb cs post fl onlist /\
    cb <= b /\ cb + cs = b + s /\
    (forall x sx, In (x, sx, true) pre' <-> In (x, sx, true) pre) /\
    (last (map flag pre) true = true -> cb = b /\ onlist = false) /\
    (forall a, in_payload (pre ++ post) a -> m' a = mem st a) /\
    ((last (map flag pre) true = true /\ pre' = pre /\ cs = s) \/
     (exists ps, pre = pre' ++ [(cb, ps, false)] /\ cs = ps + s /\
        onlist = true)).
Proof.
  intros Hsh Hst.
  pose proof (Shape_region _ _ _ Hsh) as Hr.
  assert (Hin : In (b, s, true) (pre ++ (b, s, true) :: post))
    by (apply in_or_app; right; now left).
  pose proof (Shape_block _ _ _ _ _ _ Hsh Hin) as Hb.
  pose proof (sh_contig _ _ _ Hsh) as Hc.
  apply contig_app in Hc as (r & Hc1 & Hc2). cbn [contig] in Hc2.
  destruct Hc2 as (<- & _ & _ & Hc2).
  pose proof (st_tags _ _ _ _ _ Hst) as Ht.
  apply tags_app in Ht as (Htpre & Htpost).
  apply tags_cons in Htpost as (Htb & Htpost). apply tags_one in Htb.
  destruct Htb as (Hbh & Hbf).
  unfold merge_prev.
  destruct (exists_last_or_nil pre) as [->|(pre0 & [[pb ps] pa] & ->)].
  - (* the prologue precedes *)
    cbn [contig] in Hc1.
    exists (mem st), b, s, [], false. split.
    { assert (Hpf : mem st (b - 16) = tag 16 true).
      { replace (b - 16) with (mem_heap st + 16) by lia. apply (st_pro_f _ _ _ _ _ Hst). }
      assert (Hph : mem st (b - 16 - 8) = tag 16 true).
      { replace (b - 16 - 8) with (mem_heap st + 8) by lia. apply (st_pro_h _ _ _ _ _ Hst). }
      step_PREV_BLKP 16 true. rewrite HDRP_eq by vsolve.
      step_GET_ALLOC 16 true. cbn [Z.b2z Z.eqb]. unfold ret.
      now rewrite set_mem_same. }
    rewrite set_mem_same. split; [now apply Mid_start|].
    split; [lia|split; [lia|split; [tauto|split; [intros _; now split|split]]]];
      [intros; reflexivity|left; repeat split].
  - apply contig_app in Hc1 as (r & Hc0 & Hc1). cbn [contig] in Hc1.
    destruct Hc1 as (<- & Hps & Hps16 & Hpb).
    assert (Hinp : In (pb, ps, pa) (pre0 ++ [(pb, ps, pa)]))
      by (apply in_or_app; right; now left).
    destruct (Htpre _ _ _ Hinp) as (Hph & Hpf).
    assert (Hpb0 : mem_heap st + 32 <= pb) by (apply contig_le in Hc0; lia).
    replace (pb + ps - 16) with (b - 16) in Hpf by lia.
    destruct pa.
    + (* the previous block is allocated *)
      exists (mem st), b, s, (pre0 ++ [(pb, ps, true)]), false. split.
      { step_PREV_BLKP ps true. rewrite HDRP_eq by vsolve.
        replace (b - ps - 8) with (pb - 8) by lia.
        step_GET_ALLOC ps true. cbn [Z.b2z Z.eqb]. unfold ret.
        now rewrite set_mem_same. }
      assert (Hlast : last (map flag (pre0 ++ [(pb, ps, true)])) true = true).
      { rewrite map_app. cbn [map flag snd]. apply last_last. }
      rewrite set_mem_same. split; [now apply Mid_start|].
      split; [lia|split; [lia|split; [tauto|split; [intros _; now split|split]]]];
        [intros; reflexivity|left; repeat split; exact Hlast].
    + (* the previous block is free: extend it over [b] *)
      set (m1 := upd (mem st) (pb - 8) (ps + s)).
      exists m1, pb, (ps + s), pre0, true. split.
      { step_PREV_BLKP ps false. rewrite HDRP_eq by vsolve.
        replace (b - ps) with pb by lia.
        step_GET_ALLOC ps false. cbn [Z.b2z Z.eqb].
        step_PREV_BLKP ps false. replace (b - ps) with pb by lia.
        rewrite !HDRP_eq by vsolve.
        step_GET_SIZE ps false. step_GET_SIZE s false.
        step_PREV_BLKP ps false. replace (b - ps) with pb by lia.
        rewrite HDRP_eq, wrap_small by vsolve. step_PUT. fold m1.
        assert (Hpf1 : m1 (b - 16) = tag ps false).
        { unfold m1. rewrite upd_other by lia. exact Hpf. }
        step_PREV_BLKP ps false. replace (b - ps) with pb by lia.
        reflexivity. }
      assert (Hpre0 : forall y sy ay, In (y, sy, ay) pre0 ->
         mem_heap st + 32 <= y /\ y + sy <= pb /\ 32 <= sy /\ sy mod 16 = 0).
      { intros y sy ay Hy. pose proof (contig_in _ _ _ _ _ _ Hc0 Hy). lia. }
      assert (Hpost : forall y sy ay, In (y, sy, ay) post ->
         b + s <= y /\ y + sy <= mem_brk st /\ 32 <= sy /\ sy mod 16 = 0).
      { intros y sy ay Hy. pose proof (contig_in _ _ _ _ _ _ Hc2 Hy). lia. }
      assert (Hout : forall x, In x fl ->
         (x - mem_heap st) mod 16 = 0 /\ (x + 32 <= pb \/ pb <= x)).
      { intros x Hx. apply (sh_mem _ _ _ Hsh) in Hx as (sx & Hx).
        pose proof (Shape_block _ _ _ _ _ _ Hsh Hx).
        rewrite <- app_assoc in Hx. cbn [app] in Hx.
        apply in_app_or in Hx as [Hx|[Hx|[Hx|Hx]]].
        - apply Hpre0 in Hx. lia.
        - injection Hx as <- <-. lia.
        - discriminate.
        - apply Hpost in Hx. lia. }
      split; [|split; [lia|split; [lia|split; [|split; [|split]]]]].
      * destruct Hsh as [H1 H2 H3 H4 H5 H6 H7 H8].
        destruct Hst as [S1 S2 S3 S4 S5 S6].
        split; norm; trivial.
        -- apply contig_app. exists pb. split; [exact Hc0|].
           cbn [contig]. repeat split; try lia.
           replace (pb + (ps + s)) with (b + s) by lia. exact Hc2.
        -- unfold no_adj_free in *. rewrite !map_app in *.
           cbn [map flag snd] in *.
           apply naf_app in H6 as (N1 & N2 & N3).
           apply naf_app in N1 as (N4 & N5 & N6).
           apply naf_app. refine (conj N4 (conj N2 _)). reflexivity.
        -- unfold no_adj_free in H6. rewrite !map_app in H6.
           cbn [map flag snd] in H6.
           apply naf_app in H6 as (N1 & N2 & N3).
           apply naf_app in N1 as (N4 & N5 & N6). cbn [hd] in N6.
           assert (E : last (map flag pre0) true <> false)
             by (intros E; apply N6 in E; discriminate).
           destruct (last (map flag pre0) true); congruence.
        -- intros x. rewrite H8. split.
           ++ intros (s' & Hx). rewrite <- app_assoc in Hx. cbn [app] in Hx.
              apply in_app_or in Hx as [Hx|[Hx|[Hx|Hx]]].
              ** right. exists s'. apply in_or_app. now left.
              ** left. injection Hx as <- <-. now split.
              ** discriminate.
              ** right. exists s'. apply in_or_app. now right.
           ++ rewrite <- app_assoc. cbn [app].
              intros [(_ & ->)|(s' & Hx)]; [exists ps|exists s'];
                apply in_or_app; cbn [In]; [tauto|].
              apply in_app_or in Hx. tauto.
        -- unfold m1. now upd_simpl.
        -- unfold m1. now upd_simpl.
        -- unfold m1. now upd_simpl.
        -- apply tags_app. apply tags_app in Htpre as (Htpre0 & _). split.
           ++ eapply tags_frame; [|exact Htpre0]. intros y sy ay Hy.
              apply Hpre0 in Hy. unfold m1. now upd_simpl.
           ++ eapply tags_frame; [|exact Htpost]. intros y sy ay Hy.
              apply Hpost in Hy. unfold m1. now upd_simpl.
        -- unfold m1, tag. now upd_simpl.
        -- unfold m1. rewrite upd_other by lia.
           eapply lseg_frame; [|exact S5]. intros x Hx.
           apply Hout in Hx. now upd_simpl.
        -- eapply prevs_frame; [|exact S6]. intros y Hy.
           assert (Hy' : In y fl) by (destruct fl; [contradiction|now right]).
           apply Hout in Hy'. unfold m1. now upd_simpl.
      * intros x sx. rewrite in_app_iff. cbn [In]. split; [tauto|].
        intros [Hx|[Hx|[]]]; [exact Hx|discriminate].
      * rewrite map_app. cbn [map flag snd]. rewrite last_last. discriminate.
      * intros a (x & sx & Hx & Ha). unfold m1.
        rewrite <- app_assoc in Hx. cbn [app] in Hx.
        apply in_app_or in Hx as [Hx|[Hx|Hx]].
        -- apply Hpre0 in Hx. rewrite upd_other by lia. reflexivity.
        -- discriminate.
        -- apply Hpost in Hx. rewrite upd_other by lia. reflexivity.
      * right. exists ps. repeat split.
Qed.

Lemma merge_prev_spec st pre b s post fl :
  Shape st (pre ++ (b, s, true) :: post) fl ->
  Stored (mem st) (mem_heap st) (mem_brk st) (pre ++ (b, s, false) :: post) fl ->
  exists m' cb cs pre' onlist,
    merge_prev b st = Some ((cb, onlist), set_mem st m') /\
    Mid (set_mem st m') pre' cb cs post fl onlist /\
    cb <= b /\ cb + cs = b + s /\
    (forall x sx, In (x, sx, true) pre' <-> In (x, sx, true) pre) /\
    (last (map flag pre) true = true -> cb = b /\ onlist = false).
Proof.
  intros Hsh Hst.
  destruct (merge_prev_frame _ _ _ _ _ _ Hsh Hst)
    as (m' & cb & cs & pre' & onlist & E & HM & H1 & H2 & H3 & H4 & _).
  exists m', cb, cs, pre', onlist. tauto.
Qed.

(** [coalesce] on a block that has just been marked free and is not yet on
    the list restores the invariant. *)
Lemma in_payload_iff l l' a :
  (forall x s, In (x, s, true) l <-> In (x, s, true) l') ->
  in_payload l a -> in_payload l' a.
Proof.
  intros H (x & s & Hx & Ha). exists x, s. split; [now apply H|exact Ha].
Qed.

(** The same, with the block list of the new state spelled out: the
    block before [b] and the block after it are absorbed when they are free,
    and the payloads of the allocated blocks are left as they were. *)
Lemma coalesce_frame st pre b s post fl :
  Shape st (pre ++ (b, s, true) :: post) fl ->
  Stored (mem st) (mem_heap st) (mem_brk st) (pre ++ (b, s, false) :: post) fl ->
  exists m' cb cs pre' post' fl',
    coalesce b st = Some (cb, set_mem st m') /\
    Inv (set_mem st m') (pre' ++ (cb, cs, false) :: post') fl' /\
    cb <= b /\
    (forall x sx, In (x, sx, true) (pre' ++ post') <->
                  In (x, sx, true) (pre ++ post)) /\
    (last (map flag pre) true = true -> hd 0 fl' = cb) /\
    (forall a, in_payload (pre ++ post) a -> m' a = mem st a) /\
    ((last (map flag pre) true = true /\ pre' = pre /\ cb = b) \/
     (exists ps, pre = pre' ++ [(cb, ps, false)] /\ cb = b - ps)) /\
    ((hd true (map flag post) = true /\ post' = post /\ cb + cs = b + s) \/
     (exists ns, post = (b + s, ns, false) :: post' /\
        cb + cs = b + s + ns)).
Proof.
  intros Hsh Hst.
  destruct (merge_prev_frame _ _ _ _ _ _ Hsh Hst)
    as (m1 & cb & cs1 & pre' & onlist & E1 & M1 & Hle & Hsum & Hal1 & Hlast
        & Hfr1 & Hd1).
  destruct (merge_next_frame _ _ _ _ _ _ _ M1)
    as (m2 & cs2 & post' & fl2 & E2 & M2 & Hhd & Hcs & Hal2 & Hfr2 & Hd2).
  destruct (finish_frame _ _ _ _ _ _ _ M2 Hhd) as (m3 & E3 & HI & Hfr3).
  norm.
  exists m3, cb, cs2, pre', post', (if onlist then fl2 else cb :: fl2).
  split; [|split; [|split; [|split; [|split; [|split; [|split]]]]]].
  - rewrite coalesce_eq. step_by E1. step_by E2. exact E3.
  - exact HI.
  - lia.
  - intros x sx. rewrite !in_app_iff. rewrite Hal1, Hal2. tauto.
  - intros Hl. destruct (Hlast Hl) as (_ & ->). reflexivity.
  - intros a Ha. rewrite Hfr3, Hfr2, Hfr1; trivial.
    + eapply in_payload_iff; [|exact Ha]. intros x sx.
      rewrite !in_app_iff, Hal1. tauto.
    + eapply in_payload_iff; [|exact Ha]. intros x sx.
      rewrite !in_app_iff, Hal1, Hal2. tauto.
  - destruct Hd1 as [(Hl & -> & ->)|(ps & -> & -> & ->)].
    + left. destruct (Hlast Hl) as (-> & _). now repeat split.
    + right. exists ps. split; [reflexivity|lia].
  - destruct Hd2 as [(Hh & -> & -> & _)|(ns & Hp & -> & _)].
    + left. repeat split; trivial.
    + right. exists ns. rewrite <- Hsum. split; [exact Hp|lia].
Qed.

Lemma coalesce_spec st pre b s post fl :
  Shape st (pre ++ (b, s, true) :: post) fl ->
  Stored (mem st) (mem_heap st) (mem_brk st) (pre ++ (b, s, false) :: post) fl ->
  exists m' cb cs bs' fl',
    coalesce b st = Some (cb, set_mem st m') /\
    Inv (set_mem st m') bs' fl' /\
    In (cb, cs, false) bs' /\ s <= cs /\ cb <= b /\
    (forall x sx, In (x, sx, true) bs' <-> In (x, sx, true) (pre ++ post)) /\
    (last (map flag pre) true = true -> cb = b /\ hd 0 fl' = b).
Proof.
  intros Hsh Hst.
  destruct (coalesce_frame _ _ _ _ _ _ Hsh Hst)
    as (m' & cb & cs & pre' & post' & fl' & E & HI & Hle & Hal & Hhd & _
        & Hd1 & Hd2).
  exists m', cb, cs, (pre' ++ (cb, cs, false) :: post'), fl'.
  split; [exact E|]. split; [exact HI|].
  split; [apply in_or_app; right; now left|].
  split; [destruct Hd2 as [(_ & _ & H)|(ns & Hp & H)]; [lia|]|].
  { assert (Hin : In (b + s, ns, false) (pre ++ (b, s, true) :: post)).
    { rewrite Hp. apply in_or_app. right. right. now left. }
    pose proof (Shape_block _ _ _ _ _ _ Hsh Hin). lia. }
  split; [exact Hle|]. split.
  - intros x sx. rewrite <- Hal, !in_app_iff. cbn [In].
    split; [|tauto]. intros [H|[H|H]]; [tauto|discriminate|tauto].
  - intros Hl. destruct Hd1 as [(_ & _ & ->)|(ps & -> & _)].
    + split; [reflexivity|now apply Hhd].
    + rewrite map_app in Hl. cbn [map flag snd] in Hl.
      rewrite last_last in Hl. discriminate.
Qed.

(** ** Deallocation *)

(** [mm_free] on an allocated block: the block list of the new state, and
    the payloads of the other allocated blocks left as they were. *)
Lemma mm_free_frame st pre b s post fl :
  Inv st (pre ++ (b, s, true) :: post) fl ->
  exists m' cb cs pre' post' fl',
    mm_free b st = Some (tt, set_mem st m') /\
    Inv (set_mem st m') (pre' ++ (cb, cs, false) :: post') fl' /\
    cb <= b /\
    (forall x sx, In (x, sx, true) (pre' ++ post') <->
                  In (x, sx, true) (pre ++ post)) /\
    (last (map flag pre) true = true -> hd 0 fl' = cb) /\
    (forall a, in_payload (pre ++ post) a -> m' a = mem st a) /\
    ((last (map flag pre) true = true /\ pre' = pre /\ cb = b) \/
     (exists ps, pre = pre' ++ [(cb, ps, false)] /\ cb = b - ps)) /\
    ((hd true (map flag post) = true /\ post' = post /\ cb + cs = b + s) \/
     (exists ns, post = (b + s, ns, false) :: post' /\
        cb + cs = b + s + ns)).
Proof.
  intros (Hsh & Hst).
  pose proof (Shape_region _ _ _ Hsh) as Hr.
  assert (Hin : In (b, s, true) (pre ++ (b, s, true) :: post))
    by (apply in_or_app; right; now left).
  pose proof (Shape_block _ _ _ _ _ _ Hsh Hin) as Hb.
  pose proof (sh_contig _ _ _ Hsh) as Hc.
  apply contig_app in Hc as (r & Hc1 & Hc2). cbn [contig] in Hc2.
  destruct Hc2 as (<- & _ & _ & Hc2).
  destruct (st_tags _ _ _ _ _ Hst _ _ _ Hin) as (Hbh & Hbf).
  assert (Hpre : forall y sy ay, In (y, sy, ay) pre ->
     mem_heap st + 32 <= y /\ y + sy <= b /\ 32 <= sy /\ sy mod 16 = 0).
  { intros y sy ay Hy. pose proof (contig_in _ _ _ _ _ _ Hc1 Hy). lia. }
  assert (Hpost : forall y sy ay, In (y, sy, ay) post ->
     b + s <= y /\ y + sy <= mem_brk st /\ 32 <= sy /\ sy mod 16 = 0).
  { intros y sy ay Hy. pose proof (contig_in _ _ _ _ _ _ Hc2 Hy). lia. }
  assert (Hout : forall x, In x fl ->
     (x - mem_heap st) mod 16 = 0 /\ (x + 32 <= b \/ b + s <= x)).
  { intros x Hx. apply (sh_mem _ _ _ Hsh) in Hx as (sx & Hx).
    pose proof (Shape_block _ _ _ _ _ _ Hsh Hx).
    apply in_app_or in Hx as [Hx|[Hx|Hx]].
    - apply Hpre in Hx. lia.
    - discriminate.
    - apply Hpost in Hx. lia. }
  set (m2 := upd (upd (mem st) (b + s - 16) (tag s false)) (b - 8) (tag s false)).
  assert (Hsh2 : Shape (set_mem st m2) (pre ++ (b, s, true) :: post) fl).
  { destruct Hsh. split; norm; trivial. }
  assert (Hst2 : Stored m2 (mem_heap st) (mem_brk st)
                   (pre ++ (b, s, false) :: post) fl).
  { destruct Hst as [S1 S2 S3 S4 S5 S6].
    apply tags_app in S3 as (Tpre & Tpost).
    apply tags_cons in Tpost as (_ & Tpost).
    unfold m2. split.
    - now upd_simpl.
    - now upd_simpl.
    - apply tags_app. split; [|apply tags_cons; split].
      + eapply tags_frame; [|exact Tpre]. intros y sy ay Hy.
        apply Hpre in Hy. now upd_simpl.
      + apply tags_one. now upd_simpl.
      + eapply tags_frame; [|exact Tpost]. intros y sy ay Hy.
        apply Hpost in Hy. now upd_simpl.
    - now upd_simpl.
    - upd_simpl. eapply lseg_frame; [|exact S5]. intros x Hx.
      apply Hout in Hx. now upd_simpl.
    - eapply prevs_frame; [|exact S6]. intros y Hy.
      assert (Hy' : In y fl) by (destruct fl; [contradiction|now right]).
      apply Hout in Hy'. now upd_simpl. }
  destruct (coalesce_frame (set_mem st m2) pre b s post fl Hsh2 Hst2)
    as (m3 & cb & cs & pre' & post' & fl' & E & HI & Hle & Hal & Hhd & Hfr
        & Hd1 & Hd2).
  norm. exists m3, cb, cs, pre', post', fl'.
  split; [|split; [exact HI|split; [exact Hle|split; [exact Hal|
           split; [exact Hhd|split; [|split; [exact Hd1|exact Hd2]]]]]]].
  - unfold mm_free. step_FTRP s true. rewrite HDRP_eq by vsolve.
    step_GET_SIZE s true. rewrite PACK_0 by lia. step_PUT.
    step_GET_SIZE s true. rewrite PACK_0 by lia. step_PUT.
    fold m2. step_by E. reflexivity.
  - intros a Ha. rewrite (Hfr a Ha).
    destruct (payload_other _ _ _ _ _ _ _ _ (sh_contig _ _ _ Hsh) Ha)
      as (P1 & _). unfold m2. now upd_simpl.
Qed.

Lemma mm_free_spec st pre b s post fl :
  Inv st (pre ++ (b, s, true) :: post) fl ->
  exists m' cb cs bs' fl',
    mm_free b st = Some (tt, set_mem st m') /\
    Inv (set_mem st m') bs' fl' /\
    In (cb, cs, false) bs' /\ s <= cs /\ cb <= b /\
    (forall x sx, In (x, sx, true) bs' <-> In (x, sx, true) (pre ++ post)) /\
    (last (map flag pre) true = true -> cb = b /\ hd 0 fl' = b).
Proof.
  intros HI. pose proof HI as (Hsh & _).
  destruct (mm_free_frame _ _ _ _ _ _ HI)
    as (m' & cb & cs & pre' & post' & fl' & E & HI' & Hle & Hal & Hhd & _
        & Hd1 & Hd2).
  exists m', cb, cs, (pre' ++ (cb, cs, false) :: post'), fl'.
  split; [exact E|]. split; [exact HI'|].
  split; [apply in_or_app; right; now left|].
  split; [destruct Hd2 as [(_ & _ & H)|(ns & Hp & H)]; [lia|]|].
  { assert (Hin : In (b + s, ns, false) (pre ++ (b, s, true) :: post)).
    { rewrite Hp. apply in_or_app. right. right. now left. }
    pose proof (Shape_block _ _ _ _ _ _ Hsh Hin). lia. }
  split; [exact Hle|]. split.
  - intros x sx. rewrite <- Hal, !in_app_iff. cbn [In].
    split; [|tauto]. intros [H|[H|H]]; [tauto|discriminate|tauto].
  - intros Hl. destruct Hd1 as [(_ & _ & ->)|(ps & -> & _)].
    + split; [reflexivity|now apply Hhd].
    + rewrite map_app in Hl. cbn [map flag snd] in Hl.
      rewrite last_last in Hl. discriminate.
Qed.

(** ** Growing the heap *)

Lemma mem_sbrk_ok st incr :
  mem_brk st + incr <= mem_max_addr st ->
  mem_sbrk incr st = Some (mem_brk st, grown st incr).
Proof.
  intros H. unfold mem_sbrk. apply Z.leb_le in H. now rewrite H.
Qed.

Lemma mem_sbrk_fail st incr :
  mem_max_addr st < mem_brk st + incr ->
  mem_sbrk incr st = Some (wrap (-1), grown st 0).
Proof.
  intros H. unfold mem_sbrk. apply Z.leb_gt in H. rewrite H.
  unfold grown. now rewrite Z.add_0_r.
Qed.

Lemma naf_snoc_alloc l : naf l -> naf (l ++ [true]).
Proof.
  intros H. apply naf_app. cbn [naf hd]. repeat split; trivial; discriminate.
Qed.

(** [extend_heap] when the region can grow: the new bytes form a free
    block, merged with the last block when that one is free; the payloads of
    the allocated blocks are left as they were. *)
Lemma extend_heap_frame st bs fl words :
  Inv st bs fl -> 4 <= words -> words mod 2 = 0 ->
  mem_brk st + words * 8 <= mem_max_addr st ->
  exists m' cb cs pre' fl',
    extend_heap words st = Some (cb, set_mem (grown st (words * 8)) m') /\
    Inv (set_mem (grown st (words * 8)) m') (pre' ++ [(cb, cs, false)]) fl' /\
    cb + cs = mem_brk st + words * 8 /\
    (forall x sx, In (x, sx, true) pre' <-> In (x, sx, true) bs) /\
    (forall a, in_payload bs a -> m' a = mem st a) /\
    ((last (map flag bs) true = true /\ pre' = bs /\ cb = mem_brk st) \/
     (exists ps, bs = pre' ++ [(cb, ps, false)] /\ cb = mem_brk st - ps)) /\
    (last (map flag bs) true = true -> hd 0 fl' = cb).
Proof.
  intros (Hsh & Hst) Hw Hw2 Hfit.
  pose proof (Shape_region _ _ _ Hsh) as Hr.
  pose proof (sh_max _ _ _ Hsh) as Hmax.
  set (size := words * 8). set (brk := mem_brk st).
  set (st1 := grown st size).
  set (m3 := upd (upd (upd (mem st) (brk - 8) (tag size false))
                      (brk + size - 16) (tag size false))
                 (brk + size - 8) 1).
  assert (Hblk : forall y sy ay, In (y, sy, ay) bs ->
     mem_heap st + 32 <= y /\ y + sy <= brk /\ 32 <= sy /\ sy mod 16 = 0).
  { intros y sy ay Hy. pose proof (Shape_block _ _ _ _ _ _ Hsh Hy). lia. }
  assert (Hout : forall x, In x fl -> mem_heap st + 32 <= x /\ x + 32 <= brk).
  { intros x Hx. apply (sh_mem _ _ _ Hsh) in Hx as (sx & Hx).
    apply Hblk in Hx. lia. }
  pose proof (contig_le _ _ _ (sh_contig _ _ _ Hsh)) as Hle. fold brk in Hle.
  assert (Hsh3 : Shape (set_mem st1 m3) (bs ++ (brk, size, true) :: []) fl).
  { destruct Hsh as [H1 H2 H3 H4 H5 H6 H7 H8]. unfold st1, grown.
    split; norm; trivial; try (fold brk size; lia).
    - apply contig_app. exists brk. split; [exact H5|].
      cbn [contig]. fold brk size. repeat split; lia.
    - unfold no_adj_free in *. rewrite map_app. cbn [map flag snd].
      now apply naf_snoc_alloc.
    - intros x. rewrite H8. split; intros (s & Hx); exists s.
      + apply in_or_app. now left.
      + apply in_app_or in Hx as [Hx|[Hx|[]]]; [exact Hx|discriminate]. }
  assert (Hst3 : Stored m3 (mem_heap st) (brk + size)
                   (bs ++ (brk, size, false) :: []) fl).
  { destruct Hst as [S1 S2 S3 S4 S5 S6]. unfold m3. split.
    - now upd_simpl.
    - now upd_simpl.
    - apply tags_app. split.
      + eapply tags_frame; [|exact S3]. intros y sy ay Hy.
        apply Hblk in Hy. now upd_simpl.
      + apply tags_one. upd_simpl. split; [reflexivity|now upd_simpl].
    - now upd_simpl.
    - upd_simpl. eapply lseg_frame; [|exact S5]. intros x Hx.
      apply Hout in Hx. now upd_simpl.
    - eapply prevs_frame; [|exact S6]. intros y Hy.
      assert (Hy' : In y fl) by (destruct fl; [contradiction|now right]).
      apply Hout in Hy'. now upd_simpl. }
  destruct (coalesce_frame (set_mem st1 m3) bs brk size [] fl Hsh3 Hst3)
    as (m4 & cb & cs & pre' & post' & fl' & E & HI & Hcb & Hal & Hhd & Hfr
        & Hd1 & Hd2).
  assert (Hp : post' = [] /\ cb + cs = brk + size).
  { destruct Hd2 as [(_ & -> & H)|(ns & H & _)]; [now split|discriminate]. }
  destruct Hp as (-> & Hsum).
  exists m4, cb, cs, pre', fl'. split; [|split; [exact HI|]].
  - unfold extend_heap, WSIZE. fold size.
    replace (words mod 2 =? 1) with false by (symmetry; apply Z.eqb_neq; lia).
    rewrite (wrap_small size) by (unfold size, brk in *; vsolve).
    rewrite (bind_eq _ _ _ _ _ (mem_sbrk_ok st size Hfit)). fold st1 brk.
    replace (2 ^ 63 <=? brk) with false
      by (symmetry; apply Z.leb_gt; unfold size, brk in *; vsolve).
    assert (Hr1 : region_ok st1) by (unfold st1, grown, size, brk in *; vsolve).
    assert (Hb1 : mem_heap st1 + 32 <= brk /\ mem_brk st1 = brk + size /\
                  mem st1 = mem st /\ 0 < mem_heap st1 /\ 32 <= size /\
                  size mod 16 = 0 /\ mem_heap st1 = mem_heap st /\
                  (brk - mem_heap st) mod 16 = 0).
    { unfold st1, grown, size, brk in *. norm. repeat split; trivial; vsolve. }
    rewrite HDRP_eq by vsolve. rewrite PACK_0 by vsolve. step_PUT.
    destruct Hb1 as (Hb1 & Hb2 & Hb3 & Hb4 & Hb5 & Hb6 & Hb7 & Hb8).
    step_FTRP size false. step_PUT. step_NEXT_BLKP size false.
    rewrite HDRP_eq by vsolve. change (PACK 0 1) with 1. step_PUT.
    rewrite Hb3. fold m3. exact E.
  - split; [exact Hsum|]. split; [|split; [|split; [exact Hd1|exact Hhd]]].
    + intros x sx. rewrite <- (app_nil_r pre'), Hal, app_nil_r. tauto.
    + intros a Ha. rewrite Hfr by (now rewrite app_nil_r).
      unfold st1, grown. norm.
      destruct Ha as (x & sx & Hx & Ha). apply Hblk in Hx.
      unfold m3. now upd_simpl.
Qed.

Lemma extend_heap_ok st bs fl words :
  Inv st bs fl -> 4 <= words -> words mod 2 = 0 ->
  mem_brk st + words * 8 <= mem_max_addr st ->
  exists m' cb cs bs' fl',
    extend_heap words st = Some (cb, set_mem (grown st (words * 8)) m') /\
    Inv (set_mem (grown st (words * 8)) m') bs' fl' /\
    In (cb, cs, false) bs' /\ words * 8 <= cs /\
    (forall x sx, In (x, sx, true) bs' <-> In (x, sx, true) bs) /\
    (bs = [] -> hd 0 fl' = mem_brk st /\ cb = mem_brk st).
Proof.
  intros HI Hw Hw2 Hfit. pose proof HI as (Hsh & _).
  destruct (extend_heap_frame st bs fl words HI Hw Hw2 Hfit)
    as (m' & cb & cs & pre' & fl' & E & HI' & Hsum & Hal & _ & Hd & Hhd).
  exists m', cb, cs, (pre' ++ [(cb, cs, false)]), fl'.
  split; [exact E|]. split; [exact HI'|].
  split; [apply in_or_app; right; now left|]. split; [|split].
  - destruct Hd as [(_ & _ & ->)|(ps & Hb & Hcb)]; [lia|].
    assert (Hin : In (cb, ps, false) bs).
    { rewrite Hb. apply in_or_app. right. now left. }
    pose proof (Shape_block _ _ _ _ _ _ Hsh Hin). lia.
  - intros x sx. rewrite <- Hal, in_app_iff. cbn [In]. split; [|tauto].
    intros [H|[H|[]]]; [exact H|discriminate].
  - intros ->. destruct Hd as [(_ & _ & ->)|(ps & Hb & _)].
    + split; [|reflexivity]. now apply Hhd.
    + destruct pre'; discriminate.
Qed.

(** ** Searching the free list *)

Lemma GET_SIZE_raw st p :
  valid st p ->
  GET_SIZE p st = Some (Z.land (mem st p) (wrap (Z.lnot 15)), st).
Proof.
  intros Hv. unfold GET_SIZE. now rewrite (bind_eq _ _ _ _ _ (GET_exec _ _ Hv)).
Qed.

Lemma find_fit_from_hit st A l1 b l2 t :
  region_ok st ->
  (forall x, In x (l1 ++ [b]) -> cell st x) ->
  (forall x, In x l1 -> hsize st x < A) -> A <= hsize st b ->
  forall h fuel,
    lseg (mem st) h (l1 ++ b :: l2) t -> (length l1 < fuel)%nat ->
    find_fit_from fuel A h st = Some (b, st).
Proof.
  intros Hr. induction l1 as [|x l1 IH]; intros Hcell Hsmall Hfit h fuel Hl Hf;
    (destruct fuel as [|fuel]; [inversion Hf|]); cbn [app lseg] in Hl;
    destruct Hl as (-> & Hl); cbn [find_fit_from];
    unfold NULL, NEXT_FREE_BLKP.
  - assert (Hc : cell st b) by (apply Hcell; now left).
    replace (b =? 0) with false by (symmetry; apply Z.eqb_neq; vsolve).
    cbn [negb]. rewrite HDRP_eq by vsolve.
    rewrite (bind_eq _ _ _ _ _ (GET_SIZE_raw st (b - 8) ltac:(vsolve))).
    fold (hsize st b). apply Z.leb_le in Hfit. now rewrite Hfit.
  - assert (Hc : cell st x) by (apply Hcell; now left).
    replace (x =? 0) with false by (symmetry; apply Z.eqb_neq; vsolve).
    cbn [negb]. rewrite HDRP_eq by vsolve.
    rewrite (bind_eq _ _ _ _ _ (GET_SIZE_raw st (x - 8) ltac:(vsolve))).
    fold (hsize st x).
    replace (A <=? hsize st x) with false
      by (symmetry; apply Z.leb_gt; apply Hsmall; now left).
    step_GET. apply IH; trivial.
    + intros y Hy. apply Hcell. now right.
    + intros y Hy. apply Hsmall. now right.
    + cbn [length] in Hf. lia.
Qed.

Lemma find_fit_from_miss st A l :
  region_ok st ->
  (forall x, In x l -> cell st x) ->
  (forall x, In x l -> hsize st x < A) ->
  forall h fuel,
    lseg (mem st) h l 0 -> (length l < fuel)%nat ->
    find_fit_from fuel A h st = Some (NULL, st).
Proof.
  intros Hr. induction l as [|x l IH]; intros Hcell Hsmall h fuel Hl Hf;
    (destruct fuel as [|fuel]; [inversion Hf|]); cbn [lseg] in Hl;
    cbn [find_fit_from]; unfold NEXT_FREE_BLKP.
  - subst h. reflexivity.
  - destruct Hl as (-> & Hl).
    assert (Hc : cell st x) by (apply Hcell; now left).
    replace (x =? NULL) with false by (symmetry; apply Z.eqb_neq; vsolve).
    cbn [negb]. rewrite HDRP_eq by vsolve.
    rewrite (bind_eq _ _ _ _ _ (GET_SIZE_raw st (x - 8) ltac:(vsolve))).
    fold (hsize st x).
    replace (A <=? hsize st x) with false
      by (symmetry; apply Z.leb_gt; apply Hsmall; now left).
    step_GET. apply IH; trivial.
    + intros y Hy. apply Hcell. now right.
    + intros y Hy. apply Hsmall. now right.
    + cbn [length] in Hf. lia.
Qed.

(** More fuel never changes a result. *)
Lemma find_fit_from_mono A fuel :
  forall fuel' h st r, (fuel <= fuel')%nat ->
    find_fit_from fuel A h st = Some r -> find_fit_from fuel' A h st = Some r.
Proof.
  induction fuel as [|fuel IH]; intros fuel' h st r Hle H; [discriminate|].
  destruct fuel' as [|fuel']; [lia|]. cbn [find_fit_from] in *.
  destruct (negb (h =? NULL)); [|exact H].
  unfold bind in *.
  destruct (GET_SIZE (HDRP h) st) as [[s st1]|]; [|discriminate].
  destruct (A <=? s); [exact H|].
  destruct (NEXT_FREE_BLKP h st1) as [[nx st2]|]; [|discriminate].
  apply IH; [lia|exact H].
Qed.

(** Every free list splits at its first fit, or has none. *)
Lemma first_fit_dec st A (l : list Z) :
  (exists l1 b l2, l = l1 ++ b :: l2 /\
      (forall x, In x l1 -> hsize st x < A) /\ A <= hsize st b) \/
  (forall x, In x l -> hsize st x < A).
Proof.
  induction l as [|x l IH].
  - right. intros x [].
  - destruct (Z_le_gt_dec A (hsize st x)) as [Hfit|Hsmall].
    + left. exists [], x, l. repeat split; trivial. intros y [].
    + destruct IH as [(l1 & b & l2 & -> & H1 & H2)|H].
      * left. exists (x :: l1), b, l2. repeat split; trivial.
        intros y [<-|Hy]; [lia|now apply H1].
      * right. intros y [<-|Hy]; [lia|now apply H].
Qed.

(** ** Traversals *)

Lemma list_walk_ok st l :
  region_ok st -> (forall x, In x l -> cell st x) ->
  forall h fuel, lseg (mem st) h l 0 -> (length l < fuel)%nat ->
    list_walk fuel h st = Some (l, st).
Proof.
  intros Hr. induction l as [|x l IH]; intros Hcell h fuel Hl Hf;
    (destruct fuel as [|fuel]; [inversion Hf|]); cbn [lseg] in Hl;
    cbn [list_walk]; unfold NEXT_FREE_BLKP.
  - subst h. reflexivity.
  - destruct Hl as (-> & Hl).
    assert (Hc : cell st x) by (apply Hcell; now left).
    replace (x =? NULL) with false by (symmetry; apply Z.eqb_neq; vsolve).
    cbn [negb]. step_GET.
    rewrite (bind_eq _ _ _ _ _ (IH (fun y Hy => Hcell y (or_intror Hy)) _ fuel Hl
                                  ltac:(cbn [length] in Hf; lia))).
    reflexivity.
Qed.

Lemma heap_walk_ok st bs :
  0 < mem_heap st -> mem_brk st <= 2 ^ 63 ->
  mem st (mem_brk st - 8) = 1 -> tags (mem st) bs ->
  forall p fuel, contig p bs (mem_brk st) -> mem_heap st + 32 <= p ->
    (p - mem_heap st) mod 16 = 0 -> (length bs < fuel)%nat ->
    heap_walk fuel p st =
    Some (map (fun b => fst (fst b)) bs ++ [mem_brk st], st).
Proof.
  intros Hb Hbrk Hepi. induction bs as [|[[b s] a] bs IH];
    intros Ht p fuel Hc Hp Hal Hf;
    (destruct fuel as [|fuel]; [inversion Hf|]); cbn [contig] in Hc;
    cbn [heap_walk map fst app].
  - subst p. rewrite HDRP_eq by lia.
    assert (He : mem st (mem_brk st - 8) = tag 0 true) by exact Hepi.
    step_GET_SIZE 0 true. reflexivity.
  - destruct Hc as (<- & Hs & Hs16 & Hc).
    pose proof (contig_le _ _ _ Hc) as Hle.
    apply tags_cons in Ht as (Hb1 & Ht). apply tags_one in Hb1 as (Hh & _).
    rewrite HDRP_eq by lia. step_GET_SIZE s a.
    replace (0 <? s) with true by (symmetry; apply Z.ltb_lt; lia).
    step_NEXT_BLKP s a.
    rewrite (bind_eq _ _ _ _ _ (IH Ht (b + s) fuel Hc ltac:(lia) ltac:(lia)
                                  ltac:(cbn [length] in Hf; lia))).
    reflexivity.
Qed.

(** The blocks of the heap in address order: the prologue, then the blocks
    of the abstract view; the walk ends at the epilogue. *)
Lemma heap_blocks_ok st bs fl :
  Inv st bs fl ->
  forall fuel, (length bs + 1 < fuel)%nat ->
    heap_blocks fuel st =
    Some ((heap_start st :: map (fun b => fst (fst b)) bs) ++ [mem_brk st],
          st).
Proof.
  intros (Hsh & Hst) fuel Hf. pose proof (Shape_region _ _ _ Hsh) as Hr.
  destruct fuel as [|fuel]; [inversion Hf|].
  unfold heap_blocks. cbn [heap_walk].
  pose proof (sh_hs _ _ _ Hsh) as Hhs. rewrite Hhs.
  rewrite HDRP_eq by vsolve.
  assert (Hp : mem st (mem_heap st + 16 - 8) = tag 16 true).
  { replace (mem_heap st + 16 - 8) with (mem_heap st + 8) by lia.
    apply (st_pro_h _ _ _ _ _ Hst). }
  step_GET_SIZE 16 true. cbn [Z.ltb Z.compare].
  step_NEXT_BLKP 16 true.
  replace (mem_heap st + 16 + 16) with (mem_heap st + 32) by lia.
  rewrite (bind_eq _ _ _ _ _
             (heap_walk_ok st bs ltac:(vsolve) ltac:(vsolve)
                (st_epi _ _ _ _ _ Hst) (st_tags _ _ _ _ _ Hst)
                (mem_heap st + 32) fuel (sh_contig _ _ _ Hsh)
                ltac:(lia) ltac:(lia) ltac:(lia))).
  reflexivity.
Qed.

Lemma free_list_ok st bs fl :
  Inv st bs fl ->
  forall fuel, (length fl < fuel)%nat -> free_list fuel st = Some (fl, st).
Proof.
  intros (Hsh & Hst) fuel Hf. pose proof (Shape_region _ _ _ Hsh) as Hr.
  unfold free_list. step_HEAD.
  apply list_walk_ok; trivial.
  - intros x Hx. eapply Shape_cell; eassumption.
  - apply (st_lseg _ _ _ _ _ Hst).
Qed.

(** ** Allocation *)

(** [place] of an adjusted size of at least 32: the block list and the
    free list of the new state in both branches. *)
Lemma place_exact st pre post l1 l2 b S A :
  Inv st (pre ++ (b, S, false) :: post) (l1 ++ b :: l2) ->
  32 <= A <= S -> A mod 16 = 0 ->
  exists m',
    place b A st = Some (tt, set_mem st m') /\
    (S - A < 32 ->
       Inv (set_mem st m') (pre ++ (b, S, true) :: post) (l1 ++ l2)) /\
    (32 <= S - A ->
       Inv (set_mem st m')
         (pre ++ (b, A, true) :: (b + A, S - A, false) :: post)
         ((b + A) :: l1 ++ l2)) /\
    (forall a, in_payload (pre ++ post) a -> m' a = mem st a).
Proof.
  intros HI HA HA16.
  destruct (place_frame st pre post l1 l2 b S A HI ltac:(lia) HA16)
    as (m' & E & Hno & Hsp & Hfr).
  destruct HI as (Hsh & Hst).
  destruct (around_block _ _ _ _ _ _ _ _ Hsh)
    as (Hb & Hc1 & Hc2 & Hpre & Hpost & Hout & Hsep).
  exists m'. split; [exact E|]. split; [exact Hno|]. split; [|exact Hfr].
  intros Hge. split; [|apply Hsp; lia].
  pose proof (others_mem _ _ _ _ _ _ _ Hsh) as Hom.
  destruct Hsh as [H1 H2 H3 H4 H5 H6 H7 H8]. split; norm; trivial.
  - apply contig_app. exists b. split; [exact Hc1|].
    cbn [contig]. repeat split; try lia.
    replace (b + A + (S - A)) with (b + S) by lia. exact Hc2.
  - unfold no_adj_free in *. rewrite map_app in *. cbn [map flag snd] in *.
    apply naf_app in H6 as (N1 & N2 & N3). apply naf_app.
    cbn [naf hd] in *. repeat split; trivial; try tauto; discriminate.
  - apply NoDup_cons.
    + intros Hx. apply Hout in Hx. lia.
    + eapply NoDup_remove_1. exact H7.
  - intros x. cbn [In]. rewrite Hom. split.
    + intros [<-|(s & Hx)]; [exists (S - A)|exists s]; apply in_or_app.
      * right. right. now left.
      * apply in_app_or in Hx. cbn [In]. tauto.
    + intros (s & Hx). apply in_app_or in Hx. cbn [In] in Hx.
      destruct Hx as [Hx|[Hx|[Hx|Hx]]].
      * right. exists s. apply in_or_app. now left.
      * discriminate.
      * left. congruence.
      * right. exists s. apply in_or_app. now right.
Qed.

Lemma place_Inv st pre post l1 l2 b S A :
  Inv st (pre ++ (b, S, false) :: post) (l1 ++ b :: l2) ->
  32 <= A <= S -> A mod 16 = 0 ->
  exists m' bs' fl' S',
    place b A st = Some (tt, set_mem st m') /\
    Inv (set_mem st m') bs' fl' /\
    In (b, S', true) bs' /\ A <= S' /\
    (forall x sx, In (x, sx, true) bs' <->
                  (x = b /\ sx = S') \/ In (x, sx, true) (pre ++ post)).
Proof.
  intros HI HA HA16.
  destruct (place_exact st pre post l1 l2 b S A HI HA HA16)
    as (m' & E & Hno & Hsp & _).
  destruct (Z_lt_ge_dec (S - A) 32) as [Hlt|Hge].
  - exists m', (pre ++ (b, S, true) :: post), (l1 ++ l2), S.
    split; [exact E|]. split; [now apply Hno|].
    split; [apply in_or_app; right; now left|]. split; [lia|].
    intros x sx. rewrite !in_app_iff. cbn [In]. split.
    + intros [H|[H|H]]; [tauto| |tauto]. injection H as <- <-. now left.
    + intros [(-> & ->)|[H|H]]; tauto.
  - exists m', (pre ++ (b, A, true) :: (b + A, S - A, false) :: post),
      ((b + A) :: l1 ++ l2), A.
    split; [exact E|]. split; [apply Hsp; lia|].
    split; [apply in_or_app; right; now left|]. split; [lia|].
    intros x sx. rewrite !in_app_iff. cbn [In]. split.
    + intros [H|[H|[H|H]]]; [tauto| |discriminate|tauto].
      injection H as <- <-. now left.
    + intros [(-> & ->)|[H|H]]; tauto.
Qed.

Lemma hsize_block st bs fl x sx a :
  Inv st bs fl -> In (x, sx, a) bs -> hsize st x = sx.
Proof.
  intros (Hsh & Hst) Hi. unfold hsize.
  destruct (st_tags _ _ _ _ _ Hst _ _ _ Hi) as (-> & _).
  pose proof (Shape_block _ _ _ _ _ _ Hsh Hi).
  pose proof (Shape_region _ _ _ Hsh) as Hr.
  apply GET_SIZE_tag; vsolve.
Qed.

Lemma adjusted_size_ok n :
  0 < n -> request_ok n ->
  32 <= adjusted_size n < 2 ^ 64 /\ adjusted_size n mod 16 = 0 /\
  n + 16 <= adjusted_size n /\
  adjusted_size n = (if n <=? 16 then 32 else 16 * ((n + 15) / 16) + 16).
Proof.
  unfold request_ok, adjusted_size, DSIZE, OVERHEAD. intros Hn Hr.
  change (16 + 16) with 32. change (16 - 1) with 15.
  destruct (Z.leb_spec n 16) as [H|H]; [lia|].
  rewrite (wrap_small (n + 16 + 15)) by lia.
  rewrite wrap_small by lia. lia.
Qed.

Lemma adjusted_size_any n :
  0 < n < 2 ^ 64 ->
  0 <= adjusted_size n < 2 ^ 64 /\ adjusted_size n mod 16 = 0.
Proof.
  unfold adjusted_size, DSIZE, OVERHEAD, wrap. intros Hn.
  change (16 + 16) with 32. change (16 - 1) with 15.
  destruct (Z.leb_spec n 16) as [H|H]; [lia|].
  pose proof (Z.mod_pos_bound (n + 16 + 15) (2 ^ 64) ltac:(lia)) as Hm.
  set (w := (n + 16 + 15) mod 2 ^ 64) in *.
  rewrite Z.mod_small by lia. lia.
Qed.

Lemma mem_sbrk_refused st incr :
  mem_max_addr st < mem_brk st + incr ->
  mem_sbrk incr st = Some (wrap (-1), refused st).
Proof.
  intros H. unfold mem_sbrk. apply Z.leb_gt in H. now rewrite H.
Qed.

Lemma Inv_refused st bs fl : Inv st bs fl -> Inv (refused st) bs fl.
Proof.
  intros ([H1 H2 H3 H4 H5 H6 H7 H8] & Hst). split; [|exact Hst].
  split; trivial.
Qed.

Lemma find_fit_hit st bs fl A l1 b l2 fuel :
  Inv st bs fl -> fl = l1 ++ b :: l2 ->
  (forall x, In x l1 -> hsize st x < A) -> A <= hsize st b ->
  (length l1 < fuel)%nat ->
  find_fit fuel A st = Some (b, st).
Proof.
  intros (Hsh & Hst) -> Hsmall Hfit Hf.
  pose proof (Shape_region _ _ _ Hsh) as Hr.
  unfold find_fit. step_HEAD.
  eapply find_fit_from_hit; try eassumption.
  - intros x Hx. apply (Shape_cell _ _ _ _ Hsh).
    apply in_app_or in Hx. apply in_or_app. cbn [In] in *. tauto.
  - apply (st_lseg _ _ _ _ _ Hst).
Qed.

Lemma find_fit_miss st bs fl A fuel :
  Inv st bs fl -> (forall x, In x fl -> hsize st x < A) ->
  (length fl < fuel)%nat ->
  find_fit fuel A st = Some (NULL, st).
Proof.
  intros (Hsh & Hst) Hsmall Hf.
  pose proof (Shape_region _ _ _ Hsh) as Hr.
  unfold find_fit. step_HEAD.
  eapply find_fit_from_miss; try eassumption.
  - intros x Hx. apply (Shape_cell _ _ _ _ Hsh Hx).
  - apply (st_lseg _ _ _ _ _ Hst).
Qed.

Lemma malloc_hit st bs fl n l1 b l2 :
  Inv st bs fl -> 0 < n < 2 ^ 64 -> fl = l1 ++ b :: l2 ->
  (forall x, In x l1 -> hsize st x < adjusted_size n) ->
  adjusted_size n <= hsize st b ->
  exists m',
    (forall fuel, (length l1 < fuel)%nat ->
       mm_malloc fuel n st = Some (b, set_mem st m')) /\
    (request_ok n -> exists bs' fl',
       Inv (set_mem st m') bs' fl' /\ tracks bs bs' b n).
Proof.
  intros HI Hn -> Hsmall Hfit.
  destruct (adjusted_size_any n Hn) as (HA & HA16).
  set (A := adjusted_size n) in *.
  pose proof HI as (Hsh & Hst).
  pose proof (Shape_region _ _ _ Hsh) as Hr.
  assert (Hb : In b (l1 ++ b :: l2)) by (apply in_or_app; right; now left).
  pose proof (Shape_cell _ _ _ _ Hsh Hb) as Hcb.
  apply (sh_mem _ _ _ Hsh) in Hb as (S & Hb).
  rewrite (hsize_block _ _ _ _ _ _ HI Hb) in Hfit.
  apply in_split in Hb as (pre & post & ->).
  destruct (place_spec st pre post l1 l2 b S A HI ltac:(lia) HA16)
    as (m' & E & _).
  exists m'. split.
  - intros fuel Hf. unfold mm_malloc.
    replace (n <=? 0) with false by (symmetry; apply Z.leb_gt; lia).
    fold A.
    rewrite (bind_eq _ _ _ _ _
               (find_fit_hit st _ _ A l1 b l2 fuel HI eq_refl Hsmall
                  ltac:(rewrite (hsize_block _ _ _ b S false HI);
                        [lia|apply in_or_app; right; now left]) Hf)).
    replace (b =? NULL) with false by (symmetry; apply Z.eqb_neq; vsolve).
    cbn [negb]. step_by E. reflexivity.
  - intros Hok. destruct (adjusted_size_ok n ltac:(lia) Hok) as (H32 & _ & Hpay & _).
    fold A in H32, Hpay.
    destruct (place_Inv st pre post l1 l2 b S A HI ltac:(lia) HA16)
      as (m'' & bs' & fl' & S' & E' & HI' & Hin' & HS' & Hal).
    assert (Heq : set_mem st m'' = set_mem st m') by congruence.
    rewrite Heq in HI'. exists bs', fl'. split; [exact HI'|].
    right. split; [vsolve|]. exists S'. split; [lia|].
    intros x sx. rewrite Hal, !in_app_iff. cbn [In].
    split; [tauto|]. intros [H|[H|[H|H]]]; [tauto|tauto|discriminate|tauto].
Qed.

Lemma malloc_miss st bs fl n :
  Inv st bs fl -> 0 < n < 2 ^ 64 ->
  (forall x, In x fl -> hsize st x < adjusted_size n) ->
  (mem_max_addr st < mem_brk st + max (adjusted_size n) CHUNKSIZE ->
   forall fuel, (length fl < fuel)%nat ->
     mm_malloc fuel n st = Some (NULL, refused st)) /\
  (mem_brk st + max (adjusted_size n) CHUNKSIZE <= mem_max_addr st ->
   exists cb m',
     (forall fuel, (length fl < fuel)%nat ->
        mm_malloc fuel n st =
        Some (cb, set_mem (grown st (max (adjusted_size n) CHUNKSIZE)) m')) /\
     cb <> NULL /\ (cb - mem_heap st) mod 16 = 0 /\
     (request_ok n -> exists bs' fl',
        Inv (set_mem (grown st (max (adjusted_size n) CHUNKSIZE)) m') bs' fl' /\
        tracks bs bs' cb n)).
Proof.
  intros HI Hn Hsmall.
  destruct (adjusted_size_any n Hn) as (HA & HA16).
  set (A := adjusted_size n) in *.
  set (size := max A CHUNKSIZE).
  assert (Hsize : 4096 <= size < 2 ^ 64 /\ size mod 16 = 0 /\ A <= size).
  { unfold size, max, CHUNKSIZE. change (Z.shiftl 1 12) with 4096.
    destruct (Z.ltb_spec 4096 A); lia. }
  set (words := size / WSIZE).
  assert (Hwords : words * 8 = size /\ 4 <= words /\ words mod 2 = 0).
  { unfold words, WSIZE. lia. }
  pose proof HI as (Hsh & Hst).
  pose proof (Shape_region _ _ _ Hsh) as Hr.
  assert (Hpre : forall fuel (k : Z -> M Z), (length fl < fuel)%nat ->
            mm_malloc fuel n st =
            (bp' <- extend_heap words ;;
             if bp' =? NULL then ret NULL else place bp' A ;; ret bp') st).
  { intros fuel k Hf. unfold mm_malloc.
    replace (n <=? 0) with false by (symmetry; apply Z.leb_gt; lia).
    fold A.
    rewrite (bind_eq _ _ _ _ _ (find_fit_miss st bs fl A fuel HI Hsmall Hf)).
    reflexivity. }
  split.
  - intros Hfull fuel Hf. rewrite (Hpre fuel (fun _ => ret 0) Hf).
    unfold extend_heap. rewrite bind_assoc.
    replace (words mod 2 =? 1) with false by (symmetry; apply Z.eqb_neq; lia).
    unfold WSIZE at 1. rewrite (proj1 Hwords), (wrap_small size) by lia.
    rewrite (bind_eq _ _ _ _ _ (mem_sbrk_refused st size Hfull)).
    reflexivity.
  - intros Hfit.
    destruct (extend_heap_ok st bs fl words HI ltac:(lia) ltac:(lia)
                ltac:(lia))
      as (m1 & cb & cs & bs1 & fl1 & E1 & HI1 & Hin1 & Hcs1 & Hal1 & _).
    rewrite (proj1 Hwords) in *.
    set (st1 := set_mem (grown st size) m1) in *.
    pose proof HI1 as (Hsh1 & Hst1).
    pose proof (Shape_block _ _ _ _ _ _ Hsh1 Hin1) as Hcb.
    unfold st1 in Hcb. norm.
    assert (Hcbfl : In cb fl1) by (apply (sh_mem _ _ _ Hsh1); now exists cs).
    apply in_split in Hcbfl as (l1 & l2 & ->).
    apply in_split in Hin1 as (pre & post & ->).
    destruct (place_spec st1 pre post l1 l2 cb cs A HI1 ltac:(lia) HA16)
      as (m2 & E2 & _).
    exists cb, m2. split; [|split; [vsolve|split; [lia|]]].
    + intros fuel Hf. rewrite (Hpre fuel (fun _ => ret 0) Hf).
      step_by E1.
      replace (cb =? NULL) with false by (symmetry; apply Z.eqb_neq; vsolve).
      fold st1. step_by E2. reflexivity.
    + intros Hok.
      destruct (adjusted_size_ok n ltac:(lia) Hok) as (H32 & _ & Hpay & _).
      fold A in H32, Hpay.
      destruct (place_Inv st1 pre post l1 l2 cb cs A HI1 ltac:(lia) HA16)
        as (m'' & bs' & fl' & S' & E' & HI' & Hin' & HS' & Hal).
      assert (Heq : set_mem st1 m'' = set_mem st1 m2) by congruence.
      rewrite Heq in HI'. exists bs', fl'. split; [exact HI'|].
      right. split; [vsolve|]. exists S'. split; [lia|].
      intros x sx. rewrite Hal, <- Hal1, !in_app_iff. cbn [In].
      split; [tauto|]. intros [H|[H|[H|H]]]; [tauto|tauto|discriminate|tauto].
Qed.

(** ** Initialisation *)

Ltac step_sbrk_ok :=
  match goal with
  | |- bind (mem_sbrk ?n) ?k ?s = _ =>
      rewrite (bind_eq _ _ _ _ _ (mem_sbrk_ok s n ltac:(norm; lia)))
  end.

Ltac step_sbrk_refused :=
  match goal with
  | |- bind (mem_sbrk ?n) ?k ?s = _ =>
      rewrite (bind_eq _ _ _ _ _ (mem_sbrk_refused s n ltac:(norm; lia)))
  end.

Lemma mm_init_ok st0 :
  fresh st0 -> mem_heap st0 + 4128 <= mem_max_addr st0 ->
  exists st' bs fl cs,
    mm_init st0 = Some (0, st') /\ Inv st' bs fl /\
    mem_heap st' = mem_heap st0 /\ sbrk_calls st' = sbrk_calls st0 + 2 /\
    mem_brk st' = mem_heap st0 + 4128 /\
    In (mem_heap st0 + 32, cs, false) bs /\ 4096 <= cs /\
    hd 0 fl = mem_heap st0 + 32 /\
    (forall x sx, ~ In (x, sx, true) bs).
Proof.
  destruct st0 as [m base brk mx calls hs]. unfold fresh. norm.
  intros (Hbase & -> & Hle & Hmx & ->) Hcap.
  set (m4 := upd (upd (upd (upd m base 0) (base + 8) 17) (base + 16) 17)
                 (base + 24) 1).
  set (s2 := mkState m4 base (base + 32) mx (calls + 1) (base + 16)).
  assert (HI2 : Inv s2 [] []).
  { split.
    - unfold s2. split; norm; try lia.
      + cbn [contig]. reflexivity.
      + exact I.
      + constructor.
      + intros x. split; [intros []|intros (s & [])].
    - unfold s2, m4. norm. split.
      + now upd_simpl.
      + now upd_simpl.
      + intros b s a [].
      + replace (base + 32 - 8) with (base + 24) by lia. now upd_simpl.
      + cbn [lseg]. now upd_simpl.
      + exact I. }
  destruct (extend_heap_ok s2 [] [] 512 HI2 ltac:(lia) eq_refl
              ltac:(unfold s2; norm; lia))
    as (m' & cb & cs & bs' & fl' & E & HI & Hin & Hcs & Hal & Hnil).
  destruct (Hnil eq_refl) as (Hhd & ->). unfold s2 in Hhd, Hin. norm.
  exists (set_mem (grown s2 (512 * 8)) m'), bs', fl', cs.
  split; [|split; [exact HI|]].
  - unfold mm_init, WSIZE, DSIZE, OVERHEAD, CHUNKSIZE.
    change (Z.shiftl 1 12 / 8) with 512. change (4 * 8) with 32.
    change (8 + 16) with 24. change (PACK 16 1) with 17. change (PACK 0 1) with 1.
    step_sbrk_ok.
    unfold grown. norm. unfold bind at 1.
    replace (base =? NULL) with false by (symmetry; apply Z.eqb_neq; unfold NULL; lia).
    unfold set_heap_start. norm.
    rewrite !PADD_eq by lia.
    step_PUT. step_PUT. step_PUT. step_PUT. fold m4.
    unfold bind at 1. norm. rewrite PADD_eq by lia. fold s2.
    step_by E. change (mem_brk s2) with (base + 32).
    replace (base + 32 =? NULL) with false
      by (symmetry; apply Z.eqb_neq; unfold NULL; lia).
    reflexivity.
  - unfold s2. norm. repeat split; trivial; try lia.
    intros x sx Hx. apply Hal in Hx. destruct Hx.
Qed.

Lemma mm_init_cap st0 st' :
  fresh st0 -> mm_init st0 = Some (0, st') ->
  mem_heap st0 + 4128 <= mem_max_addr st0.
Proof.
  destruct st0 as [m base brk mx calls hs]. unfold fresh. norm.
  intros (Hbase & -> & Hle & Hmx & ->) E.
  destruct (Z_le_gt_dec (base + 4128) mx) as [H|H]; [exact H|exfalso].
  destruct (Z_le_gt_dec (base + 32) mx) as [H32|H32].
  - assert (Hx : exists s,
              mm_init (mkState m base base mx calls NULL) = Some (-1, s)).
    { eexists. unfold mm_init, WSIZE, DSIZE, OVERHEAD, CHUNKSIZE.
      change (Z.shiftl 1 12 / 8) with 512. change (4 * 8) with 32.
      change (8 + 16) with 24. change (PACK 16 1) with 17.
      change (PACK 0 1) with 1.
      step_sbrk_ok.
      unfold grown. norm. unfold bind at 1.
      replace (base =? NULL) with false
        by (symmetry; apply Z.eqb_neq; unfold NULL; lia).
      unfold set_heap_start. norm.
      rewrite !PADD_eq by lia.
      step_PUT. step_PUT. step_PUT. step_PUT.
      unfold bind at 1. norm. unfold extend_heap, WSIZE.
      change (512 mod 2 =? 1) with false. change (wrap (512 * 8)) with 4096.
      cbv iota. rewrite bind_assoc.
      step_sbrk_refused.
      change (2 ^ 63 <=? wrap (-1)) with true. cbv iota.
      step_ret. reflexivity. }
    destruct Hx as (s & Hx). rewrite Hx in E. discriminate.
  - assert (Hx : mm_init (mkState m base base mx calls NULL) = None).
    { unfold mm_init, WSIZE, DSIZE, OVERHEAD, CHUNKSIZE.
      change (4 * 8) with 32.
      step_sbrk_refused.
      unfold refused. norm. unfold bind at 1.
      change (wrap (-1) =? NULL) with false.
      cbv iota. unfold set_heap_start. norm.
      apply bind_None. unfold PUT, valid_addr. norm.
      replace (wrap (-1) + WSIZE <=? base) with false;
        [now rewrite andb_false_r|].
      symmetry. apply Z.leb_gt. unfold WSIZE.
      change (wrap (-1)) with (2 ^ 64 - 1). lia. }
    rewrite Hx in E. discriminate.
Qed.

(** ** Runs of the allocator *)

Lemma mm_malloc_mono fuel fuel' n st r :
  (fuel <= fuel')%nat ->
  mm_malloc fuel n st = Some r -> mm_malloc fuel' n st = Some r.
Proof.
  intros Hle. unfold mm_malloc. destruct (n <=? 0); [trivial|].
  unfold find_fit, bind.
  destruct (HEAD st) as [[h st1]|]; [|discriminate].
  destruct (find_fit_from fuel (adjusted_size n) h st1) as [[bp st2]|] eqn:E;
    [|discriminate].
  now rewrite (find_fit_from_mono _ _ _ _ _ _ Hle E).
Qed.

Lemma mm_malloc_zero fuel st : mm_malloc fuel 0 st = Some (NULL, st).
Proof. reflexivity. Qed.

(** What a call of [mm_malloc] does in a state that satisfies the
    invariant, for any positive request. *)
Lemma malloc_total st bs fl n :
  Inv st bs fl -> 0 < n < 2 ^ 64 ->
  exists fuel0 p st',
    (forall fuel, (fuel0 <= fuel)%nat -> mm_malloc fuel n st = Some (p, st')) /\
    mem_heap st' = mem_heap st /\
    (p = NULL \/ (p - mem_heap st) mod 16 = 0) /\
    (request_ok n -> exists bs' fl', Inv st' bs' fl' /\ tracks bs bs' p n).
Proof.
  intros HI Hn.
  destruct (first_fit_dec st (adjusted_size n) fl)
    as [(l1 & b & l2 & Hfl & Hsmall & Hfit)|Hsmall].
  - destruct (malloc_hit st bs fl n l1 b l2 HI Hn Hfl Hsmall Hfit)
      as (m' & E & Hok).
    exists (S (length l1)), b, (set_mem st m').
    split; [intros fuel Hf; apply E; lia|]. split; [reflexivity|].
    split; [|exact Hok].
    right. destruct HI as (Hsh & _).
    assert (Hb : In b fl) by (rewrite Hfl; apply in_or_app; right; now left).
    pose proof (Shape_cell _ _ _ _ Hsh Hb) as Hc. unfold cell in Hc. tauto.
  - destruct (malloc_miss st bs fl n HI Hn Hsmall) as (Hfail & Hgrow).
    destruct (Z_le_gt_dec (mem_brk st + max (adjusted_size n) CHUNKSIZE)
                          (mem_max_addr st)) as [Hfit|Hfull].
    + destruct (Hgrow Hfit) as (cb & m' & E & Hcb & Hal & Hok).
      exists (S (length fl)), cb, (set_mem (grown st (max (adjusted_size n) CHUNKSIZE)) m').
      split; [intros fuel Hf; apply E; lia|]. split; [reflexivity|].
      split; [now right|exact Hok].
    + exists (S (length fl)), NULL, (refused st).
      split; [intros fuel Hf; apply Hfail; lia|]. split; [reflexivity|].
      split; [now left|]. intros _. exists bs, fl.
      split; [now apply Inv_refused|]. left. split; [reflexivity|tauto].
Qed.

Lemma remove_In_iff (l : list Z) p x :
  In x (remove Z.eq_dec p l) <-> In x l /\ x <> p.
Proof.
  split.
  - intros H. apply in_remove in H. exact H.
  - intros (H1 & H2). now apply in_in_remove.
Qed.

(** The invariant holds in every state reached with requests that do not
    wrap, and the live pointers are exactly the allocated blocks. *)
Theorem reachable_Inv st live :
  reachable st live ->
  exists bs fl, Inv st bs fl /\
    (forall x, In x live <-> exists s, In (x, s, true) bs).
Proof.
  induction 1 as [st0 st Hfresh Hinit
                 | st live fuel n p st' Hreach IH Hok Hm
                 | st live p st' Hreach IH Hp Hf].
  - pose proof (mm_init_cap _ _ Hfresh Hinit) as Hcap.
    destruct (mm_init_ok _ Hfresh Hcap)
      as (st1 & bs & fl & cs & E & HI & _ & _ & _ & _ & _ & _ & Hnone).
    assert (st1 = st) by congruence. subst st1.
    exists bs, fl. split; [exact HI|].
    intros x. split; [intros []|intros (s & Hx); exact (Hnone _ _ Hx)].
  - destruct IH as (bs & fl & HI & Hlive).
    destruct (Z.eq_dec n 0) as [->|Hn0].
    + rewrite mm_malloc_zero in Hm. injection Hm as <- <-.
      exists bs, fl. now split.
    + assert (Hn : 0 < n < 2 ^ 64) by (unfold request_ok in Hok; lia).
      destruct (malloc_total st bs fl n HI Hn)
        as (fuel0 & p0 & st0 & E & _ & _ & Hres).
      pose proof (mm_malloc_mono fuel (Nat.max fuel fuel0) n st _
                    ltac:(lia) Hm) as Hm'.
      rewrite (E (Nat.max fuel fuel0) ltac:(lia)) in Hm'.
      injection Hm' as -> ->.
      destruct (Hres Hok) as (bs' & fl' & HI' & Htr).
      exists bs', fl'. split; [exact HI'|].
      destruct Htr as [(-> & Hal)|(Hp & S' & _ & Hal)].
      * cbn. intros x. rewrite Hlive. split; intros (s & Hx); exists s;
          now apply Hal.
      * replace (p =? NULL) with false by (symmetry; now apply Z.eqb_neq).
        intros x. cbn [In]. rewrite Hlive. split.
        -- intros [<-|(s & Hx)]; [exists S'|exists s]; apply Hal; tauto.
        -- intros (s & Hx). apply Hal in Hx as [(-> & _)|Hx]; [now left|].
           right. now exists s.
  - destruct IH as (bs & fl & HI & Hlive).
    apply Hlive in Hp as (s & Hp).
    apply in_split in Hp as (pre & post & ->).
    destruct (mm_free_spec st pre p s post fl HI)
      as (m' & cb & cs & bs' & fl' & E & HI' & _ & _ & _ & Hal & _).
    assert (set_mem st m' = st') by congruence. subst st'.
    exists bs', fl'. split; [exact HI'|].
    destruct HI as (Hsh & _).
    pose proof (sh_contig _ _ _ Hsh) as Hc.
    apply contig_app in Hc as (r & Hc1 & Hc2). cbn [contig] in Hc2.
    destruct Hc2 as (<- & Hs & _ & Hc2).
    intros x. rewrite remove_In_iff, Hlive. split.
    + intros ((sx & Hx) & Hne). exists sx. apply Hal.
      apply in_app_or in Hx. apply in_or_app. cbn [In] in Hx.
      destruct Hx as [Hx|[Hx|Hx]]; [now left| |now right]. congruence.
    + intros (sx & Hx). apply Hal in Hx. split.
      * exists sx. apply in_app_or in Hx. apply in_or_app. cbn [In]. tauto.
      * intros ->. apply in_app_or in Hx as [Hx|Hx].
        -- pose proof (contig_in _ _ _ _ _ _ Hc1 Hx). lia.
        -- pose proof (contig_in _ _ _ _ _ _ Hc2 Hx). lia.
Qed.

(** ** Observing a state through the macros *)

Lemma run_eq {A} (m : M A) st a st' : m st = Some (a, st') -> run m st = Some a.
Proof. intros H. unfold run. now rewrite H. Qed.

Lemma alloc_block st bs fl x s a :
  Inv st bs fl -> In (x, s, a) bs ->
  run (GET_ALLOC (HDRP x)) st = Some (Z.b2z a).
Proof.
  intros (Hsh & Hst) Hi. pose proof (Shape_region _ _ _ Hsh) as Hr.
  pose proof (Shape_block _ _ _ _ _ _ Hsh Hi) as Hb.
  destruct (st_tags _ _ _ _ _ Hst _ _ _ Hi) as (Hh & _).
  rewrite HDRP_eq by vsolve.
  eapply run_eq, GET_ALLOC_exec; [vsolve|exact Hh|lia].
Qed.

Lemma alloc_prologue st bs fl :
  Inv st bs fl -> run (GET_ALLOC (HDRP (heap_start st))) st = Some 1.
Proof.
  intros (Hsh & Hst). pose proof (Shape_region _ _ _ Hsh) as Hr.
  rewrite (sh_hs _ _ _ Hsh), HDRP_eq by vsolve.
  eapply run_eq, (GET_ALLOC_exec st _ 16 true); [vsolve| |reflexivity].
  replace (mem_heap st + 16 - 8) with (mem_heap st + 8) by lia.
  apply (st_pro_h _ _ _ _ _ Hst).
Qed.

Lemma alloc_epilogue st bs fl :
  Inv st bs fl -> run (GET_ALLOC (HDRP (mem_brk st))) st = Some 1.
Proof.
  intros (Hsh & Hst). pose proof (Shape_region _ _ _ Hsh) as Hr.
  pose proof (contig_le _ _ _ (sh_contig _ _ _ Hsh)) as Hle.
  rewrite HDRP_eq by vsolve.
  eapply run_eq, (GET_ALLOC_exec st _ 0 true); [vsolve| |reflexivity].
  apply (st_epi _ _ _ _ _ Hst).
Qed.

(** The allocated bits along the heap walk. *)
Lemma walk_flags st bs fl :
  Inv st bs fl ->
  Forall2 (fun x a => run (GET_ALLOC (HDRP x)) st = Some (Z.b2z a))
          ((heap_start st :: map (fun b => fst (fst b)) bs) ++ [mem_brk st])
          ((true :: map flag bs) ++ [true]).
Proof.
  intros HI. apply Forall2_app.
  - constructor; [apply (alloc_prologue _ _ _ HI)|].
    assert (H : forall l, incl l bs ->
              Forall2 (fun x a => run (GET_ALLOC (HDRP x)) st = Some (Z.b2z a))
                      (map (fun b => fst (fst b)) l) (map flag l)).
    { induction l as [|[[x s] a] l IH]; intros Hl; cbn [map fst flag snd];
        constructor.
      - eapply alloc_block; [exact HI|]. apply Hl. now left.
      - apply IH. intros y Hy. apply Hl. now right. }
    apply H. apply incl_refl.
  - constructor; [apply (alloc_epilogue _ _ _ HI)|constructor].
Qed.

Lemma naf_adjacent l1 a a' l2 :
  naf (l1 ++ a :: a' :: l2) -> ~ (a = false /\ a' = false).
Proof.
  rewrite naf_app. cbn [naf hd]. intros (_ & (H & _) & _) (-> & ->).
  specialize (H eq_refl). discriminate.
Qed.

Lemma naf_walk bs : no_adj_free bs -> naf ((true :: map flag bs) ++ [true]).
Proof.
  intros H. apply naf_app. cbn [naf hd]. repeat split; trivial; discriminate.
Qed.

(** * Properties of the allocator *)

(** X22. In every state reached by [mm_init], [mm_malloc] with requests of
    at most [2^64 - 32] bytes, and [mm_free] of live pointers, and for every
    request [0 < n < 2^64], [mm_malloc] returns the first block of the free
    list, in list order from the head, whose header size is at least the
    adjusted size, and then does not call [mem_sbrk]; when no block of the
    list is large enough it calls [mem_sbrk] exactly once. *)
Theorem malloc_first_fit st live n :
  reachable st live -> 0 < n < 2 ^ 64 ->
  exists fl,
    (forall fuel, (length fl < fuel)%nat -> free_list fuel st = Some (fl, st)) /\
    (forall l1 b l2, fl = l1 ++ b :: l2 ->
       (forall x, In x l1 -> hsize st x < adjusted_size n) ->
       adjusted_size n <= hsize st b ->
       exists st',
         (forall fuel, (length l1 < fuel)%nat ->
            mm_malloc fuel n st = Some (b, st')) /\
         sbrk_calls st' = sbrk_calls st) /\
    ((forall x, In x fl -> hsize st x < adjusted_size n) ->
     exists p st',
       (forall fuel, (length fl < fuel)%nat ->
          mm_malloc fuel n st = Some (p, st')) /\
       sbrk_calls st' = sbrk_calls st + 1).
Proof.
  intros Hr Hn. destruct (reachable_Inv _ _ Hr) as (bs & fl & HI & _).
  exists fl. split; [|split].
  - intros fuel Hf. now apply (free_list_ok _ _ _ HI).
  - intros l1 b l2 Hfl Hsmall Hfit.
    destruct (malloc_hit st bs fl n l1 b l2 HI Hn Hfl Hsmall Hfit)
      as (m' & E & _).
    exists (set_mem st m'). split; [exact E|reflexivity].
  - intros Hsmall.
    destruct (malloc_miss st bs fl n HI Hn Hsmall) as (Hfail & Hgrow).
    destruct (Z_le_gt_dec (mem_brk st + max (adjusted_size n) CHUNKSIZE)
                          (mem_max_addr st)) as [Hfit|Hfull].
    + destruct (Hgrow Hfit) as (cb & m' & E & _).
      eexists cb, _. split; [exact E|reflexivity].
    + eexists NULL, _. split; [exact (Hfail ltac:(lia))|reflexivity].
Qed.

(** X23. In every state reached by [mm_init], [mm_malloc] with requests of
    at most [2^64 - 32] bytes, and [mm_free] of live pointers, placing a
    positive adjusted size [A], a multiple of 16, into a block [b] of the
    free list of size [S >= A]: when [S - A < 32] the whole block is marked
    allocated with size [S] and leaves the list; otherwise the first [A]
    bytes become an allocated block, the remaining [S - A >= 32] bytes a free
    block, which is put at the head of the list. *)
Theorem place_split_floor st live :
  reachable st live ->
  exists fl,
    (forall fuel, (length fl < fuel)%nat -> free_list fuel st = Some (fl, st)) /\
    forall l1 b l2 A, fl = l1 ++ b :: l2 ->
      0 < A <= hsize st b -> A mod 16 = 0 ->
      exists st',
        place b A st = Some (tt, st') /\
        (hsize st b - A < 32 ->
           mem st' (b - 8) = PACK (hsize st b) 1 /\
           mem st' (b + hsize st b - 16) = PACK (hsize st b) 1 /\
           forall fuel, (length (l1 ++ l2) < fuel)%nat ->
             free_list fuel st' = Some (l1 ++ l2, st')) /\
        (32 <= hsize st b - A ->
           mem st' (b - 8) = PACK A 1 /\
           mem st' (b + A - 16) = PACK A 1 /\
           mem st' (b + A - 8) = PACK (hsize st b - A) 0 /\
           mem st' (b + hsize st b - 16) = PACK (hsize st b - A) 0 /\
           forall fuel, (length ((b + A)%Z :: l1 ++ l2) < fuel)%nat ->
             free_list fuel st' = Some ((b + A) :: l1 ++ l2, st')).
Proof.
  intros Hr. destruct (reachable_Inv _ _ Hr) as (bs & fl & HI & _).
  exists fl. split; [intros fuel Hf; now apply (free_list_ok _ _ _ HI)|].
  intros l1 b l2 A -> HA HA16.
  pose proof HI as (Hsh & Hst).
  assert (Hb : In b (l1 ++ b :: l2)) by (apply in_or_app; right; now left).
  apply (sh_mem _ _ _ Hsh) in Hb as (S & Hb).
  rewrite (hsize_block _ _ _ _ _ _ HI Hb) in *.
  pose proof (Shape_block _ _ _ _ _ _ Hsh Hb) as HbS.
  apply in_split in Hb as (pre & post & ->).
  destruct (place_spec st pre post l1 l2 b S A HI ltac:(lia) HA16)
    as (m' & E & Hno & Hsp).
  exists (set_mem st m'). split; [exact E|]. split.
  - intros Hlt. pose proof (Hno Hlt) as HI'.
    pose proof HI' as (_ & Hst').
    destruct (st_tags _ _ _ _ _ Hst' b S true) as (Hh & Hf).
    { apply in_or_app. right. now left. }
    norm. rewrite PACK_1 by lia. repeat split; trivial.
    intros fuel Hf'. now apply (free_list_ok _ _ _ HI').
  - intros Hge. pose proof (Hsp Hge ltac:(lia)) as Hst'.
    destruct (st_tags _ _ _ _ _ Hst' b A true) as (Hh & Hf).
    { apply in_or_app. right. now left. }
    destruct (st_tags _ _ _ _ _ Hst' (b + A) (S - A) false) as (Hh2 & Hf2).
    { apply in_or_app. right. right. now left. }
    replace (b + A + (S - A) - 16) with (b + S - 16) in Hf2 by lia.
    norm. rewrite PACK_1, PACK_0 by lia. repeat split; trivial.
    intros fuel Hf'.
    destruct (around_block _ _ _ _ _ _ _ _ Hsh)
      as (_ & _ & _ & _ & _ & Hout & _).
    pose proof (Shape_region _ _ _ Hsh) as Hreg.
    unfold free_list.
    rewrite (bind_eq _ _ _ _ _ (HEAD_exec (set_mem st m') Hreg)). norm.
    apply list_walk_ok; trivial.
    + intros x [<-|Hx]; [vsolve|]. apply Hout in Hx. vsolve.
    + apply (st_lseg _ _ _ _ _ Hst').
Qed.

(** X24. In every state reached by [mm_init], [mm_malloc] with requests of
    at most [2^64 - 32] bytes, and [mm_free] of live pointers, no two blocks
    that follow one another in the heap walk (prologue, blocks, epilogue)
    both have a clear allocated bit. *)
Theorem no_adjacent_free_blocks st live :
  reachable st live ->
  exists blocks,
    (forall fuel, (length blocks <= fuel)%nat ->
       heap_blocks fuel st = Some (blocks, st)) /\
    forall l1 x y l2, blocks = l1 ++ x :: y :: l2 ->
      ~ (run (GET_ALLOC (HDRP x)) st = Some 0 /\
         run (GET_ALLOC (HDRP y)) st = Some 0).
Proof.
  intros Hr. destruct (reachable_Inv _ _ Hr) as (bs & fl & HI & _).
  exists ((heap_start st :: map (fun b => fst (fst b)) bs) ++ [mem_brk st]).
  split.
  - intros fuel Hf. apply (heap_blocks_ok _ _ _ HI).
    rewrite length_app in Hf. cbn [length] in Hf. rewrite length_map in Hf.
    unfold block in *. lia.
  - intros l1 x y l2 E (Hx & Hy).
    pose proof (walk_flags _ _ _ HI) as HF. rewrite E in HF.
    apply Forall2_app_inv_l in HF as (f1 & f2 & _ & HF & EF).
    inversion HF as [|x' ax l' f2' Hax HF' E1 E2]; subst.
    inversion HF' as [|y' ay l'' f2'' Hay HF'' E1 E2]; subst.
    destruct HI as (Hsh & _).
    pose proof (naf_walk _ (sh_naf _ _ _ Hsh)) as Hn. rewrite EF in Hn.
    apply naf_adjacent in Hn. apply Hn.
    rewrite Hax in Hx. rewrite Hay in Hy.
    destruct ax, ay; cbn in Hx, Hy; try discriminate. now split.
Qed.

(** X25. In every state reached by [mm_init], [mm_malloc] with requests of
    at most [2^64 - 32] bytes, and [mm_free] of live pointers, every block of
    the heap walk, from the prologue to the last block before the epilogue,
    has a header word equal to its footer word. *)
Theorem tag_symmetry st live :
  reachable st live ->
  exists body e,
    (forall fuel, (length body < fuel)%nat ->
       heap_blocks fuel st = Some (body ++ [e], st)) /\
    forall x, In x body ->
      exists h, run (GET (HDRP x)) st = Some h /\
                run (f <- FTRP x ;; GET f) st = Some h.
Proof.
  intros Hr. destruct (reachable_Inv _ _ Hr) as (bs & fl & HI & _).
  exists (heap_start st :: map (fun b => fst (fst b)) bs), (mem_brk st).
  split.
  - intros fuel Hf. apply (heap_blocks_ok _ _ _ HI).
    cbn [length] in Hf. rewrite length_map in Hf. unfold block in *. lia.
  - destruct HI as (Hsh & Hst). pose proof (Shape_region _ _ _ Hsh) as Hreg.
    intros x [<-|Hx].
    + exists 17. rewrite (sh_hs _ _ _ Hsh).
      assert (Hh : mem st (mem_heap st + 16 - 8) = tag 16 true).
      { replace (mem_heap st + 16 - 8) with (mem_heap st + 8) by lia.
        apply (st_pro_h _ _ _ _ _ Hst). }
      split.
      * rewrite HDRP_eq by vsolve. eapply run_eq. rewrite GET_exec by vsolve.
        now rewrite Hh.
      * eapply run_eq. step_FTRP 16 true.
        replace (mem_heap st + 16 + 16 - 16) with (mem_heap st + 16) by lia.
        rewrite GET_exec by vsolve. now rewrite (st_pro_f _ _ _ _ _ Hst).
    + apply in_map_iff in Hx as ([[x' s] a] & <- & Hx). cbn [fst].
      pose proof (Shape_block _ _ _ _ _ _ Hsh Hx) as Hb.
      destruct (st_tags _ _ _ _ _ Hst _ _ _ Hx) as (Hh & Hf).
      exists (tag s a). split.
      * rewrite HDRP_eq by vsolve. eapply run_eq. rewrite GET_exec by vsolve.
        now rewrite Hh.
      * eapply run_eq. step_FTRP s a. rewrite GET_exec by vsolve.
        now rewrite Hf.
Qed.

(** C5. [mm_malloc(0)] returns [NULL] and leaves the state as it was. *)
Theorem C5_malloc_zero fuel st : mm_malloc fuel 0 st = Some (NULL, st).
Proof. reflexivity. Qed.

(** C6 (amended). Right after a successful [mm_init] on a fresh heap,
    [mm_malloc(4000)] needs the adjusted size 4016, which the initial free
    block of at least 4096 bytes holds: the request is served from that block
    without calling [mem_sbrk] and without moving the break. *)
Theorem C6_malloc_4000_after_init st0 st1 :
  fresh st0 -> mm_init st0 = Some (0, st1) ->
  adjusted_size 4000 = 4016 /\
  exists st2,
    (forall fuel, (0 < fuel)%nat ->
       mm_malloc fuel 4000 st1 = Some (mem_heap st0 + 32, st2)) /\
    sbrk_calls st2 = sbrk_calls st1 /\ mem_brk st2 = mem_brk st1.
Proof.
  intros Hf E. split; [reflexivity|].
  pose proof (mm_init_cap _ _ Hf E) as Hcap.
  destruct (mm_init_ok _ Hf Hcap)
    as (st' & bs & fl & cs & E' & HI & Hh & _ & _ & Hin & Hcs & Hhd & _).
  rewrite E in E'. injection E' as <-.
  pose proof HI as (Hsh & _).
  assert (Hfl : In (mem_heap st0 + 32) fl).
  { apply (sh_mem _ _ _ Hsh). now exists cs. }
  destruct fl as [|x l]; [destruct Hfl|]. cbn [hd] in Hhd. subst x.
  destruct (malloc_hit st1 bs _ 4000 [] (mem_heap st0 + 32) l HI
              ltac:(lia) eq_refl) as (m' & Em & _).
  - intros x [].
  - rewrite (hsize_block _ _ _ _ _ _ HI Hin).
    change (adjusted_size 4000) with 4016. lia.
  - exists (set_mem st1 m'). split; [|split; reflexivity].
    intros fuel Hfu. apply Em. cbn [length]. lia.
Qed.

(** The test [coalesce] makes on the block before [b]. *)
Lemma prev_alloc_flag st pre b s a post fl :
  Inv st (pre ++ (b, s, a) :: post) fl ->
  run (pb <- PREV_BLKP b ;; GET_ALLOC (HDRP pb)) st =
  Some (Z.b2z (last (map flag pre) true)).
Proof.
  intros (Hsh & Hst).
  pose proof (Shape_region _ _ _ Hsh) as Hr.
  assert (Hin : In (b, s, a) (pre ++ (b, s, a) :: post))
    by (apply in_or_app; right; now left).
  pose proof (Shape_block _ _ _ _ _ _ Hsh Hin) as Hb.
  pose proof (sh_contig _ _ _ Hsh) as Hc.
  apply contig_app in Hc as (r & Hc1 & Hc2). cbn [contig] in Hc2.
  destruct Hc2 as (<- & _ & _ & Hc2).
  pose proof (st_tags _ _ _ _ _ Hst) as Ht.
  apply tags_app in Ht as (Htpre & _).
  apply run_eq with (st' := st).
  destruct (exists_last_or_nil pre) as [->|(pre0 & [[pb ps] pa] & ->)].
  - cbn [contig] in Hc1.
    assert (Hpf : mem st (b - 16) = tag 16 true).
    { replace (b - 16) with (mem_heap st + 16) by lia.
      apply (st_pro_f _ _ _ _ _ Hst). }
    assert (Hph : mem st (b - 16 - 8) = tag 16 true).
    { replace (b - 16 - 8) with (mem_heap st + 8) by lia.
      apply (st_pro_h _ _ _ _ _ Hst). }
    step_PREV_BLKP 16 true. rewrite HDRP_eq by vsolve.
    apply (GET_ALLOC_exec _ _ 16 true); [vsolve|exact Hph|reflexivity].
  - apply contig_app in Hc1 as (r & Hc0 & Hc1). cbn [contig] in Hc1.
    destruct Hc1 as (<- & Hps & Hps16 & Hpb).
    assert (Hinp : In (pb, ps, pa) (pre0 ++ [(pb, ps, pa)]))
      by (apply in_or_app; right; now left).
    destruct (Htpre _ _ _ Hinp) as (Hph & Hpf).
    assert (Hpb0 : mem_heap st + 32 <= pb) by (apply contig_le in Hc0; lia).
    replace (pb + ps - 16) with (b - 16) in Hpf by lia.
    rewrite map_app. cbn [map flag snd]. rewrite last_last.
    step_PREV_BLKP ps pa. rewrite HDRP_eq by vsolve.
    replace (b - ps - 8) with (pb - 8) by lia.
    apply (GET_ALLOC_exec _ _ ps pa); [vsolve|exact Hph|lia].
Qed.

(** C7 (amended). If [b] is a live block of a reachable state whose
    previous physical block is allocated, then after [mm_free b] every
    request [n > 0] of at most the payload capacity of [b] (its size minus
    16) is served by [mm_malloc] at [b] itself, which lies inside the span the
    block occupied. *)
Theorem C7_reuse_after_free st live b n :
  reachable st live -> In b live ->
  run (pb <- PREV_BLKP b ;; GET_ALLOC (HDRP pb)) st = Some 1 ->
  0 < n <= hsize st b - 16 ->
  exists st1 st2,
    mm_free b st = Some (tt, st1) /\
    (forall fuel, (0 < fuel)%nat -> mm_malloc fuel n st1 = Some (b, st2)) /\
    b - 8 <= b < b - 8 + hsize st b.
Proof.
  intros Hr Hl Hprev Hn.
  destruct (reachable_Inv _ _ Hr) as (bs & fl & HI & Hlive).
  apply Hlive in Hl as (s & Hin).
  rewrite (hsize_block _ _ _ _ _ _ HI Hin) in *.
  pose proof HI as (Hsh & _).
  pose proof (Shape_block _ _ _ _ _ _ Hsh Hin) as Hb.
  apply in_split in Hin as (pre & post & ->).
  rewrite (prev_alloc_flag _ _ _ _ _ _ _ HI) in Hprev.
  assert (Hlast : last (map flag pre) true = true).
  { destruct (last (map flag pre) true); [reflexivity|discriminate]. }
  destruct (mm_free_spec _ _ _ _ _ _ HI)
    as (m' & cb & cs & bs' & fl' & E & HI' & Hcb & Hcs & _ & _ & Hhd).
  destruct (Hhd Hlast) as (-> & Hhd').
  pose proof HI' as (Hsh' & _).
  assert (Hfl : In b fl') by (apply (sh_mem _ _ _ Hsh'); now exists cs).
  destruct fl' as [|x l]; [destruct Hfl|]. cbn [hd] in Hhd'. subst x.
  assert (Hn64 : 0 < n < 2 ^ 64).
  { pose proof (Shape_region _ _ _ Hsh). vsolve. }
  assert (Hrq : request_ok n).
  { pose proof (Shape_region _ _ _ Hsh). unfold request_ok. vsolve. }
  destruct (adjusted_size_ok n ltac:(lia) Hrq) as (_ & _ & _ & HA).
  destruct (malloc_hit (set_mem st m') bs' _ n [] b l HI' Hn64 eq_refl)
    as (m2 & Em & _).
  - intros x [].
  - rewrite (hsize_block _ _ _ _ _ _ HI' Hcb), HA.
    destruct (n <=? 16) eqn:En; lia.
  - exists (set_mem st m'), (set_mem (set_mem st m') m2).
    split; [exact E|]. split; [|lia].
    intros fuel Hfu. apply Em. cbn [length]. lia.
Qed.

(** X26. For a request [0 < n <= 2^64 - 32] the adjusted size is
    32 when [n <= 16] and otherwise [n] rounded up to a multiple of 16, plus
    the overhead of 16; it is a multiple of 16, at least 32 and at least
    [n + 16]. *)
Theorem adjusted_size_rounding n :
  0 < n -> n <= 2 ^ 64 - 32 ->
  adjusted_size n = (if n <=? 16 then 32 else 16 * ((n + 15) / 16) + 16) /\
  adjusted_size n mod 16 = 0 /\ 32 <= adjusted_size n /\
  n + 16 <= adjusted_size n.
Proof.
  intros H0 Hn.
  destruct (adjusted_size_ok n H0 ltac:(unfold request_ok; lia))
    as (Hlo & H16 & Hn16 & E).
  repeat split; trivial; lia.
Qed.

(** X27. In every state reached by [mm_init], [mm_malloc] with requests of
    at most [2^64 - 32] bytes, and [mm_free] of live pointers, the free list
    holds no block twice, and a pointer is on it exactly when it is a block
    of the heap walk whose header has a clear allocated bit. *)
Theorem free_list_consistency st live :
  reachable st live ->
  exists body e fl,
    (forall fuel, (length body < fuel)%nat ->
       heap_blocks fuel st = Some (body ++ [e], st)) /\
    (forall fuel, (length fl < fuel)%nat ->
       free_list fuel st = Some (fl, st)) /\
    NoDup fl /\
    forall b, In b fl <->
              In b body /\ run (GET_ALLOC (HDRP b)) st = Some 0.
Proof.
  intros Hr. destruct (reachable_Inv _ _ Hr) as (bs & fl & HI & _).
  exists (heap_start st :: map (fun b => fst (fst b)) bs), (mem_brk st), fl.
  split; [|split; [|split]].
  - intros fuel Hf. apply (heap_blocks_ok _ _ _ HI).
    cbn [length] in Hf. rewrite length_map in Hf. unfold block in *. lia.
  - intros fuel Hf. now apply (free_list_ok _ _ _ HI).
  - destruct HI as (Hsh & _). apply (sh_nodup _ _ _ Hsh).
  - intros b. pose proof HI as (Hsh & _). rewrite (sh_mem _ _ _ Hsh). split.
    + intros (s & Hb). split.
      * right. apply in_map_iff. now exists (b, s, false).
      * apply (alloc_block _ _ _ _ _ _ HI Hb).
    + intros ([<-|Hb] & Ha).
      * rewrite (alloc_prologue _ _ _ HI) in Ha. discriminate.
      * apply in_map_iff in Hb as ([[x s] a] & <- & Hb). cbn [fst] in *.
        rewrite (alloc_block _ _ _ _ _ _ HI Hb) in Ha.
        destruct a; [discriminate|]. now exists s.
Qed.

(** X28. In every state reached by [mm_init], [mm_malloc] with requests of
    at most [2^64 - 32] bytes, and [mm_free] of live pointers, every
    non-[NULL] pointer that [mm_malloc] returns, for a request of any size,
    lies at a multiple of 16 from the base of the region. *)
Theorem malloc_alignment st live fuel n p st' :
  reachable st live -> 0 <= n < 2 ^ 64 ->
  mm_malloc fuel n st = Some (p, st') -> p <> NULL ->
  (p - mem_heap st) mod 16 = 0.
Proof.
  intros Hr Hn E Hp.
  destruct (Z.eq_dec n 0) as [->|Hn0].
  { rewrite mm_malloc_zero in E. injection E as <- _. now destruct Hp. }
  destruct (reachable_Inv _ _ Hr) as (bs & fl & HI & _).
  destruct (malloc_total st bs fl n HI ltac:(lia))
    as (fuel0 & p0 & st0' & Et & _ & Hal & _).
  pose proof (mm_malloc_mono fuel (Nat.max fuel fuel0) n st _
                (Nat.le_max_l _ _) E) as E1.
  rewrite (Et _ (Nat.le_max_r _ _)) in E1. injection E1 as -> _.
  destruct Hal as [->|Hal]; [now destruct Hp|exact Hal].
Qed.

(** * Concrete runs

    The state a script ends in is reachable, which lets the theorems above
    be applied to concrete heaps. *)

Lemma freshb_fresh st : freshb st = true -> fresh st.
Proof.
  unfold freshb, fresh. rewrite !andb_true_iff.
  rewrite Z.ltb_lt, !Z.leb_le, !Z.eqb_eq. tauto.
Qed.

Lemma run_ops_reachable (ok : Z -> Prop) (okb : Z -> bool) fuel :
  (forall n, okb n = true -> ok n) ->
  forall ops st live st' live',
    reachable_with ok st live -> requests_ok okb ops = true ->
    run_ops fuel ops st live = Some (st', live') ->
    reachable_with ok st' live'.
Proof.
  intros Hok. induction ops as [|[n|p] r IH]; intros st live st' live' Hr Hb E.
  - injection E as <- <-. exact Hr.
  - cbn [requests_ok forallb] in Hb. apply andb_true_iff in Hb as (Hn & Hb).
    cbn [run_ops] in E.
    destruct (mm_malloc fuel n st) as [[q st1]|] eqn:Em; [|discriminate].
    eapply IH; [|exact Hb|exact E].
    eapply reach_malloc; eauto.
  - cbn [requests_ok forallb] in Hb. cbn [run_ops] in E.
    destruct (in_dec Z.eq_dec p live) as [Hin|]; [|discriminate].
    destruct (mm_free p st) as [[[] st1]|] eqn:Ef; [|discriminate].
    eapply IH; [|exact Hb|exact E].
    eapply reach_free; eauto.
Qed.

Lemma run_from_reachable (ok : Z -> Prop) (okb : Z -> bool) fuel st0 ops :
  (forall n, okb n = true -> ok n) ->
  freshb st0 = true -> requests_ok okb ops = true ->
  runs fuel st0 ops = true ->
  reachable_with ok (state_after fuel st0 ops) (live_after fuel st0 ops).
Proof.
  intros Hok Hf Hb Hs. unfold runs in Hs. unfold state_after, live_after.
  destruct (run_from fuel st0 ops) as [[st live]|] eqn:E; [|discriminate].
  unfold run_from in E.
  destruct (mm_init st0) as [[r st1]|] eqn:Ei; [|discriminate].
  destruct (Z.eqb_spec r 0) as [->|]; [|discriminate].
  eapply run_ops_reachable; [exact Hok| |exact Hb|exact E].
  eapply reach_init; [apply freshb_fresh; exact Hf|exact Ei].
Qed.

Lemma request_okb_ok n : request_okb n = true -> request_ok n.
Proof. unfold request_okb, request_ok. lia. Qed.

Lemma size_tb_ok n : size_tb n = true -> size_t n.
Proof. unfold size_tb, size_t. lia. Qed.

Lemma script_reachable fuel st0 ops :
  freshb st0 = true -> requests_ok request_okb ops = true ->
  runs fuel st0 ops = true ->
  reachable (state_after fuel st0 ops) (live_after fuel st0 ops).
Proof. apply run_from_reachable, request_okb_ok. Qed.

Lemma script_reachable_any fuel st0 ops :
  freshb st0 = true -> requests_ok size_tb ops = true ->
  runs fuel st0 ops = true ->
  reachable_any (state_after fuel st0 ops) (live_after fuel st0 ops).
Proof. apply run_from_reachable, size_tb_ok. Qed.

Ltac by_eval := vm_compute; reflexivity.

Lemma heap_init_reachable : reachable heap_init [].
Proof. apply (script_reachable 8 heap0 []); by_eval. Qed.

Lemma heap_hole_reachable : reachable heap_hole [4160].
Proof. apply (script_reachable 8 heap0 script_hole); by_eval. Qed.

Lemma heap_pair_reachable : reachable heap_pair [4160; 4128].
Proof. apply (script_reachable 8 heap0 script_pair); by_eval. Qed.

Lemma heap_gap_reachable : reachable heap_gap [4160].
Proof. apply (script_reachable 8 heap0 script_gap); by_eval. Qed.

Lemma heap_wrap16_reachable : reachable_any heap_wrap16 [4144].
Proof. apply (script_reachable_any 8 heap0 script_wrap16); by_eval. Qed.

Lemma heap_wrap0_reachable : reachable_any heap_wrap0 [4128].
Proof. apply (script_reachable_any 8 heap0 script_wrap0); by_eval. Qed.


Lemma heap_skewed_reachable : reachable_any heap_skewed [4160].
Proof. apply (script_reachable_any 8 heap_dirty script_dirty); by_eval. Qed.

(** * Instances and counterexamples *)

(** X22 on the heap with a freed first block, for a request of 8 bytes. *)
Lemma malloc_first_fit_witness :
  reachable heap_hole [4160] /\ 0 < 8 < 2 ^ 64 /\
  exists fl,
    (forall fuel, (length fl < fuel)%nat ->
       free_list fuel heap_hole = Some (fl, heap_hole)) /\
    (forall l1 b l2, fl = l1 ++ b :: l2 ->
       (forall x, In x l1 -> hsize heap_hole x < adjusted_size 8) ->
       adjusted_size 8 <= hsize heap_hole b ->
       exists st',
         (forall fuel, (length l1 < fuel)%nat ->
            mm_malloc fuel 8 heap_hole = Some (b, st')) /\
         sbrk_calls st' = sbrk_calls heap_hole) /\
    ((forall x, In x fl -> hsize heap_hole x < adjusted_size 8) ->
     exists p st',
       (forall fuel, (length fl < fuel)%nat ->
          mm_malloc fuel 8 heap_hole = Some (p, st')) /\
       sbrk_calls st' = sbrk_calls heap_hole + 1).
Proof.
  split; [exact heap_hole_reachable|]. split; [lia|].
  apply (malloc_first_fit heap_hole [4160] 8); [exact heap_hole_reachable|lia].
Defined.


(** X23 on the heap right after initialisation. *)
Lemma place_split_floor_witness :
  reachable heap_init [] /\
  exists fl,
    (forall fuel, (length fl < fuel)%nat ->
       free_list fuel heap_init = Some (fl, heap_init)) /\
    forall l1 b l2 A, fl = l1 ++ b :: l2 ->
      0 < A <= hsize heap_init b -> A mod 16 = 0 ->
      exists st',
        place b A heap_init = Some (tt, st') /\
        (hsize heap_init b - A < 32 ->
           mem st' (b - 8) = PACK (hsize heap_init b) 1 /\
           mem st' (b + hsize heap_init b - 16) = PACK (hsize heap_init b) 1 /\
           forall fuel, (length (l1 ++ l2) < fuel)%nat ->
             free_list fuel st' = Some (l1 ++ l2, st')) /\
        (32 <= hsize heap_init b - A ->
           mem st' (b - 8) = PACK A 1 /\
           mem st' (b + A - 16) = PACK A 1 /\
           mem st' (b + A - 8) = PACK (hsize heap_init b - A) 0 /\
           mem st' (b + hsize heap_init b - 16) = PACK (hsize heap_init b - A) 0 /\
           forall fuel, (length ((b + A)%Z :: l1 ++ l2) < fuel)%nat ->
             free_list fuel st' = Some ((b + A) :: l1 ++ l2, st')).
Proof.
  split; [exact heap_init_reachable|].
  apply (place_split_floor heap_init []). exact heap_init_reachable.
Defined.

(** C2, as stated, at the adjusted size 0 that [mm_malloc] computes for a
    request of [2^64 - 31] bytes: in the initial free block of 4096 bytes the
    remainder is above the floor, yet the block [place] puts on the free list
    carries the header word 1 (size 0, allocated) instead of a free tag of
    4096 bytes, and the footer of the prologue is overwritten. *)
Lemma C2_place_counterexample :
  reachable_any heap_init [] /\
  free_list 2 heap_init = Some ([4128], heap_init) /\
  hsize heap_init 4128 = 4096 /\
  adjusted_size (2 ^ 64 - 31) = 0 /\ 0 <= 4096 /\ 32 <= 4096 - 0 /\
  exists st',
    place 4128 0 heap_init = Some (tt, st') /\
    free_list 2 st' = Some ([4128 + 0], st') /\
    mem st' (4128 + 0 - 8) = 1 /\
    mem st' (4128 + 0 - 8) <> PACK (4096 - 0) 0 /\
    mem heap_init (mem_heap heap_init + 16) = PACK 16 1 /\
    mem st' (mem_heap heap_init + 16) = 1.
Proof.
  split; [apply (script_reachable_any 8 heap0 []); by_eval|].
  split; [by_eval|]. split; [by_eval|]. split; [by_eval|].
  split; [lia|]. split; [lia|].
  eexists. split; [by_eval|].
  split; [by_eval|]. split; [by_eval|]. split; [vm_compute; discriminate|].
  split; by_eval.
Qed.

(** X24 on the heap with a freed first block. *)
Lemma no_adjacent_free_blocks_witness :
  reachable heap_hole [4160] /\
  exists blocks,
    (forall fuel, (length blocks <= fuel)%nat ->
       heap_blocks fuel heap_hole = Some (blocks, heap_hole)) /\
    forall l1 x y l2, blocks = l1 ++ x :: y :: l2 ->
      ~ (run (GET_ALLOC (HDRP x)) heap_hole = Some 0 /\
         run (GET_ALLOC (HDRP y)) heap_hole = Some 0).
Proof.
  split; [exact heap_hole_reachable|].
  apply (no_adjacent_free_blocks heap_hole [4160]). exact heap_hole_reachable.
Defined.

(** C3, as stated, after [a = mm_malloc(2^64 - 1)], [b = mm_malloc(16)],
    [mm_free(a)]: the block [a] gets 16 bytes, and the link words of the freed
    [a] overwrite the header of [b].  The walk over the heap then meets two
    neighbours, 4128 and 4144, whose headers both say free. *)
Lemma C3_no_adjacent_free_counterexample :
  reachable_any heap_wrap16 [4144] /\
  heap_blocks 8 heap_wrap16 = Some ([4112; 4128; 4144], heap_wrap16) /\
  run (NEXT_BLKP 4128) heap_wrap16 = Some 4144 /\
  run (GET_ALLOC (HDRP 4128)) heap_wrap16 = Some 0 /\
  run (GET_ALLOC (HDRP 4144)) heap_wrap16 = Some 0.
Proof.
  split; [exact heap_wrap16_reachable|]. repeat split; by_eval.
Qed.

(** X25 on the heap with a freed first block. *)
Lemma tag_symmetry_witness :
  reachable heap_hole [4160] /\
  exists body e,
    (forall fuel, (length body < fuel)%nat ->
       heap_blocks fuel heap_hole = Some (body ++ [e], heap_hole)) /\
    forall x, In x body ->
      exists h, run (GET (HDRP x)) heap_hole = Some h /\
                run (f <- FTRP x ;; GET f) heap_hole = Some h.
Proof.
  split; [exact heap_hole_reachable|].
  apply (tag_symmetry heap_hole [4160]). exact heap_hole_reachable.
Defined.

(** C4, as stated, after the single call [mm_malloc(2^64 - 31)]: the
    adjusted size is 0, so the footer [place] writes for the new block lands
    on the footer of the prologue, whose header still reads 17 while its
    footer reads 1. *)
Lemma C4_tag_symmetry_counterexample :
  reachable_any heap_wrap0 [4128] /\
  heap_blocks 8 heap_wrap0 = Some ([4112] ++ [4128], heap_wrap0) /\
  heap_start heap_wrap0 = 4112 /\
  run (GET (HDRP 4112)) heap_wrap0 = Some 17 /\
  run (f <- FTRP 4112 ;; GET f) heap_wrap0 = Some 1.
Proof.
  split; [exact heap_wrap0_reachable|]. repeat split; by_eval.
Qed.

(** C6 on the zeroed 20 MB region. *)
Lemma C6_malloc_4000_after_init_witness :
  fresh heap0 /\ mm_init heap0 = Some (0, heap_init) /\
  adjusted_size 4000 = 4016 /\
  exists st2,
    (forall fuel, (0 < fuel)%nat ->
       mm_malloc fuel 4000 heap_init = Some (mem_heap heap0 + 32, st2)) /\
    sbrk_calls st2 = sbrk_calls heap_init /\ mem_brk st2 = mem_brk heap_init.
Proof.
  assert (Hf : fresh heap0) by (apply freshb_fresh; by_eval).
  assert (Hi : mm_init heap0 = Some (0, heap_init)) by by_eval.
  split; [exact Hf|]. split; [exact Hi|].
  exact (C6_malloc_4000_after_init heap0 heap_init Hf Hi).
Defined.

(** C6, as stated: on the freshly initialised heap, whose initial extension
    is 4096 bytes, [mm_malloc(4000)] is served from the initial free block;
    [mem_sbrk] is not called and the break does not move. *)
Lemma C6_malloc_4000_counterexample :
  fresh heap0 /\
  exists st1 st2,
    mm_init heap0 = Some (0, st1) /\
    hsize st1 4128 = 4096 /\
    mm_malloc 8 4000 st1 = Some (4128, st2) /\
    sbrk_calls st2 = sbrk_calls st1 /\ mem_brk st2 = mem_brk st1.
Proof.
  split; [apply freshb_fresh; by_eval|].
  eexists. eexists. split; [by_eval|]. split; [by_eval|].
  split; [by_eval|]. split; by_eval.
Qed.

(** C7 for the second of two live 16-byte blocks and a request of 16
    bytes. *)
Lemma C7_reuse_after_free_witness :
  reachable heap_pair [4160; 4128] /\ In 4160 [4160; 4128] /\
  run (pb <- PREV_BLKP 4160 ;; GET_ALLOC (HDRP pb)) heap_pair = Some 1 /\
  0 < 16 <= hsize heap_pair 4160 - 16 /\
  exists st1 st2,
    mm_free 4160 heap_pair = Some (tt, st1) /\
    (forall fuel, (0 < fuel)%nat -> mm_malloc fuel 16 st1 = Some (4160, st2)) /\
    4160 - 8 <= 4160 < 4160 - 8 + hsize heap_pair 4160.
Proof.
  assert (Hin : In 4160 [4160; 4128]) by (now left).
  assert (Hp : run (pb <- PREV_BLKP 4160 ;; GET_ALLOC (HDRP pb)) heap_pair
               = Some 1) by by_eval.
  assert (Hh : hsize heap_pair 4160 = 32) by by_eval.
  assert (Hn : 0 < 16 <= hsize heap_pair 4160 - 16) by (rewrite Hh; lia).
  split; [exact heap_pair_reachable|]. split; [exact Hin|].
  split; [exact Hp|]. split; [exact Hn|].
  exact (C7_reuse_after_free heap_pair [4160; 4128] 4160 16
           heap_pair_reachable Hin Hp Hn).
Defined.

(** C7, as stated, in a heap where the block before [B = 4160] is free:
    [mm_free(B)] merges [B] into that block, and the following
    [mm_malloc(16)] returns 4128, the start of the merged block, which lies
    below the span [4152, 4184) that [B] occupied. *)
Lemma C7_reuse_after_free_counterexample :
  reachable heap_gap [4160] /\ In 4160 [4160] /\
  hsize heap_gap 4160 = 32 /\ 0 < 16 <= 32 - 16 /\
  exists st1 st2,
    mm_free 4160 heap_gap = Some (tt, st1) /\
    mm_malloc 8 16 st1 = Some (4128, st2) /\
    4128 < 4160 - 8.
Proof.
  split; [exact heap_gap_reachable|]. split; [now left|].
  split; [by_eval|]. split; [lia|].
  eexists. eexists. split; [by_eval|]. split; [by_eval|lia].
Qed.

(** X26 for a request of 100 bytes. *)
Lemma adjusted_size_rounding_witness :
  0 < 100 /\ 100 <= 2 ^ 64 - 32 /\
  adjusted_size 100 = (if 100 <=? 16 then 32 else 16 * ((100 + 15) / 16) + 16) /\
  adjusted_size 100 mod 16 = 0 /\ 32 <= adjusted_size 100 /\
  100 + 16 <= adjusted_size 100.
Proof.
  split; [lia|]. split; [lia|]. apply (adjusted_size_rounding 100); lia.
Defined.

(** C8, as stated, at [n = 2^64 - 1]: the sum [n + 16 + 15] wraps around,
    and the adjusted size is 16, below the floor of 32 and below [n]. *)
Lemma C8_adjusted_size_counterexample :
  0 < 2 ^ 64 - 1 < 2 ^ 64 /\ adjusted_size (2 ^ 64 - 1) = 16 /\
  adjusted_size (2 ^ 64 - 1) < 32 /\
  16 * ((2 ^ 64 - 1 + 15) / 16) + 16 = 2 ^ 64 + 16.
Proof.
  split; [lia|]. repeat split; by_eval.
Qed.

(** X27 on the heap with a freed first block. *)
Lemma free_list_consistency_witness :
  reachable heap_hole [4160] /\
  exists body e fl,
    (forall fuel, (length body < fuel)%nat ->
       heap_blocks fuel heap_hole = Some (body ++ [e], heap_hole)) /\
    (forall fuel, (length fl < fuel)%nat ->
       free_list fuel heap_hole = Some (fl, heap_hole)) /\
    NoDup fl /\
    forall b, In b fl <->
      In b body /\ run (GET_ALLOC (HDRP b)) heap_hole = Some 0.
Proof.
  split; [exact heap_hole_reachable|].
  apply (free_list_consistency heap_hole [4160]). exact heap_hole_reachable.
Defined.

(** C9, as stated, after the single call [mm_malloc(2^64 - 31)]: the
    returned block 4128 is on the free list while its header marks it
    allocated. *)
Lemma C9_list_consistency_counterexample :
  reachable_any heap_wrap0 [4128] /\
  free_list 8 heap_wrap0 = Some ([4128], heap_wrap0) /\
  run (GET_ALLOC (HDRP 4128)) heap_wrap0 = Some 1.
Proof.
  split; [exact heap_wrap0_reachable|]. split; by_eval.
Qed.

(** X28 for the first allocation after initialisation. *)
Lemma malloc_alignment_witness :
  reachable heap_init [] /\ 0 <= 8 < 2 ^ 64 /\
  mm_malloc 5 8 heap_init = Some (4128, state_after 5 heap0 [Malloc 8]) /\
  4128 <> NULL /\ (4128 - mem_heap heap_init) mod 16 = 0.
Proof.
  assert (Hn : 0 <= 8 < 2 ^ 64) by lia.
  assert (Hm : mm_malloc 5 8 heap_init
               = Some (4128, state_after 5 heap0 [Malloc 8])) by by_eval.
  assert (Hp : 4128 <> NULL) by discriminate.
  split; [exact heap_init_reachable|]. split; [exact Hn|].
  split; [exact Hm|]. split; [exact Hp|].
  exact (malloc_alignment heap_init [] 5 8 4128 _ heap_init_reachable Hn Hm Hp).
Defined.

(** C10, as stated, in a region whose fresh memory is not zero: after a
    request of [2^64 - 31] bytes (adjusted size 0) and two frees, a request
    of 5000 bytes makes [find_fit] follow a link into memory the allocator
    never wrote, and the next [mm_malloc(16)] returns 10104, whose offset in
    the region is 8 modulo 16. *)
Lemma C10_alignment_counterexample :
  freshb heap_dirty = true /\
  reachable_any heap_skewed [4160] /\ 0 <= 16 < 2 ^ 64 /\
  exists st',
    mm_malloc 8 16 heap_skewed = Some (10104, st') /\
    10104 <> NULL /\ (10104 - mem_heap heap_skewed) mod 16 = 8.
Proof.
  split; [by_eval|]. split; [exact heap_skewed_reachable|]. split; [lia|].
  eexists. split; [by_eval|]. split; [discriminate|by_eval].
Qed.

(** * Further properties *)

(** ** Operations that only touch memory *)

Lemma same_region_refl st : same_region st st.
Proof. unfold same_region. tauto. Qed.

Lemma same_region_trans st1 st2 st3 :
  same_region st1 st2 -> same_region st2 st3 -> same_region st1 st3.
Proof. unfold same_region. intuition congruence. Qed.

Lemma bind_inv {A B} (m : M A) (f : A -> M B) st r :
  bind m f st = Some r -> exists a st1, m st = Some (a, st1) /\ f a st1 = Some r.
Proof.
  unfold bind. destruct (m st) as [[a st1]|]; [|discriminate].
  intros H. now exists a, st1.
Qed.

Lemma keeps_ret {A} (a : A) : keeps (ret a).
Proof. intros st x st' H. injection H as _ <-. apply same_region_refl. Qed.

Lemma keeps_fail {A} : keeps (@fail A).
Proof. intros st x st' H. discriminate. Qed.

Lemma keeps_bind {A B} (m : M A) (f : A -> M B) :
  keeps m -> (forall a, keeps (f a)) -> keeps (bind m f).
Proof.
  intros Hm Hf st b st' H. apply bind_inv in H as (a & st1 & H1 & H2).
  eapply same_region_trans; [eapply Hm|eapply Hf]; eassumption.
Qed.

Lemma keeps_GET p : keeps (GET p).
Proof.
  intros st a st' H. unfold GET in H.
  destruct (valid_addr st p); [|discriminate].
  injection H as _ <-. apply same_region_refl.
Qed.

Lemma keeps_PUT p v : keeps (PUT p v).
Proof.
  intros st a st' H. unfold PUT in H.
  destruct (valid_addr st p); [|discriminate].
  injection H as _ <-. unfold same_region. cbn. tauto.
Qed.

Lemma keeps_HEAD_PTR : keeps HEAD_PTR.
Proof. intros st a st' H. injection H as _ <-. apply same_region_refl. Qed.

Ltac keeps_step :=
  match goal with
  | |- keeps (bind _ _) => apply keeps_bind; [|intros]
  | |- keeps (ret _) => apply keeps_ret
  | |- keeps fail => apply keeps_fail
  | |- keeps (GET _) => apply keeps_GET
  | |- keeps (PUT _ _) => apply keeps_PUT
  | |- keeps HEAD_PTR => apply keeps_HEAD_PTR
  | |- keeps (if ?c then _ else _) => destruct c
  | |- keeps (let _ := _ in _) => cbv zeta
  | H : _ |- keeps _ => apply H
  end.

Ltac keeps_tac := repeat keeps_step.

Lemma keeps_GET_SIZE p : keeps (GET_SIZE p).
Proof. unfold GET_SIZE. keeps_tac. Qed.

Lemma keeps_GET_ALLOC p : keeps (GET_ALLOC p).
Proof. unfold GET_ALLOC. keeps_tac. Qed.

Lemma keeps_FTRP bp : keeps (FTRP bp).
Proof. unfold FTRP, GET_SIZE. keeps_tac. Qed.

Lemma keeps_NEXT_BLKP bp : keeps (NEXT_BLKP bp).
Proof. unfold NEXT_BLKP, GET_SIZE. keeps_tac. Qed.

Lemma keeps_PREV_BLKP bp : keeps (PREV_BLKP bp).
Proof. unfold PREV_BLKP, GET_SIZE. keeps_tac. Qed.

Lemma keeps_HEAD : keeps HEAD.
Proof. unfold HEAD. keeps_tac. Qed.

Lemma keeps_add_to_list bp : keeps (add_to_list bp).
Proof.
  pose proof keeps_HEAD. unfold add_to_list. keeps_tac.
Qed.

Lemma keeps_remove_from_list bp : keeps (remove_from_list bp).
Proof.
  pose proof keeps_HEAD.
  unfold remove_from_list, NEXT_FREE_BLKP, PREV_FREE_BLKP. keeps_tac.
Qed.

Lemma keeps_place bp asize : keeps (place bp asize).
Proof.
  pose proof keeps_GET_SIZE. pose proof keeps_FTRP.
  pose proof keeps_remove_from_list. pose proof keeps_add_to_list.
  unfold place. keeps_tac.
Qed.

Lemma keeps_coalesce bp : keeps (coalesce bp).
Proof.
  pose proof keeps_GET_SIZE. pose proof keeps_GET_ALLOC. pose proof keeps_FTRP.
  pose proof keeps_NEXT_BLKP. pose proof keeps_PREV_BLKP.
  pose proof keeps_remove_from_list. pose proof keeps_add_to_list.
  unfold coalesce. keeps_tac.
Qed.

Lemma keeps_find_fit_from fuel asize : forall bp, keeps (find_fit_from fuel asize bp).
Proof.
  pose proof keeps_GET_SIZE.
  induction fuel as [|fuel IH]; intros bp; cbn [find_fit_from];
    unfold NEXT_FREE_BLKP; keeps_tac.
Qed.

Lemma keeps_find_fit fuel asize : keeps (find_fit fuel asize).
Proof.
  pose proof keeps_HEAD. pose proof (keeps_find_fit_from fuel asize).
  unfold find_fit. keeps_tac.
Qed.

Lemma keeps_mm_free bp : keeps (mm_free bp).
Proof.
  pose proof keeps_GET_SIZE. pose proof keeps_FTRP. pose proof keeps_coalesce.
  unfold mm_free. keeps_tac.
Qed.

(** The size [extend_heap] asks [mem_sbrk] for. *)
Lemma extend_heap_region words st bp st' :
  extend_heap words st = Some (bp, st') ->
  let size := if words mod 2 =? 1 then wrap (wrap (words * WSIZE) + WSIZE)
              else wrap (words * WSIZE) in
  mem_heap st' = mem_heap st /\ mem_max_addr st' = mem_max_addr st /\
  heap_start st' = heap_start st /\ sbrk_calls st' = sbrk_calls st + 1 /\
  (mem_brk st' = mem_brk st \/ mem_brk st' = mem_brk st + size).
Proof.
  intros E size. unfold extend_heap in E. fold size in E.
  apply bind_inv in E as (p & st1 & Es & E).
  assert (H1 : mem_heap st1 = mem_heap st /\ mem_max_addr st1 = mem_max_addr st /\
               heap_start st1 = heap_start st /\
               sbrk_calls st1 = sbrk_calls st + 1 /\
               (mem_brk st1 = mem_brk st \/ mem_brk st1 = mem_brk st + size)).
  { unfold mem_sbrk in Es. destruct (mem_brk st + size <=? mem_max_addr st);
      injection Es as _ <-; cbn; tauto. }
  assert (Hk : same_region st1 st').
  { destruct (2 ^ 63 <=? p).
    - injection E as _ <-. apply same_region_refl.
    - assert (K : keeps (PUT (HDRP p) (PACK size 0) ;;
                         f <- FTRP p ;; PUT f (PACK size 0) ;;
                         nb <- NEXT_BLKP p ;; PUT (HDRP nb) (PACK 0 1) ;;
                         coalesce p)).
      { pose proof keeps_FTRP. pose proof keeps_NEXT_BLKP.
        pose proof keeps_coalesce. keeps_tac. }
      exact (K _ _ _ E). }
  unfold same_region in Hk. intuition congruence.
Qed.

(** X1. In any state and for any pointer, a call of [mm_free] that returns
    has changed nothing but memory contents: the break, the bounds of the
    region, [heap_start] and the number of [mem_sbrk] calls are as before.
    The heap never shrinks. *)
Theorem free_keeps_region bp st r st' :
  mm_free bp st = Some (r, st') -> same_region st st'.
Proof. apply keeps_mm_free. Qed.

(** X2. In any state, a call of [mm_malloc] that returns has called
    [mem_sbrk] at most once, has not moved the base of the region or
    [heap_start], and has either left the break where it was or raised it by
    the larger of the adjusted size and [CHUNKSIZE]. *)
Theorem malloc_growth fuel n st p st' :
  0 <= n < 2 ^ 64 ->
  mm_malloc fuel n st = Some (p, st') ->
  mem_heap st' = mem_heap st /\ mem_max_addr st' = mem_max_addr st /\
  heap_start st' = heap_start st /\
  ((sbrk_calls st' = sbrk_calls st /\ mem_brk st' = mem_brk st) \/
   (sbrk_calls st' = sbrk_calls st + 1 /\
    (mem_brk st' = mem_brk st \/
     mem_brk st' = mem_brk st + max (adjusted_size n) CHUNKSIZE))).
Proof.
  intros Hn E. unfold mm_malloc in E.
  destruct (Z.leb_spec n 0) as [H0|H0].
  { injection E as _ <-. tauto. }
  apply bind_inv in E as (bp & st1 & Ef & E).
  pose proof (keeps_find_fit _ _ _ _ _ Ef) as K1.
  destruct (negb (bp =? NULL)).
  - apply bind_inv in E as ([] & st2 & Ep & E). injection E as _ <-.
    pose proof (keeps_place _ _ _ _ _ Ep) as K2.
    unfold same_region in *. intuition congruence.
  - apply bind_inv in E as (bp' & st2 & Ee & E).
    pose proof (extend_heap_region _ _ _ _ Ee) as K2. cbv zeta in K2.
    assert (K3 : same_region st2 st').
    { destruct (bp' =? NULL).
      - injection E as _ <-. apply same_region_refl.
      - apply bind_inv in E as ([] & st3 & Ep & E). injection E as _ <-.
        exact (keeps_place _ _ _ _ _ Ep). }
    assert (Hsz : (if max (adjusted_size n) CHUNKSIZE / WSIZE mod 2 =? 1
                   then wrap (wrap (max (adjusted_size n) CHUNKSIZE / WSIZE * WSIZE) + WSIZE)
                   else wrap (max (adjusted_size n) CHUNKSIZE / WSIZE * WSIZE))
                  = max (adjusted_size n) CHUNKSIZE).
    { destruct (adjusted_size_any n ltac:(lia)) as (HA & HA16).
      set (A := adjusted_size n) in *.
      assert (Hm : 4096 <= max A CHUNKSIZE < 2 ^ 64 /\ max A CHUNKSIZE mod 16 = 0).
      { unfold max, CHUNKSIZE. change (Z.shiftl 1 12) with 4096.
        destruct (Z.ltb_spec 4096 A); lia. }
      set (e := max A CHUNKSIZE) in *. unfold WSIZE.
      replace (e / 8 mod 2 =? 1) with false by (symmetry; apply Z.eqb_neq; lia).
      rewrite wrap_small by lia. lia. }
    rewrite Hsz in K2.
    unfold same_region in *. intuition congruence.
Qed.

(** ** Initialisation *)

Lemma mm_init_refused st0 :
  fresh st0 ->
  mem_heap st0 + 32 <= mem_max_addr st0 < mem_heap st0 + 4128 ->
  exists st', mm_init st0 = Some (-1, st') /\
    mem_brk st' = mem_heap st0 + 32 /\ sbrk_calls st' = sbrk_calls st0 + 2.
Proof.
  destruct st0 as [m base brk mx calls hs]. unfold fresh. norm.
  intros (Hbase & -> & Hle & Hmx & ->) Hcap.
  eexists. split.
  { unfold mm_init, WSIZE, DSIZE, OVERHEAD, CHUNKSIZE.
    change (Z.shiftl 1 12 / 8) with 512. change (4 * 8) with 32.
    change (8 + 16) with 24. change (PACK 16 1) with 17.
    change (PACK 0 1) with 1.
    step_sbrk_ok.
    unfold grown. norm. unfold bind at 1.
    replace (base =? NULL) with false
      by (symmetry; apply Z.eqb_neq; unfold NULL; lia).
    unfold set_heap_start. norm.
    rewrite !PADD_eq by lia.
    step_PUT. step_PUT. step_PUT. step_PUT.
    unfold bind at 1. norm. unfold extend_heap, WSIZE.
    change (512 mod 2 =? 1) with false. change (wrap (512 * 8)) with 4096.
    cbv iota. rewrite bind_assoc.
    step_sbrk_refused.
    change (2 ^ 63 <=? wrap (-1)) with true. cbv iota.
    step_ret. reflexivity. }
  unfold refused. norm. split; lia.
Qed.

Lemma contig_single p bs q s a :
  contig p bs q -> In (p, s, a) bs -> q <= p + s -> bs = [(p, s, a)].
Proof.
  destruct bs as [|[[b0 s0] a0] r]; [intros _ []|].
  cbn [contig]. intros (-> & Hs0 & _ & Hc) Hi Hq.
  pose proof (contig_le _ _ _ Hc) as Hle.
  destruct Hi as [Hi|Hi].
  - injection Hi as <- <-. destruct r as [|[[b1 s1] a1] r']; [reflexivity|].
    cbn [contig] in Hc. destruct Hc as (_ & Hs1 & _ & Hc).
    apply contig_le in Hc. lia.
  - pose proof (contig_in _ _ _ _ _ _ Hc Hi). lia.
Qed.

(** X3. On a fresh region that can hold 4128 bytes, [mm_init] returns 0
    after two calls of [mem_sbrk]; the heap then consists of the prologue at
    offset 16, one free block of 4096 bytes at offset 32 and the epilogue at
    offset 4128, and the free list holds that one block. *)
Theorem init_layout st0 :
  fresh st0 -> mem_heap st0 + 4128 <= mem_max_addr st0 ->
  exists st,
    mm_init st0 = Some (0, st) /\
    mem_heap st = mem_heap st0 /\ heap_start st = mem_heap st0 + 16 /\
    mem_brk st = mem_heap st0 + 4128 /\ sbrk_calls st = sbrk_calls st0 + 2 /\
    (forall fuel, (3 <= fuel)%nat ->
       heap_blocks fuel st =
       Some ([mem_heap st0 + 16; mem_heap st0 + 32; mem_heap st0 + 4128], st)) /\
    (forall fuel, (2 <= fuel)%nat ->
       free_list fuel st = Some ([mem_heap st0 + 32], st)) /\
    run (GET (HDRP (mem_heap st0 + 32))) st = Some (PACK 4096 0).
Proof.
  intros Hf Hcap.
  destruct (mm_init_ok _ Hf Hcap)
    as (st & bs & fl & cs & E & HI & Hh & Hcalls & Hbrk & Hin & Hcs & _ & _).
  exists st. split; [exact E|].
  pose proof HI as (Hsh & Hst).
  pose proof (sh_contig _ _ _ Hsh) as Hc. rewrite Hh, Hbrk in Hc.
  pose proof (contig_in _ _ _ _ _ _ Hc Hin) as Hb.
  assert (Hbs : bs = [(mem_heap st0 + 32, cs, false)])
    by (apply (contig_single _ _ _ _ _ Hc Hin); lia).
  assert (cs = 4096) by lia. subst cs bs.
  assert (Hfl : fl = [mem_heap st0 + 32]).
  { pose proof (sh_nodup _ _ _ Hsh) as Hnd.
    pose proof (sh_mem _ _ _ Hsh) as Hm.
    destruct fl as [|x l].
    - exfalso. apply (Hm (mem_heap st0 + 32)). exists 4096. now left.
    - assert (Hx : forall y, In y (x :: l) -> y = mem_heap st0 + 32).
      { intros y Hy. apply Hm in Hy as (s & [Hy|[]]). congruence. }
      rewrite (Hx x) by (now left). destruct l as [|y l']; [reflexivity|].
      exfalso. inversion Hnd as [|? ? Hni _]; subst. apply Hni.
      rewrite (Hx x), (Hx y); [now left|right; now left|now left]. }
  subst fl.
  split; [exact Hh|]. split; [rewrite (sh_hs _ _ _ Hsh); lia|].
  split; [exact Hbrk|]. split; [exact Hcalls|]. split; [|split].
  - intros fuel Hfu.
    rewrite (heap_blocks_ok _ _ _ HI) by (cbn [length]; lia).
    cbn [map fst app]. rewrite (sh_hs _ _ _ Hsh), Hh, Hbrk. reflexivity.
  - intros fuel Hfu. apply (free_list_ok _ _ _ HI). cbn [length]. lia.
  - destruct (st_tags _ _ _ _ _ Hst (mem_heap st0 + 32) 4096 false) as (Hhd & _);
      [now left|].
    pose proof (Shape_region _ _ _ Hsh) as Hr.
    rewrite HDRP_eq by vsolve. eapply run_eq.
    rewrite GET_exec by vsolve. rewrite Hhd. reflexivity.
Qed.

(** X4. On a fresh region that can hold the 32 bytes of the sentinels but
    not the initial chunk of 4096 bytes more, [mm_init] returns -1 after two
    calls of [mem_sbrk], the second of which was refused. *)
Theorem init_out_of_memory st0 :
  fresh st0 ->
  mem_heap st0 + 32 <= mem_max_addr st0 < mem_heap st0 + 4128 ->
  exists st', mm_init st0 = Some (-1, st') /\
    mem_brk st' = mem_heap st0 + 32 /\ sbrk_calls st' = sbrk_calls st0 + 2.
Proof. apply mm_init_refused. Qed.

(** ** The consistency checker *)

Lemma check_block_ok st line b s a :
  region_ok st -> mem_heap st + 16 <= b -> b + s <= mem_brk st ->
  16 <= s -> s mod 16 = 0 -> b mod 16 = 0 -> (b - mem_heap st) mod 8 = 0 ->
  mem st (b - 8) = tag s a -> mem st (b + s - 16) = tag s a ->
  check_block line b st = Some ((true, []), st).
Proof.
  intros Hr Hb Hbs Hs Hs16 Hal Hal8 Hh Hf. unfold check_block, DSIZE.
  replace (b mod 16 =? 0) with true by (symmetry; apply Z.eqb_eq; exact Hal).
  cbn [negb]. rewrite HDRP_eq by vsolve. step_GET.
  step_FTRP s a. step_GET. rewrite Hh, Hf, Z.eqb_refl. reflexivity.
Qed.

Lemma check_blocks_ok st line bs :
  region_ok st -> mem_heap st mod 16 = 0 ->
  mem st (mem_brk st - 8) = 1 -> tags (mem st) bs ->
  forall p fuel, contig p bs (mem_brk st) -> mem_heap st + 32 <= p ->
    (p - mem_heap st) mod 16 = 0 -> (length bs < fuel)%nat ->
    check_blocks fuel line p st = Some (inl (mem_brk st), st).
Proof.
  intros Hr Hbase Hepi. induction bs as [|[[b s] a] bs IH];
    intros Ht p fuel Hc Hp Hal Hf;
    (destruct fuel as [|fuel]; [inversion Hf|]); cbn [contig] in Hc;
    cbn [check_blocks].
  - subst p. rewrite HDRP_eq by vsolve.
    assert (He : mem st (mem_brk st - 8) = tag 0 true) by exact Hepi.
    step_GET_SIZE 0 true. reflexivity.
  - destruct Hc as (<- & Hs & Hs16 & Hc).
    pose proof (contig_le _ _ _ Hc) as Hle.
    apply tags_cons in Ht as (Hb1 & Ht). apply tags_one in Hb1 as (Hh & Hfo).
    rewrite HDRP_eq by vsolve. step_GET_SIZE s a.
    replace (0 <? s) with true by (symmetry; apply Z.ltb_lt; lia).
    rewrite (bind_eq _ _ _ _ _
               (check_block_ok st line b s a Hr ltac:(lia) ltac:(lia) ltac:(lia)
                  Hs16 ltac:(lia) ltac:(lia) Hh Hfo)).
    cbn [fst negb]. step_NEXT_BLKP s a.
    apply IH; trivial; cbn [length] in Hf; lia.
Qed.

Lemma bad_sentinel_ok st bp s :
  region_ok st -> mem_heap st + 16 <= bp <= mem_brk st ->
  (bp - mem_heap st) mod 8 = 0 -> 0 <= s < 2 ^ 64 -> s mod 16 = 0 ->
  mem st (bp - 8) = tag s true ->
  bad_sentinel bp s st = Some (false, st).
Proof.
  intros Hr Hb Hal Hs Hs16 Hm. unfold bad_sentinel.
  rewrite HDRP_eq by vsolve. step_GET_SIZE s true.
  rewrite Z.eqb_refl. cbn [negb]. step_GET_ALLOC s true. reflexivity.
Qed.

(** X5. In every state reached with requests of at most [2^64 - 32] bytes
    whose region starts at a multiple of 16, [check_heap] finds nothing to
    report: it returns [true] and prints no diagnostic, and it changes
    nothing. *)
Theorem check_heap_passes st live line :
  reachable st live -> mem_heap st mod 16 = 0 ->
  exists n, forall fuel, (n <= fuel)%nat ->
    check_heap fuel line st = Some ((true, []), st).
Proof.
  intros Hreach Hbase.
  destruct (reachable_Inv _ _ Hreach) as (bs & fl & (Hsh & Hst) & _).
  pose proof (Shape_region _ _ _ Hsh) as Hr.
  pose proof (sh_hs _ _ _ Hsh) as Hhs.
  pose proof (contig_le _ _ _ (sh_contig _ _ _ Hsh)) as Hle.
  exists (S (S (length bs))). intros fuel Hf.
  destruct fuel as [|fuel]; [inversion Hf|].
  unfold check_heap. rewrite Hhs.
  assert (Hph : mem st (mem_heap st + 16 - 8) = tag 16 true).
  { replace (mem_heap st + 16 - 8) with (mem_heap st + 8) by lia.
    apply (st_pro_h _ _ _ _ _ Hst). }
  rewrite (bind_eq _ _ _ _ _
             (bad_sentinel_ok st (mem_heap st + 16) 16 Hr ltac:(vsolve)
                ltac:(lia) ltac:(lia) eq_refl Hph)).
  cbn [check_blocks]. rewrite bind_assoc.
  rewrite HDRP_eq by vsolve. step_GET_SIZE 16 true. cbn [Z.ltb Z.compare].
  rewrite bind_assoc.
  rewrite (bind_eq _ _ _ _ _
             (check_block_ok st line (mem_heap st + 16) 16 true Hr ltac:(lia)
                ltac:(vsolve) ltac:(lia) eq_refl ltac:(lia) ltac:(lia) Hph
                ltac:(replace (mem_heap st + 16 + 16 - 16) with (mem_heap st + 16) by lia;
                      apply (st_pro_f _ _ _ _ _ Hst)))).
  cbn [fst negb]. rewrite bind_assoc. step_NEXT_BLKP 16 true.
  replace (mem_heap st + 16 + 16) with (mem_heap st + 32) by lia.
  rewrite (bind_eq _ _ _ _ _
             (check_blocks_ok st line bs Hr Hbase (st_epi _ _ _ _ _ Hst)
                (st_tags _ _ _ _ _ Hst) (mem_heap st + 32) fuel
                (sh_contig _ _ _ Hsh) ltac:(lia) ltac:(lia) ltac:(lia))).
  rewrite (bind_eq _ _ _ _ _
             (bad_sentinel_ok st (mem_brk st) 0 Hr ltac:(vsolve) ltac:(lia)
                ltac:(lia) eq_refl (st_epi _ _ _ _ _ Hst))).
  reflexivity.
Qed.

(** X6. [check_block] tests the address itself, not the offset in the
    region: in every state reached with requests of at most [2^64 - 32] bytes
    whose region does not start at a multiple of 16, [check_heap] returns
    [false] at the prologue and reports it as misaligned. *)
Theorem check_heap_misaligned_base st live line fuel :
  reachable st live -> mem_heap st mod 16 <> 0 -> (0 < fuel)%nat ->
  check_heap fuel line st =
  Some ((false, [NotAligned line (heap_start st)]), st).
Proof.
  intros Hreach Hbase Hf.
  destruct (reachable_Inv _ _ Hreach) as (bs & fl & (Hsh & Hst) & _).
  pose proof (Shape_region _ _ _ Hsh) as Hr.
  pose proof (sh_hs _ _ _ Hsh) as Hhs.
  destruct fuel as [|fuel]; [inversion Hf|].
  unfold check_heap. rewrite Hhs.
  assert (Hph : mem st (mem_heap st + 16 - 8) = tag 16 true).
  { replace (mem_heap st + 16 - 8) with (mem_heap st + 8) by lia.
    apply (st_pro_h _ _ _ _ _ Hst). }
  rewrite (bind_eq _ _ _ _ _
             (bad_sentinel_ok st (mem_heap st + 16) 16 Hr ltac:(vsolve)
                ltac:(lia) ltac:(lia) eq_refl Hph)).
  cbn [check_blocks]. rewrite bind_assoc.
  rewrite HDRP_eq by vsolve. step_GET_SIZE 16 true. cbn [Z.ltb Z.compare].
  rewrite bind_assoc. unfold check_block at 1, DSIZE.
  replace ((mem_heap st + 16) mod 16 =? 0) with false
    by (symmetry; apply Z.eqb_neq; lia).
  reflexivity.
Qed.

(** ** The shape of the heap and of the free list *)

Lemma contig_hd p bs q :
  contig p bs q -> hd q (map (fun b : block => fst (fst b)) bs) = p.
Proof.
  destruct bs as [|[[b s] a] r]; cbn [contig map hd fst]; [congruence|tauto].
Qed.

Lemma contig_walk p bs q :
  contig p bs q ->
  forall l1 x y l2,
    map (fun b : block => fst (fst b)) bs ++ [q] = l1 ++ x :: y :: l2 ->
    exists s a, In (x, s, a) bs /\ y = x + s.
Proof.
  revert p. induction bs as [|[[b s] a] r IH]; intros p Hc l1 x y l2 E.
  - destruct l1 as [|? [|? ?]]; discriminate.
  - cbn [contig] in Hc. destruct Hc as (<- & _ & _ & Hc).
    cbn [map fst app] in E. destruct l1 as [|z l1].
    + cbn [app] in E. injection E as <- E. exists s, a. split; [now left|].
      pose proof (contig_hd _ _ _ Hc) as Hh.
      destruct r as [|[[b1 s1] a1] r']; cbn [map fst app hd] in *;
        injection E as E _; congruence.
    + cbn [app] in E. injection E as _ E.
      destruct (IH _ Hc _ _ _ _ E) as (s' & a' & Hi & Hy).
      exists s', a'. split; [now right|exact Hy].
Qed.

(** X7. In every state reached with requests of at most [2^64 - 32]
    bytes the blocks tile the region: the walk over the heap starts at the
    prologue at offset 16 and ends at the break; every block starts where the
    one before it ends according to its header; every block starts at a
    multiple of 16 from the base, and every block but the prologue has a size
    that is a multiple of 16 and at least 32. *)
Theorem heap_tiling st live :
  reachable st live ->
  exists walk,
    (forall fuel, (length walk <= fuel)%nat ->
       heap_blocks fuel st = Some (walk, st)) /\
    hd 0 walk = mem_heap st + 16 /\ last walk 0 = mem_brk st /\
    forall l1 x y l2, walk = l1 ++ x :: y :: l2 ->
      y = x + hsize st x /\ (x - mem_heap st) mod 16 = 0 /\
      hsize st x mod 16 = 0 /\
      (l1 = [] -> hsize st x = 16) /\ (l1 <> [] -> 32 <= hsize st x).
Proof.
  intros Hreach.
  destruct (reachable_Inv _ _ Hreach) as (bs & fl & HI & _).
  pose proof HI as (Hsh & Hst).
  pose proof (Shape_region _ _ _ Hsh) as Hr.
  pose proof (sh_hs _ _ _ Hsh) as Hhs.
  pose proof (sh_contig _ _ _ Hsh) as Hc.
  set (addr := fun b : block => fst (fst b)).
  exists ((heap_start st :: map addr bs) ++ [mem_brk st]).
  split; [|split; [|split]].
  - intros fuel Hf. apply (heap_blocks_ok _ _ _ HI).
    rewrite length_app in Hf. cbn [length] in Hf. rewrite length_map in Hf.
    unfold block in *. lia.
  - cbn [app hd]. exact Hhs.
  - apply last_last.
  - intros l1 x y l2 E. destruct l1 as [|z l1].
    + cbn [app] in E. injection E as <- E.
      assert (Hy : y = mem_heap st + 32).
      { pose proof (contig_hd _ _ _ Hc) as Hh. fold addr in Hh.
        destruct (map addr bs) as [|b1 r]; cbn [app hd] in *;
          injection E as E _; congruence. }
      assert (Hs : hsize (st) (heap_start st) = 16).
      { unfold hsize. rewrite Hhs.
        replace (mem_heap st + 16 - 8) with (mem_heap st + 8) by lia.
        rewrite (st_pro_h _ _ _ _ _ Hst). reflexivity. }
      rewrite Hs, Hhs, Hy. repeat split; try lia. intros H. now destruct H.
    + cbn [app] in E. injection E as _ E.
      destruct (contig_walk _ _ _ Hc _ _ _ _ E) as (s & a & Hi & ->).
      rewrite (hsize_block _ _ _ _ _ _ HI Hi).
      pose proof (Shape_block _ _ _ _ _ _ Hsh Hi).
      repeat split; try lia. discriminate.
Qed.

Lemma prevs_adjacent m l1 x y l2 :
  prevs m (l1 ++ x :: y :: l2) -> m (y + 8) = x.
Proof.
  intros H. apply prevs_app in H as (_ & H). cbn [prevs] in H. tauto.
Qed.

Lemma lseg_adjacent m h l1 x y l2 t :
  lseg m h (l1 ++ x :: y :: l2) t -> m x = y.
Proof.
  intros H. apply lseg_app in H as (u & _ & H). cbn [lseg] in H.
  destruct H as (_ & H & _). exact H.
Qed.

Lemma lseg_last m h l x t : lseg m h (l ++ [x]) t -> m x = t.
Proof.
  intros H. apply lseg_app in H as (u & _ & H). cbn [lseg] in H. tauto.
Qed.

(** X8. In every state reached with requests of at most [2^64 - 32]
    bytes the free list is doubly linked and ends in [NULL]: of two blocks
    that follow one another on the list, the first is the predecessor
    recorded in the second and the second the successor recorded in the
    first, and the successor recorded in the last block is [NULL]. *)
Theorem free_list_links st live :
  reachable st live ->
  exists fl,
    (forall fuel, (length fl < fuel)%nat -> free_list fuel st = Some (fl, st)) /\
    (forall l1 x y l2, fl = l1 ++ x :: y :: l2 ->
       run (NEXT_FREE_BLKP x) st = Some y /\
       run (PREV_FREE_BLKP y) st = Some x) /\
    (forall l x, fl = l ++ [x] -> run (NEXT_FREE_BLKP x) st = Some NULL).
Proof.
  intros Hreach.
  destruct (reachable_Inv _ _ Hreach) as (bs & fl & HI & _).
  pose proof HI as (Hsh & Hst).
  pose proof (Shape_region _ _ _ Hsh) as Hr.
  exists fl. split; [|split].
  - intros fuel Hf. now apply (free_list_ok _ _ _ HI).
  - intros l1 x y l2 ->.
    assert (Hx : cell st x).
    { apply (Shape_cell _ _ _ _ Hsh), in_or_app. right. now left. }
    assert (Hy : cell st y).
    { apply (Shape_cell _ _ _ _ Hsh), in_or_app. right. right. now left. }
    unfold NEXT_FREE_BLKP, PREV_FREE_BLKP, WSIZE. rewrite PADD_eq by vsolve.
    split; eapply run_eq; rewrite GET_exec by vsolve; do 2 f_equal.
    + exact (lseg_adjacent _ _ _ _ _ _ _ (st_lseg _ _ _ _ _ Hst)).
    + exact (prevs_adjacent _ _ _ _ _ (st_prevs _ _ _ _ _ Hst)).
  - intros l x ->.
    assert (Hx : cell st x).
    { apply (Shape_cell _ _ _ _ Hsh), in_or_app. right. now left. }
    unfold NEXT_FREE_BLKP. eapply run_eq. rewrite GET_exec by vsolve.
    do 2 f_equal. exact (lseg_last _ _ _ _ _ (st_lseg _ _ _ _ _ Hst)).
Qed.

(** ** One step of allocation and of deallocation *)

Lemma set_mem_inj st m m' : set_mem st m = set_mem st m' -> m = m'.
Proof. intros H. apply (f_equal mem) in H. exact H. Qed.

Lemma place_step st pre post l1 l2 b S A :
  Inv st (pre ++ (b, S, false) :: post) (l1 ++ b :: l2) ->
  32 <= A <= S -> A mod 16 = 0 ->
  exists m' bs' fl' S',
    place b A st = Some (tt, set_mem st m') /\
    Inv (set_mem st m') bs' fl' /\
    A <= S' < A + 32 /\ S' <= S /\
    (forall x sx, In (x, sx, true) bs' <->
                  (x = b /\ sx = S') \/ In (x, sx, true) (pre ++ post)) /\
    (forall a, in_payload (pre ++ post) a -> m' a = mem st a).
Proof.
  intros HI HA HA16.
  destruct (place_Inv st pre post l1 l2 b S A HI HA HA16)
    as (m'' & bs' & fl' & S' & E' & HI' & Hin' & HS' & Hal).
  destruct (place_frame st pre post l1 l2 b S A HI ltac:(lia) HA16)
    as (m' & E & Hno & Hsp & Hfr).
  assert (m'' = m') by (apply (set_mem_inj st); congruence). subst m''.
  exists m', bs', fl', S'. split; [exact E|]. split; [exact HI'|].
  pose proof (hsize_block _ _ _ _ _ _ HI' Hin') as Hh.
  pose proof HI as (Hsh & _).
  assert (Hb : In (b, S, false) (pre ++ (b, S, false) :: post))
    by (apply in_or_app; right; now left).
  pose proof (Shape_block _ _ _ _ _ _ Hsh Hb) as HbS.
  pose proof (Shape_region _ _ _ Hsh) as Hr.
  assert (HS : S' = S /\ S - A < 32 \/ S' = A).
  { destruct (Z_lt_ge_dec (S - A) 32) as [Hlt|Hge].
    - left. split; [|exact Hlt]. rewrite <- Hh.
      apply (hsize_block _ _ _ _ _ true (Hno Hlt)).
      apply in_or_app. right. now left.
    - right. rewrite <- Hh. unfold hsize. norm.
      destruct (st_tags _ _ _ _ _ (Hsp ltac:(lia) ltac:(lia)) b A true) as (-> & _).
      { apply in_or_app. right. now left. }
      apply GET_SIZE_tag; vsolve. }
  split; [lia|]. split; [lia|]. split; [exact Hal|exact Hfr].
Qed.

Lemma free_not_alloc st bs fl x s :
  Inv st bs fl -> In (x, s, false) bs -> forall s', ~ In (x, s', true) bs.
Proof.
  intros (Hsh & _) Hx s' Hx'.
  destruct (contig_inj _ _ _ _ _ _ _ _ (sh_contig _ _ _ Hsh) Hx Hx').
  discriminate.
Qed.

Lemma in_payload_split pre b S post a :
  in_payload (pre ++ (b, S, false) :: post) a -> in_payload (pre ++ post) a.
Proof.
  intros (x & s & Hx & Ha). exists x, s. split; [|exact Ha].
  apply in_app_or in Hx. apply in_or_app. cbn [In] in Hx.
  destruct Hx as [Hx|[Hx|Hx]]; [now left|discriminate|now right].
Qed.

(** An allocation served from the free list. *)
Lemma malloc_hit_step st bs fl n l1 b l2 :
  Inv st bs fl -> 0 < n -> request_ok n -> fl = l1 ++ b :: l2 ->
  (forall x, In x l1 -> hsize st x < adjusted_size n) ->
  adjusted_size n <= hsize st b ->
  exists m' bs' fl' S',
    (forall fuel, (length l1 < fuel)%nat ->
       mm_malloc fuel n st = Some (b, set_mem st m')) /\
    Inv (set_mem st m') bs' fl' /\
    adjusted_size n <= S' < adjusted_size n + 32 /\
    (forall x sx, In (x, sx, true) bs' <->
                  (x = b /\ sx = S') \/ In (x, sx, true) bs) /\
    (forall s, ~ In (b, s, true) bs) /\
    (forall a, in_payload bs a -> m' a = mem st a).
Proof.
  intros HI Hn Hok -> Hsmall Hfit.
  destruct (adjusted_size_ok n Hn Hok) as (H32 & HA16 & Hpay & _).
  set (A := adjusted_size n) in *.
  pose proof HI as (Hsh & Hst).
  pose proof (Shape_region _ _ _ Hsh) as Hr.
  assert (Hb : In b (l1 ++ b :: l2)) by (apply in_or_app; right; now left).
  pose proof (Shape_cell _ _ _ _ Hsh Hb) as Hcb.
  apply (sh_mem _ _ _ Hsh) in Hb as (S & Hb).
  pose proof (free_not_alloc _ _ _ _ _ HI Hb) as Hfresh.
  rewrite (hsize_block _ _ _ _ _ _ HI Hb) in Hfit.
  apply in_split in Hb as (pre & post & ->).
  destruct (place_step st pre post l1 l2 b S A HI ltac:(lia) HA16)
    as (m' & bs' & fl' & S' & E & HI' & HS' & _ & Hal & Hfr).
  exists m', bs', fl', S'. split; [|split; [exact HI'|split; [exact HS'|]]].
  - intros fuel Hf. unfold mm_malloc.
    replace (n <=? 0) with false by (symmetry; apply Z.leb_gt; lia).
    fold A.
    rewrite (bind_eq _ _ _ _ _
               (find_fit_hit st _ _ A l1 b l2 fuel HI eq_refl Hsmall
                  ltac:(rewrite (hsize_block _ _ _ b S false HI);
                        [lia|apply in_or_app; right; now left]) Hf)).
    replace (b =? NULL) with false by (symmetry; apply Z.eqb_neq; vsolve).
    cbn [negb]. step_by E. reflexivity.
  - split; [|split; [exact Hfresh|]].
    + intros x sx. rewrite Hal, !in_app_iff. cbn [In].
      split; [tauto|]. intros [H|[H|[H|H]]]; [tauto|tauto|discriminate|tauto].
    + intros a Ha. apply Hfr. exact (in_payload_split _ _ _ _ _ Ha).
Qed.

(** An allocation served by growing the heap. *)
Lemma malloc_grow_step st bs fl n :
  Inv st bs fl -> 0 < n -> request_ok n ->
  (forall x, In x fl -> hsize st x < adjusted_size n) ->
  mem_brk st + max (adjusted_size n) CHUNKSIZE <= mem_max_addr st ->
  exists cb m' bs' fl' S',
    (forall fuel, (length fl < fuel)%nat ->
       mm_malloc fuel n st =
       Some (cb, set_mem (grown st (max (adjusted_size n) CHUNKSIZE)) m')) /\
    Inv (set_mem (grown st (max (adjusted_size n) CHUNKSIZE)) m') bs' fl' /\
    cb <> NULL /\
    adjusted_size n <= S' < adjusted_size n + 32 /\
    (forall x sx, In (x, sx, true) bs' <->
                  (x = cb /\ sx = S') \/ In (x, sx, true) bs) /\
    (forall s, ~ In (cb, s, true) bs) /\
    (forall a, in_payload bs a -> m' a = mem st a).
Proof.
  intros HI Hn Hok Hsmall Hfit.
  destruct (adjusted_size_ok n Hn Hok) as (H32 & HA16 & Hpay & _).
  set (A := adjusted_size n) in *.
  set (size := max A CHUNKSIZE) in *.
  assert (Hsize : 4096 <= size < 2 ^ 64 /\ size mod 16 = 0 /\ A <= size).
  { unfold size, max, CHUNKSIZE. change (Z.shiftl 1 12) with 4096.
    destruct (Z.ltb_spec 4096 A); lia. }
  set (words := size / WSIZE).
  assert (Hwords : words * 8 = size /\ 4 <= words /\ words mod 2 = 0).
  { unfold words, WSIZE. lia. }
  pose proof HI as (Hsh & Hst).
  pose proof (Shape_region _ _ _ Hsh) as Hr.
  destruct (extend_heap_frame st bs fl words HI ltac:(lia) ltac:(lia)
              ltac:(lia))
    as (m1 & cb & cs & pre' & fl1 & E1 & HI1 & Hsum & Hal1 & Hfr1 & Hd & _).
  rewrite (proj1 Hwords) in *.
  set (st1 := set_mem (grown st size) m1) in *.
  pose proof HI1 as (Hsh1 & Hst1).
  assert (Hin1 : In (cb, cs, false) (pre' ++ [(cb, cs, false)]))
    by (apply in_or_app; right; now left).
  pose proof (Shape_block _ _ _ _ _ _ Hsh1 Hin1) as Hcb.
  unfold st1 in Hcb. norm.
  assert (Hcs : size <= cs).
  { destruct Hd as [(_ & _ & ->)|(ps & Hb & Hcbe)]; [lia|].
    assert (Hin : In (cb, ps, false) bs).
    { rewrite Hb. apply in_or_app. right. now left. }
    pose proof (Shape_block _ _ _ _ _ _ Hsh Hin). lia. }
  assert (Hcbfl : In cb fl1) by (apply (sh_mem _ _ _ Hsh1); now exists cs).
  apply in_split in Hcbfl as (l1 & l2 & ->).
  destruct (place_step st1 pre' [] l1 l2 cb cs A HI1 ltac:(lia) HA16)
    as (m2 & bs' & fl' & S' & E2 & HI' & HS' & _ & Hal & Hfr2).
  exists cb, m2, bs', fl', S'.
  split; [|split; [exact HI'|split; [vsolve|split; [exact HS'|split; [|split]]]]].
  - intros fuel Hf. unfold mm_malloc.
    replace (n <=? 0) with false by (symmetry; apply Z.leb_gt; lia).
    fold A.
    rewrite (bind_eq _ _ _ _ _ (find_fit_miss st bs fl A fuel HI Hsmall Hf)).
    cbn [Z.eqb NULL negb]. fold size words.
    step_by E1.
    replace (cb =? NULL) with false by (symmetry; apply Z.eqb_neq; vsolve).
    fold st1. step_by E2. reflexivity.
  - intros x sx. rewrite Hal, app_nil_r, Hal1. tauto.
  - intros s Hx. apply Hal1 in Hx.
    apply (free_not_alloc _ _ _ _ _ HI1 Hin1 s).
    apply in_or_app. now left.
  - intros a Ha. rewrite Hfr2.
    + unfold st1. norm. now apply Hfr1.
    + rewrite app_nil_r. eapply in_payload_iff; [|exact Ha].
      intros x sx. now rewrite Hal1.
Qed.

(** What a call of [mm_malloc] that returned has done. *)
Lemma malloc_step st bs fl n fuel p st' :
  Inv st bs fl -> 0 < n -> request_ok n ->
  mm_malloc fuel n st = Some (p, st') ->
  (p = NULL /\ st' = refused st) \/
  (p <> NULL /\ mem_heap st' = mem_heap st /\
   exists bs' fl' S',
     Inv st' bs' fl' /\
     adjusted_size n <= S' < adjusted_size n + 32 /\
     (forall x sx, In (x, sx, true) bs' <->
                   (x = p /\ sx = S') \/ In (x, sx, true) bs) /\
     (forall s, ~ In (p, s, true) bs) /\
     (forall a, in_payload bs a -> mem st' a = mem st a)).
Proof.
  intros HI Hn Hok Hm.
  assert (Hn64 : 0 < n < 2 ^ 64) by (unfold request_ok in Hok; lia).
  assert (Hdet : forall f0 r, (forall f, (f0 < f)%nat -> mm_malloc f n st = Some r) ->
            (p, st') = r).
  { intros f0 r Hr.
    pose proof (mm_malloc_mono fuel (Nat.max fuel (S f0)) n st _
                  (Nat.le_max_l _ _) Hm) as Hm'.
    rewrite (Hr (Nat.max fuel (S f0)) ltac:(lia)) in Hm'. congruence. }
  destruct (first_fit_dec st (adjusted_size n) fl)
    as [(l1 & b & l2 & Hfl & Hsmall & Hfit)|Hsmall].
  - destruct (malloc_hit_step st bs fl n l1 b l2 HI Hn Hok Hfl Hsmall Hfit)
      as (m' & bs' & fl' & S' & E & HI' & HS' & Hal & Hfresh & Hfr).
    pose proof (Hdet _ _ E) as Hr. injection Hr as -> ->.
    right. split.
    + destruct HI as (Hsh & _).
      assert (Hb : In b fl) by (rewrite Hfl; apply in_or_app; right; now left).
      pose proof (Shape_cell _ _ _ _ Hsh Hb). pose proof (Shape_region _ _ _ Hsh).
      vsolve.
    + split; [reflexivity|]. exists bs', fl', S'. norm. tauto.
  - destruct (malloc_miss st bs fl n HI Hn64 Hsmall) as (Hfail & _).
    destruct (Z_le_gt_dec (mem_brk st + max (adjusted_size n) CHUNKSIZE)
                          (mem_max_addr st)) as [Hfit|Hfull].
    + destruct (malloc_grow_step st bs fl n HI Hn Hok Hsmall Hfit)
        as (cb & m' & bs' & fl' & S' & E & HI' & Hcb & HS' & Hal & Hfresh & Hfr).
      pose proof (Hdet _ _ E) as Hr. injection Hr as -> ->.
      right. split; [exact Hcb|]. split; [reflexivity|].
      exists bs', fl', S'. norm. tauto.
    + pose proof (Hdet _ _ (Hfail ltac:(lia))) as Hr. injection Hr as -> ->.
      left. now split.
Qed.

Lemma NoDup_remove_eq (l : list Z) p : NoDup l -> NoDup (remove Z.eq_dec p l).
Proof.
  induction 1 as [|x l Hx Hnd IH]; cbn [remove]; [constructor|].
  destruct (Z.eq_dec p x); [exact IH|].
  constructor; [|exact IH]. intros Hi. apply in_remove in Hi. tauto.
Qed.

(** The invariant of [reachable_Inv], with the list of live pointers free
    of repetitions. *)
Lemma reachable_live st live :
  reachable st live ->
  exists bs fl, Inv st bs fl /\
    (forall x, In x live <-> exists s, In (x, s, true) bs) /\ NoDup live.
Proof.
  induction 1 as [st0 st Hfresh Hinit
                 | st live fuel n p st' Hreach IH Hok Hm
                 | st live p st' Hreach IH Hp Hf].
  - destruct (reachable_Inv st [] (reach_init _ _ _ Hfresh Hinit))
      as (bs & fl & HI & Hl).
    exists bs, fl. split; [exact HI|]. split; [exact Hl|constructor].
  - destruct IH as (bs & fl & HI & Hlive & Hnd).
    destruct (Z.eq_dec n 0) as [->|Hn0].
    + rewrite mm_malloc_zero in Hm. injection Hm as <- <-.
      exists bs, fl. now split.
    + assert (Hn : 0 < n) by (unfold request_ok in Hok; lia).
      destruct (malloc_step _ _ _ _ _ _ _ HI Hn Hok Hm)
        as [(-> & ->)|(Hp & _ & bs' & fl' & S' & HI' & _ & Hal & Hfresh & _)].
      * exists bs, fl. split; [now apply Inv_refused|]. now split.
      * replace (p =? NULL) with false by (symmetry; now apply Z.eqb_neq).
        exists bs', fl'. split; [exact HI'|]. split.
        -- intros x. cbn [In]. rewrite Hlive. split.
           ++ intros [<-|(s & Hx)]; [exists S'|exists s]; apply Hal; tauto.
           ++ intros (s & Hx). apply Hal in Hx as [(-> & _)|Hx]; [now left|].
              right. now exists s.
        -- constructor; [|exact Hnd]. intros Hi. apply Hlive in Hi as (s & Hi).
           exact (Hfresh _ Hi).
  - destruct (reachable_Inv _ _ (reach_free _ _ _ _ _ Hreach Hp Hf))
      as (bs' & fl' & HI' & Hl').
    destruct IH as (_ & _ & _ & _ & Hnd).
    exists bs', fl'. split; [exact HI'|]. split; [exact Hl'|].
    now apply NoDup_remove_eq.
Qed.

(** ** What the caller of [mm_malloc] and [mm_free] can rely on *)

Lemma live_payload st bs fl live q a :
  Inv st bs fl ->
  (forall x, In x live <-> exists s, In (x, s, true) bs) ->
  In q live -> q <= a < q + hsize st q - 16 -> in_payload bs a.
Proof.
  intros HI Hlive Hq Ha. apply Hlive in Hq as (s & Hq).
  rewrite (hsize_block _ _ _ _ _ _ HI Hq) in Ha. now exists q, s.
Qed.

(** X9. In every state reached with requests of at most [2^64 - 32] bytes,
    a block that [mm_malloc] returns for such a request of [n] bytes is new
    and does not overlap any live block: its pointer is not live, its header
    marks it allocated with a size of at least the adjusted size and less
    than 32 bytes more, enough for [n] bytes of payload; it lies inside the
    region, and every live block keeps its size and lies entirely before
    or entirely after it. *)
Theorem malloc_block st live fuel n p st' :
  reachable st live -> request_ok n ->
  mm_malloc fuel n st = Some (p, st') -> p <> NULL ->
  ~ In p live /\
  run (GET_ALLOC (HDRP p)) st' = Some 1 /\
  adjusted_size n <= hsize st' p < adjusted_size n + 32 /\
  n + 16 <= hsize st' p /\
  mem_heap st' + 32 <= p /\ p + hsize st' p <= mem_brk st' /\
  forall q, In q live ->
    hsize st' q = hsize st q /\
    (q + hsize st q <= p \/ p + hsize st' p <= q).
Proof.
  intros Hreach Hok Hm Hp.
  destruct (reachable_Inv _ _ Hreach) as (bs & fl & HI & Hlive).
  assert (Hn : 0 < n).
  { destruct (Z.eq_dec n 0) as [->|]; [|unfold request_ok in Hok; lia].
    rewrite mm_malloc_zero in Hm. injection Hm as <- _. now destruct Hp. }
  destruct (malloc_step _ _ _ _ _ _ _ HI Hn Hok Hm)
    as [(-> & _)|(_ & Hbase & bs' & fl' & S' & HI' & HS' & Hal & Hfresh & _)];
    [now destruct Hp|].
  assert (Hin : In (p, S', true) bs') by (apply Hal; now left).
  pose proof HI' as (Hsh' & _).
  pose proof (Shape_block _ _ _ _ _ _ Hsh' Hin) as Hb.
  rewrite (hsize_block _ _ _ _ _ _ HI' Hin).
  destruct (adjusted_size_ok n Hn Hok) as (_ & _ & Hpay & _).
  split; [|split; [|split; [|split; [|split; [|split]]]]]; try lia.
  - intros Hi. apply Hlive in Hi as (s & Hi). exact (Hfresh _ Hi).
  - exact (alloc_block _ _ _ _ _ _ HI' Hin).
  - intros q Hq. apply Hlive in Hq as (sq & Hq).
    assert (Hq' : In (q, sq, true) bs') by (apply Hal; now right).
    rewrite (hsize_block _ _ _ _ _ _ HI Hq), (hsize_block _ _ _ _ _ _ HI' Hq').
    split; [reflexivity|].
    destruct (blocks_sep _ _ _ _ _ _ _ _ _ (sh_contig _ _ _ Hsh') Hq' Hin)
      as [(-> & _)|H]; [|lia].
    exfalso. exact (Hfresh _ Hq).
Qed.

(** ** Stores of the client *)

(** A store outside the boundary tags and the links of the free blocks
    keeps the invariant: the payloads of allocated blocks are the client's. *)
Lemma Inv_store st bs fl m' :
  Inv st bs fl -> (forall a, ~ in_payload bs a -> m' a = mem st a) ->
  Inv (set_mem st m') bs fl.
Proof.
  intros (Hsh & Hst) Hm. pose proof (sh_contig _ _ _ Hsh) as Hc.
  assert (Hout : forall a,
            (forall x s, In (x, s, true) bs -> a < x \/ x + s - 16 <= a) ->
            m' a = mem st a).
  { intros a H. apply Hm. intros (x & s & Hx & Ha).
    destruct (H x s Hx); lia. }
  assert (Hfree : forall y sy d, In (y, sy, false) bs -> 0 <= d < 16 ->
            m' (y + d) = mem st (y + d)).
  { intros y sy d Hy Hd. apply Hout. intros x s Hx.
    pose proof (contig_in _ _ _ _ _ _ Hc Hy).
    destruct (blocks_sep _ _ _ _ _ _ _ _ _ Hc Hy Hx)
      as [(_ & _ & ?)|[?|?]]; [discriminate|lia|lia]. }
  split.
  - destruct Hsh. constructor; assumption.
  - destruct Hst as [Hph Hpf Htags Hepi Hls Hpv].
    constructor; cbn [mem set_mem mem_heap mem_brk].
    + rewrite Hout; [exact Hph|]. intros x s Hx.
      pose proof (contig_in _ _ _ _ _ _ Hc Hx). lia.
    + rewrite Hout; [exact Hpf|]. intros x s Hx.
      pose proof (contig_in _ _ _ _ _ _ Hc Hx). lia.
    + apply (tags_frame (mem st)); [|exact Htags].
      intros b s a Hb. pose proof (contig_in _ _ _ _ _ _ Hc Hb).
      split; apply Hout; intros x sx Hx;
        pose proof (contig_in _ _ _ _ _ _ Hc Hx);
        destruct (blocks_sep _ _ _ _ _ _ _ _ _ Hc Hb Hx)
          as [(-> & -> & _)|[?|?]]; lia.
    + rewrite Hout; [exact Hepi|]. intros x s Hx.
      pose proof (contig_in _ _ _ _ _ _ Hc Hx). lia.
    + rewrite Hout.
      * apply (lseg_frame (mem st)); [|exact Hls].
        intros x Hx. apply (sh_mem _ _ _ Hsh) in Hx as (s & Hx).
        replace x with (x + 0) by lia. apply (Hfree _ _ _ Hx). lia.
      * intros x s Hx. pose proof (contig_in _ _ _ _ _ _ Hc Hx). lia.
    + apply (prevs_frame (mem st)); [|exact Hpv].
      intros y Hy. assert (Hy' : In y fl) by (destruct fl; [destruct Hy|now right]).
      apply (sh_mem _ _ _ Hsh) in Hy' as (s & Hy').
      apply (Hfree _ _ _ Hy'). lia.
Qed.

(** The invariant holds in every state of [in_use], and the live pointers
    are exactly the allocated blocks. *)
Theorem in_use_Inv st live :
  in_use st live ->
  exists bs fl, Inv st bs fl /\
    (forall x, In x live <-> exists s, In (x, s, true) bs).
Proof.
  induction 1 as [st0 st Hfresh Hinit
                 | st live fuel n p st' Hreach IH Hok Hm
                 | st live p st' Hreach IH Hp Hf
                 | st live m' Hreach IH Hm].
  - exact (reachable_Inv _ _ (reach_init _ _ _ Hfresh Hinit)).
  - destruct IH as (bs & fl & HI & Hlive).
    destruct (Z.eq_dec n 0) as [->|Hn0].
    + rewrite mm_malloc_zero in Hm. injection Hm as <- <-.
      exists bs, fl. now split.
    + assert (Hn : 0 < n < 2 ^ 64) by (unfold request_ok in Hok; lia).
      destruct (malloc_total st bs fl n HI Hn)
        as (fuel0 & p0 & st0 & E & _ & _ & Hres).
      pose proof (mm_malloc_mono fuel (Nat.max fuel fuel0) n st _
                    ltac:(lia) Hm) as Hm'.
      rewrite (E (Nat.max fuel fuel0) ltac:(lia)) in Hm'.
      injection Hm' as -> ->.
      destruct (Hres Hok) as (bs' & fl' & HI' & Htr).
      exists bs', fl'. split; [exact HI'|].
      destruct Htr as [(-> & Hal)|(Hp & S' & _ & Hal)].
      * cbn. intros x. rewrite Hlive. split; intros (s & Hx); exists s;
          now apply Hal.
      * replace (p =? NULL) with false by (symmetry; now apply Z.eqb_neq).
        intros x. cbn [In]. rewrite Hlive. split.
        -- intros [<-|(s & Hx)]; [exists S'|exists s]; apply Hal; tauto.
        -- intros (s & Hx). apply Hal in Hx as [(-> & _)|Hx]; [now left|].
           right. now exists s.
  - destruct IH as (bs & fl & HI & Hlive).
    apply Hlive in Hp as (s & Hp).
    apply in_split in Hp as (pre & post & ->).
    destruct (mm_free_spec st pre p s post fl HI)
      as (m' & cb & cs & bs' & fl' & E & HI' & _ & _ & _ & Hal & _).
    assert (set_mem st m' = st') by congruence. subst st'.
    exists bs', fl'. split; [exact HI'|].
    destruct HI as (Hsh & _).
    pose proof (sh_contig _ _ _ Hsh) as Hc.
    apply contig_app in Hc as (r & Hc1 & Hc2). cbn [contig] in Hc2.
    destruct Hc2 as (<- & Hs & _ & Hc2).
    intros x. rewrite remove_In_iff, Hlive. split.
    + intros ((sx & Hx) & Hne). exists sx. apply Hal.
      apply in_app_or in Hx. apply in_or_app. cbn [In] in Hx.
      destruct Hx as [Hx|[Hx|Hx]]; [now left| |now right]. congruence.
    + intros (sx & Hx). apply Hal in Hx. split.
      * exists sx. apply in_app_or in Hx. apply in_or_app. cbn [In]. tauto.
      * intros ->. apply in_app_or in Hx as [Hx|Hx].
        -- pose proof (contig_in _ _ _ _ _ _ Hc1 Hx). lia.
        -- pose proof (contig_in _ _ _ _ _ _ Hc2 Hx). lia.
  - destruct IH as (bs & fl & HI & Hlive).
    exists bs, fl. split.
    + apply Inv_store; [exact HI|]. intros a Ha. apply Hm. intros q Hq.
      apply Hlive in Hq as (s & Hq).
      rewrite (hsize_block _ _ _ _ _ _ HI Hq).
      destruct (Z_lt_ge_dec a q) as [?|?]; [now left|].
      destruct (Z_le_gt_dec (q + s - 16) a) as [?|?]; [now right|].
      destruct Ha. exists q, s. split; [exact Hq|lia].
    + intros x. rewrite Hlive. reflexivity.
Qed.

Lemma reachable_in_use st live : reachable st live -> in_use st live.
Proof.
  induction 1 as [st0 st Hfresh Hinit
                 | st live fuel n p st' _ IH Hok Hm
                 | st live p st' _ IH Hp Hf].
  - exact (use_init _ _ Hfresh Hinit).
  - exact (use_malloc _ _ _ _ _ _ IH Hok Hm).
  - exact (use_free _ _ _ _ IH Hp Hf).
Qed.

(** X10. In every state reached by [mm_init], [mm_malloc] with requests
    of at most [2^64 - 32] bytes, [mm_free] of live pointers and stores of the
    client into the payloads of its live blocks, [mm_malloc] with such a
    request leaves the payload of every live block as it was, whether it
    returns a block or [NULL]. *)
Theorem malloc_keeps_live_data st live fuel n p st' :
  in_use st live -> request_ok n ->
  mm_malloc fuel n st = Some (p, st') ->
  forall q a, In q live -> q <= a < q + hsize st q - 16 ->
    mem st' a = mem st a.
Proof.
  intros Hreach Hok Hm q a Hq Ha.
  destruct (in_use_Inv _ _ Hreach) as (bs & fl & HI & Hlive).
  destruct (Z.eq_dec n 0) as [->|Hn0].
  { rewrite mm_malloc_zero in Hm. now injection Hm as _ <-. }
  assert (Hn : 0 < n) by (unfold request_ok in Hok; lia).
  destruct (malloc_step _ _ _ _ _ _ _ HI Hn Hok Hm)
    as [(_ & ->)|(_ & _ & bs' & fl' & S' & _ & _ & _ & _ & Hfr)];
    [reflexivity|].
  apply Hfr. exact (live_payload _ _ _ _ _ _ HI Hlive Hq Ha).
Qed.

(** X11. In every state reached by [mm_init], [mm_malloc] with requests
    of at most [2^64 - 32] bytes, [mm_free] of live pointers and stores of the
    client into the payloads of its live blocks, [mm_free] of a live pointer
    leaves every other live block as it was: same size, still marked
    allocated, same payload. *)
Theorem free_keeps_live_data st live p st' :
  in_use st live -> In p live -> mm_free p st = Some (tt, st') ->
  forall q, In q live -> q <> p ->
    hsize st' q = hsize st q /\
    run (GET_ALLOC (HDRP q)) st' = Some 1 /\
    forall a, q <= a < q + hsize st q - 16 -> mem st' a = mem st a.
Proof.
  intros Hreach Hp Hf q Hq Hne.
  destruct (in_use_Inv _ _ Hreach) as (bs & fl & HI & Hlive).
  pose proof Hq as Hq0.
  apply Hlive in Hp as (s & Hp). apply Hlive in Hq as (sq & Hq).
  apply in_split in Hp as (pre & post & ->).
  destruct (mm_free_frame _ _ _ _ _ _ HI)
    as (m' & cb & cs & pre' & post' & fl' & E & HI' & _ & Hal & _ & Hfr & _).
  assert (st' = set_mem st m') by congruence. subst st'.
  assert (Hq1 : In (q, sq, true) (pre ++ post)).
  { apply in_app_or in Hq. apply in_or_app. cbn [In] in Hq.
    destruct Hq as [H|[H|H]]; [now left| |now right]. congruence. }
  assert (Hq' : In (q, sq, true) (pre' ++ (cb, cs, false) :: post')).
  { apply Hal in Hq1. apply in_app_or in Hq1. apply in_or_app. cbn [In]. tauto. }
  rewrite (hsize_block _ _ _ _ _ _ HI Hq), (hsize_block _ _ _ _ _ _ HI' Hq').
  split; [reflexivity|]. split; [exact (alloc_block _ _ _ _ _ _ HI' Hq')|].
  intros a Ha. norm. apply Hfr. now exists q, sq.
Qed.

(** X12. In every state reached with requests of at most [2^64 - 32]
    bytes the list of live pointers has no repetition, and every live pointer
    is a block of the heap: marked allocated, at a multiple of 16 from the
    base, of a size of at least 32, inside the region, and disjoint from every
    other live block. *)
Theorem live_blocks st live :
  reachable st live ->
  NoDup live /\
  forall p, In p live ->
    run (GET_ALLOC (HDRP p)) st = Some 1 /\
    (p - mem_heap st) mod 16 = 0 /\ 32 <= hsize st p /\
    mem_heap st + 32 <= p /\ p + hsize st p <= mem_brk st /\
    forall q, In q live -> q <> p ->
      p + hsize st p <= q \/ q + hsize st q <= p.
Proof.
  intros Hreach.
  destruct (reachable_live _ _ Hreach) as (bs & fl & HI & Hlive & Hnd).
  split; [exact Hnd|]. intros p Hp. apply Hlive in Hp as (s & Hp).
  pose proof HI as (Hsh & _).
  pose proof (Shape_block _ _ _ _ _ _ Hsh Hp) as Hb.
  rewrite (hsize_block _ _ _ _ _ _ HI Hp).
  split; [exact (alloc_block _ _ _ _ _ _ HI Hp)|].
  repeat split; try lia.
  intros q Hq Hne. apply Hlive in Hq as (sq & Hq).
  rewrite (hsize_block _ _ _ _ _ _ HI Hq).
  destruct (blocks_sep _ _ _ _ _ _ _ _ _ (sh_contig _ _ _ Hsh) Hp Hq)
    as [(-> & _)|H]; [now destruct Hne|lia].
Qed.

(** X13. In every state reached with requests of at most [2^64 - 32]
    bytes, a call of [mm_malloc] with a positive size has a result once the
    fuel exceeds the length of the free list: every access it makes lies
    inside the region.  It returns [NULL] exactly when no block of the free
    list is large enough and the region cannot grow by the larger of the
    adjusted size and [CHUNKSIZE]; memory and break are then as before. *)
Theorem malloc_null_iff_full st live n :
  reachable st live -> 0 < n < 2 ^ 64 ->
  exists fl p st',
    (forall fuel, (length fl < fuel)%nat -> free_list fuel st = Some (fl, st)) /\
    (forall fuel, (length fl < fuel)%nat ->
       mm_malloc fuel n st = Some (p, st')) /\
    (p = NULL <->
     (forall x, In x fl -> hsize st x < adjusted_size n) /\
     mem_max_addr st < mem_brk st + max (adjusted_size n) CHUNKSIZE) /\
    (p = NULL -> mem st' = mem st /\ mem_brk st' = mem_brk st).
Proof.
  intros Hreach Hn.
  destruct (reachable_Inv _ _ Hreach) as (bs & fl & HI & _).
  pose proof HI as (Hsh & _). pose proof (Shape_region _ _ _ Hsh) as Hr.
  exists fl.
  destruct (first_fit_dec st (adjusted_size n) fl)
    as [(l1 & b & l2 & Hfl & Hsmall & Hfit)|Hsmall].
  - destruct (malloc_hit st bs fl n l1 b l2 HI Hn Hfl Hsmall Hfit)
      as (m' & E & _).
    assert (Hb : In b fl) by (rewrite Hfl; apply in_or_app; right; now left).
    assert (Hb0 : b <> NULL).
    { pose proof (Shape_cell _ _ _ _ Hsh Hb). vsolve. }
    exists b, (set_mem st m'). split; [|split; [|split]].
    + intros fuel Hf. now apply (free_list_ok _ _ _ HI).
    + intros fuel Hf. apply E. rewrite Hfl, length_app in Hf.
      cbn [length] in Hf. lia.
    + split; [intros H; now destruct Hb0|].
      intros (Hs & _). apply Hs in Hb. lia.
    + intros H. now destruct Hb0.
  - destruct (malloc_miss st bs fl n HI Hn Hsmall) as (Hfail & Hgrow).
    destruct (Z_le_gt_dec (mem_brk st + max (adjusted_size n) CHUNKSIZE)
                          (mem_max_addr st)) as [Hfit|Hfull].
    + destruct (Hgrow Hfit) as (cb & m' & E & Hcb & _).
      exists cb, (set_mem (grown st (max (adjusted_size n) CHUNKSIZE)) m').
      split; [|split; [exact E|split]].
      * intros fuel Hf. now apply (free_list_ok _ _ _ HI).
      * split; [intros H; now destruct Hcb|]. intros (_ & H). lia.
      * intros H. now destruct Hcb.
    + exists NULL, (refused st). split; [|split; [|split]].
      * intros fuel Hf. now apply (free_list_ok _ _ _ HI).
      * apply Hfail. lia.
      * split; [intros _; split; [exact Hsmall|lia]|reflexivity].
      * intros _. split; reflexivity.
Qed.

(** What [coalesce] reads about the two neighbours of a block. *)
Lemma observe_prev st pre b s a post fl :
  Inv st (pre ++ (b, s, a) :: post) fl ->
  run (pb <- PREV_BLKP b ;; GET_ALLOC (HDRP pb)) st =
    Some (Z.b2z (last (map flag pre) true)) /\
  run (pb <- PREV_BLKP b ;; GET_SIZE (HDRP pb)) st =
    Some (last (map (fun x : block => snd (fst x)) pre) 16).
Proof.
  intros HI. split; [exact (prev_alloc_flag _ _ _ _ _ _ _ HI)|].
  destruct HI as (Hsh & Hst).
  pose proof (Shape_region _ _ _ Hsh) as Hr.
  assert (Hin : In (b, s, a) (pre ++ (b, s, a) :: post))
    by (apply in_or_app; right; now left).
  pose proof (Shape_block _ _ _ _ _ _ Hsh Hin) as Hb.
  pose proof (sh_contig _ _ _ Hsh) as Hc.
  apply contig_app in Hc as (r & Hc1 & Hc2). cbn [contig] in Hc2.
  destruct Hc2 as (<- & _ & _ & Hc2).
  pose proof (st_tags _ _ _ _ _ Hst) as Ht.
  apply tags_app in Ht as (Htpre & _).
  apply run_eq with (st' := st).
  destruct (exists_last_or_nil pre) as [->|(pre0 & [[pb ps] pa] & ->)].
  - cbn [contig] in Hc1. cbn [map last].
    assert (Hpf : mem st (b - 16) = tag 16 true).
    { replace (b - 16) with (mem_heap st + 16) by lia.
      apply (st_pro_f _ _ _ _ _ Hst). }
    assert (Hph : mem st (b - 16 - 8) = tag 16 true).
    { replace (b - 16 - 8) with (mem_heap st + 8) by lia.
      apply (st_pro_h _ _ _ _ _ Hst). }
    step_PREV_BLKP 16 true. rewrite HDRP_eq by vsolve.
    apply (GET_SIZE_exec _ _ 16 true); [vsolve|exact Hph|lia|reflexivity].
  - apply contig_app in Hc1 as (r & Hc0 & Hc1). cbn [contig] in Hc1.
    destruct Hc1 as (<- & Hps & Hps16 & Hpb).
    assert (Hinp : In (pb, ps, pa) (pre0 ++ [(pb, ps, pa)]))
      by (apply in_or_app; right; now left).
    destruct (Htpre _ _ _ Hinp) as (Hph & Hpf).
    assert (Hpb0 : mem_heap st + 32 <= pb) by (apply contig_le in Hc0; lia).
    replace (pb + ps - 16) with (b - 16) in Hpf by lia.
    rewrite map_app. cbn [map fst snd]. rewrite last_last.
    step_PREV_BLKP ps pa. rewrite HDRP_eq by vsolve.
    replace (b - ps - 8) with (pb - 8) by lia.
    apply (GET_SIZE_exec _ _ ps pa); [vsolve|exact Hph|vsolve|lia].
Qed.

Lemma observe_next st pre b s a post fl :
  Inv st (pre ++ (b, s, a) :: post) fl ->
  run (nb <- NEXT_BLKP b ;; GET_ALLOC (HDRP nb)) st =
    Some (Z.b2z (hd true (map flag post))) /\
  run (nb <- NEXT_BLKP b ;; GET_SIZE (HDRP nb)) st =
    Some (hd 0 (map (fun x : block => snd (fst x)) post)).
Proof.
  intros (Hsh & Hst).
  pose proof (Shape_region _ _ _ Hsh) as Hr.
  assert (Hin : In (b, s, a) (pre ++ (b, s, a) :: post))
    by (apply in_or_app; right; now left).
  pose proof (Shape_block _ _ _ _ _ _ Hsh Hin) as Hb.
  destruct (st_tags _ _ _ _ _ Hst _ _ _ Hin) as (Hh & _).
  pose proof (sh_contig _ _ _ Hsh) as Hc.
  apply contig_app in Hc as (r & Hc1 & Hc2). cbn [contig] in Hc2.
  destruct Hc2 as (<- & _ & _ & Hc2).
  destruct post as [|[[nb ns] na] post'].
  - cbn [contig] in Hc2. cbn [map hd].
    assert (He : mem st (b + s - 8) = tag 0 true).
    { rewrite Hc2. apply (st_epi _ _ _ _ _ Hst). }
    split; apply run_eq with (st' := st); step_NEXT_BLKP s a;
      rewrite HDRP_eq by vsolve.
    + apply (GET_ALLOC_exec _ _ 0 true); [vsolve|exact He|reflexivity].
    + apply (GET_SIZE_exec _ _ 0 true); [vsolve|exact He|lia|reflexivity].
  - cbn [contig] in Hc2. destruct Hc2 as (-> & Hns & Hns16 & Hc2).
    pose proof (contig_le _ _ _ Hc2) as Hle.
    destruct (st_tags _ _ _ _ _ Hst (b + s) ns na) as (Hnh & _).
    { apply in_or_app. right. right. now left. }
    cbn [map hd flag fst snd].
    split; apply run_eq with (st' := st); step_NEXT_BLKP s a;
      rewrite HDRP_eq by vsolve.
    + apply (GET_ALLOC_exec _ _ ns na); [vsolve|exact Hnh|lia].
    + apply (GET_SIZE_exec _ _ ns na); [vsolve|exact Hnh|vsolve|lia].
Qed.

(** X14. In every state reached with requests of at most [2^64 - 32]
    bytes, [mm_free] of a live pointer [p] is defined and merges the block
    with each neighbour that is free.  With [pa], [ps] the allocated bit and
    size [coalesce] reads for the block before [p], and [na], [ns] those of
    the block after it, the resulting free block starts at [p - ps] when
    [pa = 0] and at [p] otherwise; its size is the size of [p] plus [ps] when
    [pa = 0] plus [ns] when [na = 0]; header and footer hold that size with a
    clear allocated bit, the block is on the free list, and it is the head of
    the list when [pa = 1]. *)
Theorem free_coalesces st live p :
  reachable st live -> In p live ->
  exists pa ps na ns st' fl',
    run (pb <- PREV_BLKP p ;; GET_ALLOC (HDRP pb)) st = Some pa /\
    run (pb <- PREV_BLKP p ;; GET_SIZE (HDRP pb)) st = Some ps /\
    run (nb <- NEXT_BLKP p ;; GET_ALLOC (HDRP nb)) st = Some na /\
    run (nb <- NEXT_BLKP p ;; GET_SIZE (HDRP nb)) st = Some ns /\
    mm_free p st = Some (tt, st') /\
    (forall fuel, (length fl' < fuel)%nat ->
       free_list fuel st' = Some (fl', st')) /\
    let cb := if pa =? 0 then p - ps else p in
    let cs := (if pa =? 0 then ps else 0) + hsize st p +
              (if na =? 0 then ns else 0) in
    run (GET (HDRP cb)) st' = Some (PACK cs 0) /\
    run (f <- FTRP cb ;; GET f) st' = Some (PACK cs 0) /\
    In cb fl' /\ (pa = 1 -> hd 0 fl' = cb).
Proof.
  intros Hreach Hp0.
  destruct (reachable_Inv _ _ Hreach) as (bs & fl & HI & Hlive).
  destruct (proj1 (Hlive p) Hp0) as (s & Hp).
  rewrite (hsize_block _ _ _ _ _ _ HI Hp).
  clear Hlive. apply in_split in Hp as (pre & post & ->).
  destruct (observe_prev _ _ _ _ _ _ _ HI) as (Opa & Ops).
  destruct (observe_next _ _ _ _ _ _ _ HI) as (Ona & Ons).
  destruct (mm_free_frame _ _ _ _ _ _ HI)
    as (m' & cb & cs & pre' & post' & fl' & E & HI' & _ & _ & Hhd & _
        & Hd1 & Hd2).
  set (sz := fun x : block => snd (fst x)) in *.
  exists (Z.b2z (last (map flag pre) true)), (last (map sz pre) 16),
    (Z.b2z (hd true (map flag post))), (hd 0 (map sz post)),
    (set_mem st m'), fl'.
  split; [exact Opa|]. split; [exact Ops|]. split; [exact Ona|].
  split; [exact Ons|]. split; [exact E|].
  split; [intros fuel Hf; now apply (free_list_ok _ _ _ HI')|].
  pose proof HI' as (Hsh' & Hst').
  pose proof (Shape_region _ _ _ Hsh') as Hr'.
  assert (Hin : In (cb, cs, false) (pre' ++ (cb, cs, false) :: post'))
    by (apply in_or_app; right; now left).
  pose proof (Shape_block _ _ _ _ _ _ Hsh' Hin) as Hb.
  destruct (st_tags _ _ _ _ _ Hst' _ _ _ Hin) as (Hh & Hfo).
  assert (Ecb : (if Z.b2z (last (map flag pre) true) =? 0
                 then p - last (map sz pre) 16 else p) = cb /\
                (if Z.b2z (last (map flag pre) true) =? 0
                 then last (map sz pre) 16 else 0) = p - cb).
  { destruct Hd1 as [(-> & _ & ->)|(ps & -> & ->)].
    - cbn [Z.b2z Z.eqb]. split; lia.
    - rewrite !map_app. cbn [map flag sz fst snd]. rewrite !last_last.
      cbn [Z.b2z Z.eqb]. split; lia. }
  assert (Ecs : p - cb + s + (if Z.b2z (hd true (map flag post)) =? 0
                              then hd 0 (map sz post) else 0) = cs).
  { destruct Hd2 as [(-> & _ & H)|(ns & -> & H)].
    - cbn [Z.b2z Z.eqb]. lia.
    - cbn [map hd flag sz fst snd Z.b2z Z.eqb]. lia. }
  cbv zeta. destruct Ecb as (-> & ->). rewrite Ecs.
  norm. rewrite PACK_0 by lia.
  split; [|split; [|split]].
  - rewrite HDRP_eq by vsolve. eapply run_eq. rewrite GET_exec by vsolve.
    norm. now rewrite Hh.
  - eapply run_eq. step_FTRP cs false. rewrite GET_exec by vsolve.
    norm. now rewrite Hfo.
  - apply (sh_mem _ _ _ Hsh'). now exists cs.
  - intros Hpa. apply Hhd.
    destruct (last (map flag pre) true); [reflexivity|discriminate].
Qed.

(** ** The free list as a data structure *)

Lemma free_list_of st l :
  region_ok st -> (forall x, In x l -> cell st x) ->
  lseg (mem st) (mem st (mem_heap st)) l 0 ->
  forall fuel, (length l < fuel)%nat -> free_list fuel st = Some (l, st).
Proof.
  intros Hr Hc Hl fuel Hf. unfold free_list. step_HEAD.
  now apply list_walk_ok.
Qed.

(** X15. In every state reached with requests of at most [2^64 - 32]
    bytes, [remove_from_list] unlinks exactly the block it is given: the
    blocks before it and after it stay on the list, in the same order. *)
Theorem remove_keeps_order st live :
  reachable st live ->
  exists fl,
    (forall fuel, (length fl < fuel)%nat -> free_list fuel st = Some (fl, st)) /\
    forall l1 b l2, fl = l1 ++ b :: l2 ->
      exists st',
        remove_from_list b st = Some (tt, st') /\
        forall fuel, (length (l1 ++ l2) < fuel)%nat ->
          free_list fuel st' = Some (l1 ++ l2, st').
Proof.
  intros Hreach.
  destruct (reachable_Inv _ _ Hreach) as (bs & fl & HI & _).
  exists fl. split; [intros fuel Hf; now apply (free_list_ok _ _ _ HI)|].
  intros l1 b l2 ->. pose proof HI as (Hsh & Hst).
  pose proof (Shape_region _ _ _ Hsh) as Hr.
  destruct (remove_Stored _ _ _ _ _ Hsh Hst) as (m1 & E & Hst1 & _).
  exists (set_mem st m1). split; [exact E|].
  apply free_list_of; [exact Hr| |exact (st_lseg _ _ _ _ _ Hst1)].
  intros x Hx. apply (Shape_cell _ _ _ _ Hsh).
  apply in_app_or in Hx. apply in_or_app. cbn [In]. tauto.
Qed.

(** X16. In every state reached with requests of at most [2^64 - 32]
    bytes, [add_to_list] puts a block that is not on the free list (here a
    live block) at the head of the list, in front of the blocks that were
    there, and [remove_from_list] of that block gives the former list
    back. *)
Theorem add_then_remove st live b :
  reachable st live -> In b live ->
  exists fl st1 st2,
    (forall fuel, (length fl < fuel)%nat -> free_list fuel st = Some (fl, st)) /\
    add_to_list b st = Some (tt, st1) /\
    (forall fuel, (S (length fl) < fuel)%nat ->
       free_list fuel st1 = Some (b :: fl, st1)) /\
    remove_from_list b st1 = Some (tt, st2) /\
    (forall fuel, (length fl < fuel)%nat -> free_list fuel st2 = Some (fl, st2)).
Proof.
  intros Hreach Hb.
  destruct (reachable_Inv _ _ Hreach) as (bs & fl & HI & Hlive).
  destruct (proj1 (Hlive b) Hb) as (s & Hbs).
  pose proof HI as (Hsh & Hst).
  pose proof (Shape_region _ _ _ Hsh) as Hr.
  pose proof (Shape_block _ _ _ _ _ _ Hsh Hbs) as Hblk.
  assert (Hcb : cell st b) by (unfold cell; lia).
  assert (Hnin : ~ In b fl).
  { intros Hi. apply (sh_mem _ _ _ Hsh) in Hi as (s' & Hi).
    exact (free_not_alloc _ _ _ _ _ HI Hi _ Hbs). }
  assert (Hcells : forall x, In x fl -> cell st x)
    by (intros x Hx; exact (Shape_cell _ _ _ _ Hsh Hx)).
  destruct (add_spec st b fl Hr Hcb (st_lseg _ _ _ _ _ Hst)
              (st_prevs _ _ _ _ _ Hst) (sh_nodup _ _ _ Hsh) Hnin Hcells)
    as (m1 & E1 & Hl1 & Hp1 & _).
  assert (Hcells1 : forall x, In x (b :: fl) -> cell (set_mem st m1) x).
  { intros x [<-|Hx]; [exact Hcb|exact (Hcells x Hx)]. }
  assert (Hnd1 : NoDup ([] ++ b :: fl))
    by (constructor; [exact Hnin|exact (sh_nodup _ _ _ Hsh)]).
  destruct (remove_spec (set_mem st m1) b [] fl Hr Hl1 Hp1 Hnd1 Hcells1)
    as (m2 & E2 & Hl2 & _).
  exists fl, (set_mem st m1), (set_mem (set_mem st m1) m2).
  split; [intros fuel Hf; now apply (free_list_ok _ _ _ HI)|].
  split; [exact E1|]. split; [|split; [exact E2|]].
  - apply (free_list_of (set_mem st m1) (b :: fl) Hr Hcells1 Hl1).
  - apply (free_list_of (set_mem (set_mem st m1) m2) fl Hr Hcells Hl2).
Qed.

(** ** Growing the heap *)

(** X17. When [mem_sbrk] refuses the request, [extend_heap] returns
    [NULL] and memory is as before; this holds in any state. *)
Theorem extend_heap_refused words st :
  0 <= words -> words mod 2 = 0 -> words * 8 < 2 ^ 64 ->
  mem_max_addr st < mem_brk st + words * 8 ->
  extend_heap words st = Some (NULL, refused st).
Proof.
  intros Hw Heven Hsz Hfull. unfold extend_heap, WSIZE.
  replace (words mod 2 =? 1) with false by (symmetry; apply Z.eqb_neq; lia).
  rewrite wrap_small by lia.
  rewrite (bind_eq _ _ _ _ _ (mem_sbrk_refused st (words * 8) Hfull)).
  reflexivity.
Qed.

(** X18. In every state reached with requests of at most [2^64 - 32]
    bytes, [extend_heap] for an even number of at least 4 words that the
    region can take raises the break by that many words and returns a free
    block that ends at the new break, where it writes the epilogue header.
    The block holds the new bytes, together with the last block of the heap
    when that one was free; it is on the free list, and the payloads of the
    live blocks are as before. *)
Theorem extend_heap_appends st live words :
  reachable st live -> 4 <= words -> words mod 2 = 0 ->
  mem_brk st + words * 8 <= mem_max_addr st ->
  exists cb st' fl',
    extend_heap words st = Some (cb, st') /\
    mem_brk st' = mem_brk st + words * 8 /\
    sbrk_calls st' = sbrk_calls st + 1 /\
    cb <= mem_brk st /\ cb + hsize st' cb = mem_brk st' /\
    run (GET_ALLOC (HDRP cb)) st' = Some 0 /\
    run (GET (HDRP (mem_brk st'))) st' = Some (PACK 0 1) /\
    (forall fuel, (length fl' < fuel)%nat ->
       free_list fuel st' = Some (fl', st')) /\
    In cb fl' /\
    (forall q a, In q live -> q <= a < q + hsize st q - 16 ->
       mem st' a = mem st a).
Proof.
  intros Hreach Hw Heven Hfit.
  destruct (reachable_Inv _ _ Hreach) as (bs & fl & HI & Hlive).
  destruct (extend_heap_frame st bs fl words HI Hw Heven Hfit)
    as (m' & cb & cs & pre' & fl' & E & HI' & Hsum & Hal & Hfr & Hd & _).
  exists cb, (set_mem (grown st (words * 8)) m'), fl'.
  pose proof HI' as (Hsh' & Hst').
  pose proof HI as (Hsh & _).
  pose proof (Shape_region _ _ _ Hsh') as Hr'.
  assert (Hin : In (cb, cs, false) (pre' ++ [(cb, cs, false)]))
    by (apply in_or_app; right; now left).
  pose proof (Shape_block _ _ _ _ _ _ Hsh' Hin) as Hb.
  rewrite (hsize_block _ _ _ _ _ _ HI' Hin).
  split; [exact E|]. split; [reflexivity|]. split; [reflexivity|].
  split; [|split; [norm; lia|split; [|split; [|split; [|split]]]]].
  - destruct Hd as [(_ & _ & ->)|(ps & Hbs & Hcb)]; [lia|].
    assert (Hi : In (cb, ps, false) bs).
    { rewrite Hbs. apply in_or_app. right. now left. }
    pose proof (Shape_block _ _ _ _ _ _ Hsh Hi). lia.
  - exact (alloc_block _ _ _ _ _ _ HI' Hin).
  - rewrite HDRP_eq by vsolve. eapply run_eq. rewrite GET_exec by vsolve.
    rewrite (st_epi _ _ _ _ _ Hst'). reflexivity.
  - intros fuel Hf. now apply (free_list_ok _ _ _ HI').
  - apply (sh_mem _ _ _ Hsh'). now exists cs.
  - intros q a Hq Ha. norm. apply Hfr.
    exact (live_payload _ _ _ _ _ _ HI Hlive Hq Ha).
Qed.

(** ** What a passing check means *)

Lemma reads_only_ret {A} (a : A) : reads_only (ret a).
Proof. intros st x st' H. now injection H as _ <-. Qed.

Lemma reads_only_bind {A B} (m : M A) (f : A -> M B) :
  reads_only m -> (forall a, reads_only (f a)) -> reads_only (bind m f).
Proof.
  intros Hm Hf st b st' H. apply bind_inv in H as (a & st1 & H1 & H2).
  apply Hm in H1. subst st1. exact (Hf _ _ _ _ H2).
Qed.

Lemma reads_only_GET p : reads_only (GET p).
Proof.
  intros st a st' H. unfold GET in H.
  destruct (valid_addr st p); [|discriminate]. now injection H as _ <-.
Qed.

Ltac reads_step :=
  match goal with
  | |- reads_only (bind _ _) => apply reads_only_bind; [|intros]
  | |- reads_only (ret _) => apply reads_only_ret
  | |- reads_only (GET _) => apply reads_only_GET
  | |- reads_only (if ?c then _ else _) => destruct c
  | H : _ |- reads_only _ => apply H
  end.

Lemma reads_only_GET_SIZE p : reads_only (GET_SIZE p).
Proof. unfold GET_SIZE. repeat reads_step. Qed.

Lemma reads_only_GET_ALLOC p : reads_only (GET_ALLOC p).
Proof. unfold GET_ALLOC. repeat reads_step. Qed.

Lemma reads_only_FTRP bp : reads_only (FTRP bp).
Proof. unfold FTRP, GET_SIZE. repeat reads_step. Qed.

Lemma reads_only_NEXT_BLKP bp : reads_only (NEXT_BLKP bp).
Proof. unfold NEXT_BLKP, GET_SIZE. repeat reads_step. Qed.

Lemma run_of {A} (m : M A) st a : m st = Some (a, st) -> run m st = Some a.
Proof. apply run_eq. Qed.

Lemma land_1 w : Z.land w 1 = 0 \/ Z.land w 1 = 1.
Proof.
  assert (H : Z.land w 1 = w mod 2).
  { change (Z.land w 1) with (Z.land w (Z.ones 1)).
    now rewrite Z.land_ones by lia. }
  rewrite H. pose proof (Z.mod_pos_bound w 2 ltac:(lia)). lia.
Qed.

Lemma bad_sentinel_false bp size st st' :
  bad_sentinel bp size st = Some (false, st') ->
  st' = st /\ run (GET_SIZE (HDRP bp)) st = Some size /\
  run (GET_ALLOC (HDRP bp)) st = Some 1.
Proof.
  unfold bad_sentinel. intros H.
  apply bind_inv in H as (s & st1 & H1 & H).
  pose proof (reads_only_GET_SIZE _ _ _ _ H1). subst st1.
  destruct (s =? size) eqn:Es; cbn [negb] in H; [|discriminate].
  apply Z.eqb_eq in Es. subst s.
  apply bind_inv in H as (a & st1 & H2 & H).
  pose proof (reads_only_GET_ALLOC _ _ _ _ H2). subst st1.
  injection H as Ha <-. split; [reflexivity|]. split; [exact (run_of _ _ _ H1)|].
  apply Z.eqb_neq in Ha.
  assert (a = 1).
  { unfold GET_ALLOC in H2. apply bind_inv in H2 as (w & st1 & _ & H2).
    injection H2 as <- _. destruct (land_1 w); lia. }
  subst a. exact (run_of _ _ _ H2).
Qed.

Lemma check_block_true line bp st d st' :
  check_block line bp st = Some ((true, d), st') ->
  st' = st /\ d = [] /\ bp mod 16 = 0 /\
  exists h, run (GET (HDRP bp)) st = Some h /\
            run (f <- FTRP bp ;; GET f) st = Some h.
Proof.
  unfold check_block, DSIZE. intros H.
  destruct (bp mod 16 =? 0) eqn:Hal; cbn [negb] in H; [|discriminate].
  apply Z.eqb_eq in Hal.
  apply bind_inv in H as (h & st1 & H1 & H).
  pose proof (reads_only_GET _ _ _ _ H1). subst st1.
  apply bind_inv in H as (f & st1 & H2 & H).
  pose proof (reads_only_FTRP _ _ _ _ H2). subst st1.
  apply bind_inv in H as (w & st1 & H3 & H).
  pose proof (reads_only_GET _ _ _ _ H3). subst st1.
  destruct (h =? w) eqn:Ehw; cbn [negb] in H; [|discriminate].
  apply Z.eqb_eq in Ehw. subst h.
  injection H as <- <-. repeat split; trivial.
  exists w. split; [exact (run_of _ _ _ H1)|].
  apply run_of. now rewrite (bind_eq _ _ _ _ _ H2).
Qed.

Lemma check_blocks_inl fuel line :
  forall bp st e st',
    check_blocks fuel line bp st = Some (inl e, st') ->
    st' = st /\
    exists body,
      heap_walk fuel bp st = Some (body ++ [e], st) /\
      forall x, In x body ->
        x mod 16 = 0 /\
        exists h, run (GET (HDRP x)) st = Some h /\
                  run (f <- FTRP x ;; GET f) st = Some h.
Proof.
  induction fuel as [|fuel IH]; intros bp st e st' H; [discriminate|].
  cbn [check_blocks] in H. cbn [heap_walk].
  apply bind_inv in H as (s & st1 & H1 & H).
  pose proof (reads_only_GET_SIZE _ _ _ _ H1). subst st1.
  rewrite (bind_eq _ _ _ _ _ H1).
  destruct (0 <? s).
  - apply bind_inv in H as ([ok d] & st1 & H2 & H). cbn [fst snd] in H.
    destruct ok; cbn [negb] in H; [|discriminate].
    destruct (check_block_true _ _ _ _ _ H2) as (-> & _ & Hal & Hh).
    apply bind_inv in H as (nb & st1 & H3 & H).
    pose proof (reads_only_NEXT_BLKP _ _ _ _ H3). subst st1.
    destruct (IH _ _ _ _ H) as (-> & body & Hw & Hbody).
    split; [reflexivity|]. exists (bp :: body). split.
    + rewrite (bind_eq _ _ _ _ _ H3), (bind_eq _ _ _ _ _ Hw). reflexivity.
    + intros x [<-|Hx]; [now split|now apply Hbody].
  - injection H as <- <-. split; [reflexivity|]. exists []. split; [reflexivity|].
    intros x [].
Qed.

(** X19. In any state, when [check_heap] returns [true] it has printed
    nothing and changed nothing, and the heap is as it tested: the prologue
    header reads size 16, allocated; every block from the prologue to the
    last one before the end of the walk lies at a multiple of 16 and has a
    header word equal to its footer word; and the header at which the walk
    ends reads size 0, allocated. *)
Theorem check_heap_sound fuel line st d st' :
  check_heap fuel line st = Some ((true, d), st') ->
  st' = st /\ d = [] /\
  run (GET_SIZE (HDRP (heap_start st))) st = Some 16 /\
  run (GET_ALLOC (HDRP (heap_start st))) st = Some 1 /\
  exists body e,
    heap_blocks fuel st = Some (body ++ [e], st) /\
    (forall x, In x body ->
       x mod 16 = 0 /\
       exists h, run (GET (HDRP x)) st = Some h /\
                 run (f <- FTRP x ;; GET f) st = Some h) /\
    run (GET_SIZE (HDRP e)) st = Some 0 /\
    run (GET_ALLOC (HDRP e)) st = Some 1.
Proof.
  unfold check_heap. intros H.
  apply bind_inv in H as (bad & st1 & H1 & H).
  destruct bad; [discriminate|].
  destruct (bad_sentinel_false _ _ _ _ H1) as (-> & Hps & Hpa).
  apply bind_inv in H as (r & st1 & H2 & H).
  destruct r as [e|dd]; [|discriminate].
  destruct (check_blocks_inl _ _ _ _ _ _ H2) as (-> & body & Hw & Hbody).
  apply bind_inv in H as (bad' & st1 & H3 & H).
  destruct bad'; [discriminate|].
  destruct (bad_sentinel_false _ _ _ _ H3) as (-> & Hes & Hea).
  injection H as <- <-.
  split; [reflexivity|]. split; [reflexivity|].
  split; [exact Hps|]. split; [exact Hpa|].
  exists body, e. unfold heap_blocks. tauto.
Qed.

(** ** Allocation followed by deallocation *)

Lemma naf_around l1 l2 :
  naf (l1 ++ false :: l2) -> last l1 true = true /\ hd true l2 = true.
Proof.
  intros H. apply naf_app in H as (_ & H2 & H3). cbn [naf hd] in *.
  split; [|tauto]. destruct (last l1 true); [reflexivity|].
  specialize (H3 eq_refl). discriminate.
Qed.

Lemma walk_headers st st' bs fl fl' :
  Inv st bs fl -> Inv st' bs fl' ->
  mem_heap st' = mem_heap st -> mem_brk st' = mem_brk st ->
  forall x, In x ((heap_start st :: map (fun b : block => fst (fst b)) bs)
                  ++ [mem_brk st]) ->
    mem st' (x - 8) = mem st (x - 8).
Proof.
  intros (Hsh & Hst) (Hsh' & Hst') Hb Hk x Hx.
  apply in_app_or in Hx. cbn [In] in Hx. destruct Hx as [[<-|Hx]|[<-|[]]].
  - rewrite (sh_hs _ _ _ Hsh).
    replace (mem_heap st + 16 - 8) with (mem_heap st + 8) by lia.
    rewrite (st_pro_h _ _ _ _ _ Hst), <- Hb. apply (st_pro_h _ _ _ _ _ Hst').
  - apply in_map_iff in Hx as ([[y s] a] & <- & Hy). cbn [fst].
    destruct (st_tags _ _ _ _ _ Hst _ _ _ Hy) as (-> & _).
    now destruct (st_tags _ _ _ _ _ Hst' _ _ _ Hy) as (-> & _).
  - rewrite (st_epi _ _ _ _ _ Hst), <- Hk. apply (st_epi _ _ _ _ _ Hst').
Qed.

(** X20. In every state reached with requests of at most [2^64 - 32]
    bytes, when [mm_malloc] serves such a request from the free list (without
    calling [mem_sbrk]) and the block is freed at once, the heap is back to
    the same blocks: the walk over the heap visits the same pointers and
    finds the same header words as before the allocation, the free list
    holds the same blocks, and the payloads of the live blocks are
    untouched. *)
Theorem malloc_then_free st live fuel n p st1 :
  reachable st live -> request_ok n ->
  mm_malloc fuel n st = Some (p, st1) -> p <> NULL ->
  sbrk_calls st1 = sbrk_calls st ->
  exists st2 walk fl fl2,
    mm_free p st1 = Some (tt, st2) /\
    (forall f, (length walk <= f)%nat -> heap_blocks f st = Some (walk, st)) /\
    (forall f, (length walk <= f)%nat -> heap_blocks f st2 = Some (walk, st2)) /\
    (forall x, In x walk -> mem st2 (x - 8) = mem st (x - 8)) /\
    (forall f, (length fl < f)%nat -> free_list f st = Some (fl, st)) /\
    (forall f, (length fl2 < f)%nat -> free_list f st2 = Some (fl2, st2)) /\
    (forall x, In x fl2 <-> In x fl) /\
    (forall q a, In q live -> q <= a < q + hsize st q - 16 ->
       mem st2 a = mem st a).
Proof.
  intros Hreach Hok Hm Hp Hcalls.
  destruct (reachable_Inv _ _ Hreach) as (bs & fl & HI & Hlive).
  assert (Hn : 0 < n).
  { destruct (Z.eq_dec n 0) as [->|]; [|unfold request_ok in Hok; lia].
    rewrite mm_malloc_zero in Hm. injection Hm as <- _. now destruct Hp. }
  assert (Hn64 : 0 < n < 2 ^ 64) by (unfold request_ok in Hok; lia).
  assert (Hdet : forall f0 r, (forall f, (f0 < f)%nat -> mm_malloc f n st = Some r) ->
            (p, st1) = r).
  { intros f0 r Hr.
    pose proof (mm_malloc_mono fuel (Nat.max fuel (S f0)) n st _
                  (Nat.le_max_l _ _) Hm) as Hm'.
    rewrite (Hr (Nat.max fuel (S f0)) ltac:(lia)) in Hm'. congruence. }
  destruct (adjusted_size_ok n Hn Hok) as (H32 & HA16 & _).
  destruct (first_fit_dec st (adjusted_size n) fl)
    as [(l1 & b & l2 & Hfl & Hsmall & Hfit)|Hsmall].
  2:{ exfalso. destruct (malloc_miss st bs fl n HI Hn64 Hsmall) as (Hfail & Hgrow).
      destruct (Z_le_gt_dec (mem_brk st + max (adjusted_size n) CHUNKSIZE)
                            (mem_max_addr st)) as [Hfit|Hfull].
      - destruct (Hgrow Hfit) as (cb & m' & E & _).
        pose proof (Hdet _ _ E) as Hr. injection Hr as _ ->.
        cbn in Hcalls. lia.
      - pose proof (Hdet _ _ (Hfail ltac:(lia))) as Hr. injection Hr as -> _.
        now destruct Hp. }
  subst fl. pose proof HI as (Hsh & Hst).
  pose proof (Shape_region _ _ _ Hsh) as Hr.
  assert (Hb : In b (l1 ++ b :: l2)) by (apply in_or_app; right; now left).
  pose proof (Shape_cell _ _ _ _ Hsh Hb) as Hcb.
  apply (sh_mem _ _ _ Hsh) in Hb as (S & Hb).
  rewrite (hsize_block _ _ _ _ _ _ HI Hb) in Hfit.
  apply in_split in Hb as (pre & post & Hbs). subst bs.
  destruct (place_exact st pre post l1 l2 b S (adjusted_size n) HI
              ltac:(lia) HA16) as (m1 & E1 & Hno & Hsp & Hfr1).
  assert (Em : forall f, (length l1 < f)%nat ->
            mm_malloc f n st = Some (b, set_mem st m1)).
  { intros f Hf. unfold mm_malloc.
    replace (n <=? 0) with false by (symmetry; apply Z.leb_gt; lia).
    rewrite (bind_eq _ _ _ _ _
               (find_fit_hit st _ _ (adjusted_size n) l1 b l2 f HI eq_refl Hsmall
                  ltac:(rewrite (hsize_block _ _ _ b S false HI);
                        [lia|apply in_or_app; right; now left]) Hf)).
    replace (b =? NULL) with false by (symmetry; apply Z.eqb_neq; vsolve).
    cbn [negb]. step_by E1. reflexivity. }
  pose proof (Hdet _ _ Em) as Hres. injection Hres as -> ->.
  pose proof (sh_naf _ _ _ Hsh) as Hnaf. unfold no_adj_free in Hnaf.
  rewrite map_app in Hnaf. cbn [map flag snd] in Hnaf.
  destruct (naf_around _ _ Hnaf) as (Hlast & Hhd).
  assert (Hfin : exists m2 fl2,
            mm_free b (set_mem st m1) = Some (tt, set_mem (set_mem st m1) m2) /\
            Inv (set_mem (set_mem st m1) m2) (pre ++ (b, S, false) :: post) fl2 /\
            forall a, in_payload (pre ++ post) a -> m2 a = m1 a).
  { destruct (Z_lt_ge_dec (S - adjusted_size n) 32) as [Hlt|Hge].
    - destruct (mm_free_frame _ _ _ _ _ _ (Hno Hlt))
        as (m2 & cb & cs & pre' & post' & fl2 & E2 & HI2 & _ & _ & _ & Hfr2
            & Hd1 & Hd2).
      exists m2, fl2. split; [exact E2|]. split; [|exact Hfr2].
      destruct Hd1 as [(_ & -> & ->)|(ps & -> & _)].
      2:{ rewrite map_app in Hlast. cbn [map flag snd] in Hlast.
          rewrite last_last in Hlast. discriminate. }
      destruct Hd2 as [(_ & -> & Hs)|(ns & -> & _)]; [|discriminate].
      replace cs with S in HI2 by lia. exact HI2.
    - destruct (mm_free_frame _ _ _ _ _ _ (Hsp ltac:(lia)))
        as (m2 & cb & cs & pre' & post' & fl2 & E2 & HI2 & _ & _ & _ & Hfr2
            & Hd1 & Hd2).
      exists m2, fl2. split; [exact E2|]. split.
      + destruct Hd1 as [(_ & -> & ->)|(ps & -> & _)].
        2:{ rewrite map_app in Hlast. cbn [map flag snd] in Hlast.
            rewrite last_last in Hlast. discriminate. }
        destruct Hd2 as [(Hf & _)|(ns & Hpost & Hs)]; [discriminate|].
        injection Hpost as <- <-.
        replace cs with S in HI2 by lia. exact HI2.
      + intros a Ha. apply Hfr2. destruct Ha as (x & s & Hx & Ha).
        exists x, s. split; [|exact Ha].
        apply in_app_or in Hx. apply in_or_app. cbn [In]. tauto. }
  destruct Hfin as (m2 & fl2 & E2 & HI2 & Hfr2).
  set (addr := fun b : block => fst (fst b)).
  exists (set_mem (set_mem st m1) m2),
    ((heap_start st :: map addr (pre ++ (b, S, false) :: post)) ++ [mem_brk st]),
    (l1 ++ b :: l2), fl2.
  assert (Hlen : forall f,
            (length ((heap_start st :: map addr (pre ++ (b, S, false) :: post))
                     ++ [mem_brk st]) <= f)%nat ->
            (length (pre ++ (b, S, false) :: post) + 1 < f)%nat).
  { intros f Hf. rewrite length_app in Hf. cbn [length] in Hf.
    rewrite length_map in Hf. unfold block in *. lia. }
  split; [exact E2|]. split; [|split; [|split; [|split; [|split; [|split]]]]].
  - intros f Hf. apply (heap_blocks_ok _ _ _ HI). now apply Hlen.
  - intros f Hf. apply (heap_blocks_ok _ _ _ HI2). now apply Hlen.
  - intros x Hx. exact (walk_headers _ _ _ _ _ HI HI2 eq_refl eq_refl x Hx).
  - intros f Hf. now apply (free_list_ok _ _ _ HI).
  - intros f Hf. now apply (free_list_ok _ _ _ HI2).
  - intros x. destruct HI2 as (Hsh2 & _).
    rewrite (sh_mem _ _ _ Hsh2), (sh_mem _ _ _ Hsh). tauto.
  - intros q a Hq Ha. norm.
    assert (Hpl : in_payload (pre ++ post) a).
    { apply in_payload_split with (b := b) (S := S).
      exact (live_payload _ _ _ _ _ _ HI Hlive Hq Ha). }
    rewrite Hfr2, Hfr1; trivial.
Qed.

(** ** Freeing nothing *)

(** X21. [mm_free] does not treat [NULL] specially: it starts by reading
    the header word in front of the pointer, which for [NULL] is the word at
    address [2^64 - 8], outside any region; the call has no defined
    result. *)
Theorem free_null_undefined st :
  mem_brk st < 2 ^ 64 -> mm_free NULL st = None.
Proof.
  intros Hbrk. unfold mm_free. apply bind_None.
  unfold FTRP. apply bind_None. unfold GET_SIZE. apply bind_None.
  unfold GET, valid_addr, HDRP, PSUB, NULL, WSIZE.
  change (wrap (0 - 8)) with (2 ^ 64 - 8).
  replace (2 ^ 64 - 8 + 8 <=? mem_brk st) with false
    by (symmetry; apply Z.leb_gt; lia).
  now rewrite andb_false_r.
Qed.

(** ** Instances of the further properties *)

Lemma heap_one_reachable : reachable heap_one [4128].
Proof. apply (script_reachable 8 heap0 script_one); by_eval. Qed.

Lemma heap_odd_reachable : reachable heap_odd [].
Proof. apply (script_reachable 8 heap_odd0 []); by_eval. Qed.

Lemma heap_one_data_in_use : in_use heap_one_data [4128].
Proof.
  apply use_store; [exact (reachable_in_use _ _ heap_one_reachable)|].
  intros a Ha. unfold upd. destruct (Z.eqb_spec a 4128) as [->|]; [|reflexivity].
  specialize (Ha 4128 (or_introl eq_refl)).
  change (hsize heap_one 4128) with 32 in Ha. lia.
Qed.

Lemma heap_pair_data_in_use : in_use heap_pair_data [4160; 4128].
Proof.
  apply (use_malloc heap_one_data [4128] 8 16 4160 heap_pair_data
           heap_one_data_in_use); [unfold request_ok; lia|by_eval].
Qed.

(** X1 for freeing the first of two live blocks. *)
Lemma free_keeps_region_witness :
  mm_free 4128 heap_pair = Some (tt, heap_gap) /\
  same_region heap_pair heap_gap.
Proof.
  assert (E : mm_free 4128 heap_pair = Some (tt, heap_gap)) by by_eval.
  split; [exact E|].
  exact (free_keeps_region 4128 heap_pair tt heap_gap E).
Defined.

(** X2 for a request of 16 bytes on the heap right after initialisation. *)
Lemma malloc_growth_witness :
  0 <= 16 < 2 ^ 64 /\ mm_malloc 8 16 heap_init = Some (4128, heap_one) /\
  mem_heap heap_one = mem_heap heap_init /\
  mem_max_addr heap_one = mem_max_addr heap_init /\
  heap_start heap_one = heap_start heap_init /\
  ((sbrk_calls heap_one = sbrk_calls heap_init /\
    mem_brk heap_one = mem_brk heap_init) \/
   (sbrk_calls heap_one = sbrk_calls heap_init + 1 /\
    (mem_brk heap_one = mem_brk heap_init \/
     mem_brk heap_one = mem_brk heap_init + max (adjusted_size 16) CHUNKSIZE))).
Proof.
  assert (Hn : 0 <= 16 < 2 ^ 64) by lia.
  assert (E : mm_malloc 8 16 heap_init = Some (4128, heap_one)) by by_eval.
  split; [exact Hn|]. split; [exact E|].
  exact (malloc_growth 8 16 heap_init 4128 heap_one Hn E).
Defined.

(** X3 on a fresh region of 20 MB at address 4096. *)
Lemma init_layout_witness :
  fresh heap0 /\ mem_heap heap0 + 4128 <= mem_max_addr heap0 /\
  exists st,
    mm_init heap0 = Some (0, st) /\
    mem_heap st = mem_heap heap0 /\ heap_start st = mem_heap heap0 + 16 /\
    mem_brk st = mem_heap heap0 + 4128 /\ sbrk_calls st = sbrk_calls heap0 + 2 /\
    (forall fuel, (3 <= fuel)%nat ->
       heap_blocks fuel st =
       Some ([mem_heap heap0 + 16; mem_heap heap0 + 32; mem_heap heap0 + 4128], st)) /\
    (forall fuel, (2 <= fuel)%nat ->
       free_list fuel st = Some ([mem_heap heap0 + 32], st)) /\
    run (GET (HDRP (mem_heap heap0 + 32))) st = Some (PACK 4096 0).
Proof.
  assert (Hf : fresh heap0) by (apply freshb_fresh; by_eval).
  assert (Hr : mem_heap heap0 + 4128 <= mem_max_addr heap0)
    by (vm_compute; discriminate).
  split; [exact Hf|]. split; [exact Hr|].
  exact (init_layout heap0 Hf Hr).
Defined.

(** X4 on a fresh region of 100 bytes. *)
Lemma init_out_of_memory_witness :
  fresh heap_small /\
  mem_heap heap_small + 32 <= mem_max_addr heap_small < mem_heap heap_small + 4128 /\
  exists st', mm_init heap_small = Some (-1, st') /\
    mem_brk st' = mem_heap heap_small + 32 /\
    sbrk_calls st' = sbrk_calls heap_small + 2.
Proof.
  assert (Hf : fresh heap_small) by (apply freshb_fresh; by_eval).
  assert (Hr : mem_heap heap_small + 32 <= mem_max_addr heap_small
               < mem_heap heap_small + 4128) by (cbn; lia).
  split; [exact Hf|]. split; [exact Hr|].
  exact (init_out_of_memory heap_small Hf Hr).
Defined.

(** X5 on the heap with a hole in front of a live block. *)
Lemma check_heap_passes_witness :
  reachable heap_hole [4160] /\ mem_heap heap_hole mod 16 = 0 /\
  exists n, forall fuel, (n <= fuel)%nat ->
    check_heap fuel 0 heap_hole = Some ((true, []), heap_hole).
Proof.
  assert (Hb : mem_heap heap_hole mod 16 = 0) by by_eval.
  split; [exact heap_hole_reachable|]. split; [exact Hb|].
  exact (check_heap_passes heap_hole [4160] 0 heap_hole_reachable Hb).
Defined.

(** X6 on the initialised heap of a region that starts at 4104. *)
Lemma check_heap_misaligned_base_witness :
  reachable heap_odd [] /\ mem_heap heap_odd mod 16 <> 0 /\ (0 < 8)%nat /\
  check_heap 8 0 heap_odd =
  Some ((false, [NotAligned 0 (heap_start heap_odd)]), heap_odd).
Proof.
  assert (Hb : mem_heap heap_odd mod 16 <> 0) by (vm_compute; discriminate).
  assert (Hf : (0 < 8)%nat) by lia.
  split; [exact heap_odd_reachable|]. split; [exact Hb|]. split; [exact Hf|].
  exact (check_heap_misaligned_base heap_odd [] 0 8 heap_odd_reachable Hb Hf).
Defined.

(** X7 on the heap with a hole in front of a live block. *)
Lemma heap_tiling_witness :
  reachable heap_hole [4160] /\
  exists walk,
    (forall fuel, (length walk <= fuel)%nat ->
       heap_blocks fuel heap_hole = Some (walk, heap_hole)) /\
    hd 0 walk = mem_heap heap_hole + 16 /\ last walk 0 = mem_brk heap_hole /\
    forall l1 x y l2, walk = l1 ++ x :: y :: l2 ->
      y = x + hsize heap_hole x /\ (x - mem_heap heap_hole) mod 16 = 0 /\
      hsize heap_hole x mod 16 = 0 /\
      (l1 = [] -> hsize heap_hole x = 16) /\
      (l1 <> [] -> 32 <= hsize heap_hole x).
Proof.
  split; [exact heap_hole_reachable|].
  exact (heap_tiling heap_hole [4160] heap_hole_reachable).
Defined.

(** X8 on the heap with a hole in front of a live block, whose free list
    has two blocks. *)
Lemma free_list_links_witness :
  reachable heap_hole [4160] /\
  exists fl,
    (forall fuel, (length fl < fuel)%nat ->
       free_list fuel heap_hole = Some (fl, heap_hole)) /\
    (forall l1 x y l2, fl = l1 ++ x :: y :: l2 ->
       run (NEXT_FREE_BLKP x) heap_hole = Some y /\
       run (PREV_FREE_BLKP y) heap_hole = Some x) /\
    (forall l x, fl = l ++ [x] -> run (NEXT_FREE_BLKP x) heap_hole = Some NULL).
Proof.
  split; [exact heap_hole_reachable|].
  exact (free_list_links heap_hole [4160] heap_hole_reachable).
Defined.

(** X9 for a second request of 16 bytes while the first block is live. *)
Lemma malloc_block_witness :
  reachable heap_one [4128] /\ request_ok 16 /\
  mm_malloc 8 16 heap_one = Some (4160, heap_pair) /\ 4160 <> NULL /\
  ~ In 4160 [4128] /\
  run (GET_ALLOC (HDRP 4160)) heap_pair = Some 1 /\
  adjusted_size 16 <= hsize heap_pair 4160 < adjusted_size 16 + 32 /\
  16 + 16 <= hsize heap_pair 4160 /\
  mem_heap heap_pair + 32 <= 4160 /\
  4160 + hsize heap_pair 4160 <= mem_brk heap_pair /\
  forall q, In q [4128] ->
    hsize heap_pair q = hsize heap_one q /\
    (q + hsize heap_one q <= 4160 \/ 4160 + hsize heap_pair 4160 <= q).
Proof.
  assert (Hn : request_ok 16) by (unfold request_ok; lia).
  assert (E : mm_malloc 8 16 heap_one = Some (4160, heap_pair)) by by_eval.
  assert (Hp : 4160 <> NULL) by discriminate.
  split; [exact heap_one_reachable|]. split; [exact Hn|].
  split; [exact E|]. split; [exact Hp|].
  exact (malloc_block heap_one [4128] 8 16 4160 heap_pair
           heap_one_reachable Hn E Hp).
Defined.

(** X10 for a second request of 16 bytes while the first block is live and
    holds a value of the client. *)
Lemma malloc_keeps_live_data_witness :
  in_use heap_one_data [4128] /\ request_ok 16 /\
  mm_malloc 8 16 heap_one_data = Some (4160, heap_pair_data) /\
  mem heap_one_data 4128 = 42 /\
  forall q a, In q [4128] -> q <= a < q + hsize heap_one_data q - 16 ->
    mem heap_pair_data a = mem heap_one_data a.
Proof.
  assert (Hn : request_ok 16) by (unfold request_ok; lia).
  assert (E : mm_malloc 8 16 heap_one_data = Some (4160, heap_pair_data))
    by by_eval.
  split; [exact heap_one_data_in_use|]. split; [exact Hn|]. split; [exact E|].
  split; [by_eval|].
  exact (malloc_keeps_live_data heap_one_data [4128] 8 16 4160 heap_pair_data
           heap_one_data_in_use Hn E).
Defined.

(** X11 for freeing the second of two live blocks while the first holds a
    value of the client. *)
Lemma free_keeps_live_data_witness :
  in_use heap_pair_data [4160; 4128] /\ In 4160 [4160; 4128] /\
  mm_free 4160 heap_pair_data = Some (tt, heap_back_data) /\
  mem heap_pair_data 4128 = 42 /\
  forall q, In q [4160; 4128] -> q <> 4160 ->
    hsize heap_back_data q = hsize heap_pair_data q /\
    run (GET_ALLOC (HDRP q)) heap_back_data = Some 1 /\
    forall a, q <= a < q + hsize heap_pair_data q - 16 ->
      mem heap_back_data a = mem heap_pair_data a.
Proof.
  assert (Hin : In 4160 [4160; 4128]) by (now left).
  assert (E : mm_free 4160 heap_pair_data = Some (tt, heap_back_data))
    by by_eval.
  split; [exact heap_pair_data_in_use|]. split; [exact Hin|]. split; [exact E|].
  split; [by_eval|].
  exact (free_keeps_live_data heap_pair_data [4160; 4128] 4160 heap_back_data
           heap_pair_data_in_use Hin E).
Defined.

(** X12 on the heap with two live blocks. *)
Lemma live_blocks_witness :
  reachable heap_pair [4160; 4128] /\
  NoDup [4160; 4128] /\
  forall p, In p [4160; 4128] ->
    run (GET_ALLOC (HDRP p)) heap_pair = Some 1 /\
    (p - mem_heap heap_pair) mod 16 = 0 /\ 32 <= hsize heap_pair p /\
    mem_heap heap_pair + 32 <= p /\ p + hsize heap_pair p <= mem_brk heap_pair /\
    forall q, In q [4160; 4128] -> q <> p ->
      p + hsize heap_pair p <= q \/ q + hsize heap_pair q <= p.
Proof.
  split; [exact heap_pair_reachable|].
  exact (live_blocks heap_pair [4160; 4128] heap_pair_reachable).
Defined.

(** X13 for a request of 8 bytes on the heap with a hole. *)
Lemma malloc_null_iff_full_witness :
  reachable heap_hole [4160] /\ 0 < 8 < 2 ^ 64 /\
  exists fl p st',
    (forall fuel, (length fl < fuel)%nat ->
       free_list fuel heap_hole = Some (fl, heap_hole)) /\
    (forall fuel, (length fl < fuel)%nat ->
       mm_malloc fuel 8 heap_hole = Some (p, st')) /\
    (p = NULL <->
     (forall x, In x fl -> hsize heap_hole x < adjusted_size 8) /\
     mem_max_addr heap_hole < mem_brk heap_hole + max (adjusted_size 8) CHUNKSIZE) /\
    (p = NULL -> mem st' = mem heap_hole /\ mem_brk st' = mem_brk heap_hole).
Proof.
  assert (Hn : 0 < 8 < 2 ^ 64) by lia.
  split; [exact heap_hole_reachable|]. split; [exact Hn|].
  exact (malloc_null_iff_full heap_hole [4160] 8 heap_hole_reachable Hn).
Defined.

(** X14 for a live block between two free blocks. *)
Lemma free_coalesces_witness :
  reachable heap_gap [4160] /\ In 4160 [4160] /\
  exists pa ps na ns st' fl',
    run (pb <- PREV_BLKP 4160 ;; GET_ALLOC (HDRP pb)) heap_gap = Some pa /\
    run (pb <- PREV_BLKP 4160 ;; GET_SIZE (HDRP pb)) heap_gap = Some ps /\
    run (nb <- NEXT_BLKP 4160 ;; GET_ALLOC (HDRP nb)) heap_gap = Some na /\
    run (nb <- NEXT_BLKP 4160 ;; GET_SIZE (HDRP nb)) heap_gap = Some ns /\
    mm_free 4160 heap_gap = Some (tt, st') /\
    (forall fuel, (length fl' < fuel)%nat ->
       free_list fuel st' = Some (fl', st')) /\
    let cb := if pa =? 0 then 4160 - ps else 4160 in
    let cs := (if pa =? 0 then ps else 0) + hsize heap_gap 4160 +
              (if na =? 0 then ns else 0) in
    run (GET (HDRP cb)) st' = Some (PACK cs 0) /\
    run (f <- FTRP cb ;; GET f) st' = Some (PACK cs 0) /\
    In cb fl' /\ (pa = 1 -> hd 0 fl' = cb).
Proof.
  assert (Hin : In 4160 [4160]) by (now left).
  split; [exact heap_gap_reachable|]. split; [exact Hin|].
  exact (free_coalesces heap_gap [4160] 4160 heap_gap_reachable Hin).
Defined.

(** X15 on the heap with a hole, whose free list has two blocks. *)
Lemma remove_keeps_order_witness :
  reachable heap_hole [4160] /\
  exists fl,
    (forall fuel, (length fl < fuel)%nat ->
       free_list fuel heap_hole = Some (fl, heap_hole)) /\
    forall l1 b l2, fl = l1 ++ b :: l2 ->
      exists st',
        remove_from_list b heap_hole = Some (tt, st') /\
        forall fuel, (length (l1 ++ l2) < fuel)%nat ->
          free_list fuel st' = Some (l1 ++ l2, st').
Proof.
  split; [exact heap_hole_reachable|].
  exact (remove_keeps_order heap_hole [4160] heap_hole_reachable).
Defined.

(** X16 for the live block of the heap with a hole. *)
Lemma add_then_remove_witness :
  reachable heap_hole [4160] /\ In 4160 [4160] /\
  exists fl st1 st2,
    (forall fuel, (length fl < fuel)%nat ->
       free_list fuel heap_hole = Some (fl, heap_hole)) /\
    add_to_list 4160 heap_hole = Some (tt, st1) /\
    (forall fuel, (S (length fl) < fuel)%nat ->
       free_list fuel st1 = Some (4160 :: fl, st1)) /\
    remove_from_list 4160 st1 = Some (tt, st2) /\
    (forall fuel, (length fl < fuel)%nat -> free_list fuel st2 = Some (fl, st2)).
Proof.
  assert (Hin : In 4160 [4160]) by (now left).
  split; [exact heap_hole_reachable|]. split; [exact Hin|].
  exact (add_then_remove heap_hole [4160] 4160 heap_hole_reachable Hin).
Defined.

(** X17 for 512 words on a region of 100 bytes. *)
Lemma extend_heap_refused_witness :
  0 <= 512 /\ 512 mod 2 = 0 /\ 512 * 8 < 2 ^ 64 /\
  mem_max_addr heap_small < mem_brk heap_small + 512 * 8 /\
  extend_heap 512 heap_small = Some (NULL, refused heap_small).
Proof.
  assert (H0 : 0 <= 512) by lia.
  assert (H1 : 512 mod 2 = 0) by reflexivity.
  assert (H2 : 512 * 8 < 2 ^ 64) by lia.
  assert (H3 : mem_max_addr heap_small < mem_brk heap_small + 512 * 8)
    by (cbn; lia).
  split; [exact H0|]. split; [exact H1|]. split; [exact H2|]. split; [exact H3|].
  exact (extend_heap_refused 512 heap_small H0 H1 H2 H3).
Defined.

(** X18 for four more words on the heap with a hole, whose last block is
    free. *)
Lemma extend_heap_appends_witness :
  reachable heap_hole [4160] /\ 4 <= 4 /\ 4 mod 2 = 0 /\
  mem_brk heap_hole + 4 * 8 <= mem_max_addr heap_hole /\
  exists cb st' fl',
    extend_heap 4 heap_hole = Some (cb, st') /\
    mem_brk st' = mem_brk heap_hole + 4 * 8 /\
    sbrk_calls st' = sbrk_calls heap_hole + 1 /\
    cb <= mem_brk heap_hole /\ cb + hsize st' cb = mem_brk st' /\
    run (GET_ALLOC (HDRP cb)) st' = Some 0 /\
    run (GET (HDRP (mem_brk st'))) st' = Some (PACK 0 1) /\
    (forall fuel, (length fl' < fuel)%nat ->
       free_list fuel st' = Some (fl', st')) /\
    In cb fl' /\
    (forall q a, In q [4160] -> q <= a < q + hsize heap_hole q - 16 ->
       mem st' a = mem heap_hole a).
Proof.
  assert (H0 : 4 <= 4) by lia.
  assert (H1 : 4 mod 2 = 0) by reflexivity.
  assert (H2 : mem_brk heap_hole + 4 * 8 <= mem_max_addr heap_hole)
    by (vm_compute; discriminate).
  split; [exact heap_hole_reachable|]. split; [exact H0|].
  split; [exact H1|]. split; [exact H2|].
  exact (extend_heap_appends heap_hole [4160] 4 heap_hole_reachable H0 H1 H2).
Defined.

(** X19 on the heap with a hole in front of a live block. *)
Lemma check_heap_sound_witness :
  check_heap 8 0 heap_hole = Some ((true, []), heap_hole) /\
  heap_hole = heap_hole /\ @nil diag = [] /\
  run (GET_SIZE (HDRP (heap_start heap_hole))) heap_hole = Some 16 /\
  run (GET_ALLOC (HDRP (heap_start heap_hole))) heap_hole = Some 1 /\
  exists body e,
    heap_blocks 8 heap_hole = Some (body ++ [e], heap_hole) /\
    (forall x, In x body ->
       x mod 16 = 0 /\
       exists h, run (GET (HDRP x)) heap_hole = Some h /\
                 run (f <- FTRP x ;; GET f) heap_hole = Some h) /\
    run (GET_SIZE (HDRP e)) heap_hole = Some 0 /\
    run (GET_ALLOC (HDRP e)) heap_hole = Some 1.
Proof.
  assert (E : check_heap 8 0 heap_hole = Some ((true, []), heap_hole))
    by by_eval.
  split; [exact E|].
  exact (check_heap_sound 8 0 heap_hole [] heap_hole E).
Defined.

(** X20 for a second request of 16 bytes while the first block is live. *)
Lemma malloc_then_free_witness :
  reachable heap_one [4128] /\ request_ok 16 /\
  mm_malloc 8 16 heap_one = Some (4160, heap_pair) /\ 4160 <> NULL /\
  sbrk_calls heap_pair = sbrk_calls heap_one /\
  exists st2 walk fl fl2,
    mm_free 4160 heap_pair = Some (tt, st2) /\
    (forall f, (length walk <= f)%nat ->
       heap_blocks f heap_one = Some (walk, heap_one)) /\
    (forall f, (length walk <= f)%nat -> heap_blocks f st2 = Some (walk, st2)) /\
    (forall x, In x walk -> mem st2 (x - 8) = mem heap_one (x - 8)) /\
    (forall f, (length fl < f)%nat -> free_list f heap_one = Some (fl, heap_one)) /\
    (forall f, (length fl2 < f)%nat -> free_list f st2 = Some (fl2, st2)) /\
    (forall x, In x fl2 <-> In x fl) /\
    (forall q a, In q [4128] -> q <= a < q + hsize heap_one q - 16 ->
       mem st2 a = mem heap_one a).
Proof.
  assert (Hn : request_ok 16) by (unfold request_ok; lia).
  assert (E : mm_malloc 8 16 heap_one = Some (4160, heap_pair)) by by_eval.
  assert (Hp : 4160 <> NULL) by discriminate.
  assert (Hc : sbrk_calls heap_pair = sbrk_calls heap_one) by by_eval.
  split; [exact heap_one_reachable|]. split; [exact Hn|].
  split; [exact E|]. split; [exact Hp|]. split; [exact Hc|].
  exact (malloc_then_free heap_one [4128] 8 16 4160 heap_pair
           heap_one_reachable Hn E Hp Hc).
Defined.

(** X21 on the heap right after initialisation. *)
Lemma free_null_undefined_witness :
  mem_brk heap_init < 2 ^ 64 /\ mm_free NULL heap_init = None.
Proof.
  assert (Hb : mem_brk heap_init < 2 ^ 64) by by_eval.
  split; [exact Hb|].
  exact (free_null_undefined heap_init Hb).
Defined.
